(** * Repo-Gist: the analysis pipeline, embedded and verified

    A shallow embedding of the parts of the Repo-Gist analysis pipeline
    that its specification makes checkable statements about:

    - [Scoring]: [calculateScores] of [app/api/analyze/code-analyzer.ts];
    - [RateLimit]: [checkRateLimit], [cleanupExpiredRecords] and
      [getClientIP] of [app/api/analyze/rate-limit.ts];
    - [Mermaid]: the diagram codec, in the variant of [lib/mermaid.ts]
      that sanitizes identifiers and labels;
    - [Consumer]: the frame loop of [analyze] in [hooks/use-analysis.ts];
    - [Route]: the head of the [POST] handler of [app/api/analyze].

    JavaScript strings are sequences of UTF-16 code units, modelled as
    [list N].  JavaScript numbers that the code only uses as integers
    are modelled as [Z]; the one computation that is done in binary64
    arithmetic on numbers that are no integers, the weighted overall
    score, is modelled on Rocq's primitive floats, which are IEEE 754
    binary64 as well.  Module state is passed explicitly, and so are the
    readings of [Date.now()] and [Math.random()].  Constants and
    functions of modules that are not among the sources ([./config],
    [JSON.parse], the analysis context, the storage) are variables of a
    section. *)

From Stdlib Require Import ZArith QArith Qround Lia List Bool Ascii String.
From Stdlib Require Import Floats.PrimFloat Floats.FloatOps Floats.SpecFloat.
From Stdlib Require Import Numbers.Cyclic.Int63.Uint63.
From Stdlib Require Import DecimalString.
From Stdlib Require DecimalFacts DecimalPos DecimalZ.
From stdpp Require Import base option list gmap fin_maps.

Local Open Scope Z_scope.
Local Set Warnings "-inexact-float".

(** ** JavaScript values the code works on *)

Module JS.

(** A string is its sequence of UTF-16 code units. *)
Abbreviation jsstring := (list N).

(** A string literal of the source (ASCII only). *)
Definition lit (s : string) : jsstring :=
  map N_of_ascii (list_ascii_of_string s).

(** [${n}] for an integral number below 1e21: its decimal digits. *)
Definition decimal (z : Z) : jsstring :=
  lit (NilZero.string_of_int (Z.to_int z)).

(** [String.prototype.startsWith]. *)
Fixpoint startsWith (s p : jsstring) : bool :=
  match p, s with
  | [], _ => true
  | _ :: _, [] => false
  | c :: p', d :: s' => N.eqb c d && startsWith s' p'
  end.

(** [s.slice(0, n)] for a non-negative [n]. *)
Definition slice0 (n : nat) (s : jsstring) : jsstring := firstn n s.

(** White space and line terminators, as [trim] and the regular
    expression class [\s] see them. *)
Definition isWhiteSpace (c : N) : bool :=
  ((9 <=? c) && (c <=? 13) || (c =? 32) || (c =? 160) || (c =? 5760)
   || (8192 <=? c) && (c <=? 8202) || (c =? 8232) || (c =? 8233)
   || (c =? 8239) || (c =? 8287) || (c =? 12288) || (c =? 65279))%N.

Fixpoint trimStart (s : jsstring) : jsstring :=
  match s with
  | c :: s' => if isWhiteSpace c then trimStart s' else s
  | [] => []
  end.

Definition trimEnd (s : jsstring) : jsstring := rev (trimStart (rev s)).

(** [String.prototype.trim]. *)
Definition trim (s : jsstring) : jsstring := trimEnd (trimStart s).

(** [String.prototype.toLowerCase] on one code unit.  The ASCII and
    Latin-1 capitals are mapped to their small letters; the case tables
    of the code units above U+00FF are not part of the model, those code
    units are kept as they are. *)
Definition lowerUnit (c : N) : N :=
  (if (65 <=? c) && (c <=? 90) then c + 32
   else if (192 <=? c) && (c <=? 222) && negb (c =? 215) then c + 32
   else c)%N.

Definition toLowerCase (s : jsstring) : jsstring := map lowerUnit s.

Definition isLetter (c : N) : bool :=
  ((65 <=? c) && (c <=? 90) || (97 <=? c) && (c <=? 122))%N.

Definition isDigit (c : N) : bool := ((48 <=? c) && (c <=? 57))%N.

(** An integral JavaScript number as a binary64 value (exact below 2^53). *)
Definition num (z : Z) : float :=
  if z <? 0 then PrimFloat.opp (PrimFloat.of_uint63 (Uint63.of_Z (- z)))
  else PrimFloat.of_uint63 (Uint63.of_Z z).

(** [Math.round]: the integer closest to [x], a tie going to the larger
    one, computed exactly from the mantissa and the exponent of [x]: for
    [x = n / 2^k] it is the floor of [(2 n + 2^k) / 2^(k+1)].
    [Math.round] returns a NaN or an infinity unchanged; these are no
    integers and are read as 0 here. *)
Definition Math_round (x : float) : Z :=
  match Prim2SF x with
  | S754_finite s m e =>
      let n := if s then Z.neg m else Z.pos m in
      match e with
      | Z.neg k => Z.shiftr (2 * n + Z.shiftl 1 (Z.pos k)) (Z.pos k + 1)
      | _ => Z.shiftl n e
      end
  | _ => 0
  end.

(** Whether a binary64 value is a number (no NaN, no infinity). *)
Definition isFinite (x : float) : bool :=
  match Prim2SF x with
  | S754_zero _ | S754_finite _ _ _ => true
  | _ => false
  end.

(** [array.join(sep)] on strings. *)
Fixpoint join (sep : jsstring) (l : list jsstring) : jsstring :=
  match l with
  | [] => []
  | [s] => s
  | s :: l' => s ++ sep ++ join sep l'
  end.

Local Set Warnings "-register-all".

(** The values a request or a frame carries: what [JSON.parse] returns, and
    [undefined] for what an object does not have.  Numbers are the
    integral ones. *)
Inductive value :=
  | VUndefined
  | VNull
  | VBool (b : bool)
  | VNumber (n : Z)
  | VString (s : jsstring)
  | VArray (items : list value)
  | VObject (fields : list (jsstring * value)).

(** The value of an own property of an object. *)
Fixpoint lookupField (k : jsstring) (fields : list (jsstring * value))
    : option value :=
  match fields with
  | [] => None
  | (k', v) :: fields' =>
      if bool_decide (k' = k) then Some v else lookupField k fields'
  end.

(** [v.k] where [v] is neither [null] nor [undefined]; the properties
    of the prototypes of arrays and of primitive values are not part of
    the model. *)
Definition get (v : value) (k : jsstring) : value :=
  match v with
  | VObject fields => default VUndefined (lookupField k fields)
  | _ => VUndefined
  end.

(** [v.k] for a property the source names. *)
Definition prop (v : value) (k : string) : value := get v (lit k).

(** [v?.k] *)
Definition getOptional (v : value) (k : jsstring) : value :=
  match v with
  | VUndefined | VNull => VUndefined
  | _ => get v k
  end.

Definition truthy (v : value) : bool :=
  match v with
  | VUndefined | VNull => false
  | VBool b => b
  | VNumber n => negb (n =? 0)
  | VString s => match s with [] => false | _ => true end
  | VArray _ | VObject _ => true
  end.

(** [v === "name"] *)
Definition isString (v : value) (name : jsstring) : bool :=
  match v with
  | VString s => bool_decide (s = name)
  | _ => false
  end.

(** [a || b] *)
Definition orElse (a b : value) : value := if truthy a then a else b.

(** [{ ...fields, k: v }]: a property that is there keeps its place. *)
Fixpoint setField (k : jsstring) (v : value)
    (fields : list (jsstring * value)) : list (jsstring * value) :=
  match fields with
  | [] => [(k, v)]
  | (k', v') :: fields' =>
      if bool_decide (k' = k) then (k, v) :: fields'
      else (k', v') :: setField k v fields'
  end.

Definition setFields (new : list (jsstring * value))
    (fields : list (jsstring * value)) : list (jsstring * value) :=
  fold_left (fun acc kv => setField (fst kv) (snd kv) acc) new fields.

(** [{ ...a, ...b }] for an object [a]; of [b] the own properties of an
    object are spread. *)
Definition spread (a : list (jsstring * value)) (b : value)
    : list (jsstring * value) :=
  match b with
  | VObject fields => setFields fields a
  | _ => a
  end.

(** [String(v)] as [+=] on a string applies it. *)
Definition showPrimitive (v : value) : jsstring :=
  match v with
  | VUndefined => lit "undefined"
  | VNull => lit "null"
  | VBool true => lit "true"
  | VBool false => lit "false"
  | VNumber n => decimal n
  | VString s => s
  | VArray _ => []
  | VObject _ => lit "[object Object]"
  end.

Fixpoint show (v : value) : jsstring :=
  match v with
  | VArray items =>
      join (lit ",")
        (map (fun i => match i with
                       | VUndefined | VNull => []
                       | _ => show i
                       end) items)
  | _ => showPrimitive v
  end.

End JS.

Import JS.

(** ** Scoring engine ([code-analyzer.ts]) *)

Module Scoring.

Inductive ReadmeQuality := missing | minimal | basic | good | excellent.

Record CodePatterns := {
  hasErrorHandling : bool;
  hasLogging : bool;
  hasValidation : bool
}.

Record CodeMetrics := {
  hasTests : bool;
  testFileCount : Z;
  hasCI : bool;
  ciProvider : option jsstring;
  hasLinting : bool;
  hasTypeScript : bool;
  strictMode : bool;
  hasPrettier : bool;
  hasSecurityConfig : bool;
  hasEnvExample : bool;
  exposedSecrets : list jsstring;
  hasChangelog : bool;
  hasContributing : bool;
  hasLicense : bool;
  readmeQuality : ReadmeQuality;
  dependencyCount : Z;
  devDependencyCount : Z;
  vulnerablePatterns : list jsstring;
  largeFiles : list jsstring;
  codePatterns : CodePatterns;
  missingEssentials : list jsstring;
  existingAutomations : list jsstring
}.

(** One entry of [breakdown]. *)
Record Category := { score : Z; factors : list jsstring }.

Record Breakdown := {
  bd_codeQuality : Category;
  bd_documentation : Category;
  bd_security : Category;
  bd_maintainability : Category;
  bd_testCoverage : Category;
  bd_dependencies : Category
}.

Record Scores := {
  overall : Z;
  codeQuality : Z;
  documentation : Z;
  security : Z;
  maintainability : Z;
  testCoverage : Z;
  dependencies : Z;
  breakdown : Breakdown
}.

(** [if (c) { x += d; f.push(msg); }] on the running pair of a score and
    its factor list. *)
Definition adjust (c : bool) (d : Z) (msg : jsstring)
    (acc : Z * list jsstring) : Z * list jsstring :=
  if c then (fst acc + d, snd acc ++ [msg]) else acc.

(** [array.length > 0]. *)
Definition nonEmpty {A} (l : list A) : bool :=
  match l with [] => false | _ :: _ => true end.

Definition rmScore (q : ReadmeQuality) : Z :=
  match q with
  | missing => 0 | minimal => 10 | basic => 25 | good => 40
  | excellent => 50
  end.

Definition readmeName (q : ReadmeQuality) : jsstring :=
  match q with
  | missing => lit "missing" | minimal => lit "minimal"
  | basic => lit "basic" | good => lit "good"
  | excellent => lit "excellent"
  end.

(** [`${metrics.ciProvider}`] of a [string | null]. *)
Definition showProvider (p : option jsstring) : jsstring :=
  match p with Some s => s | None => lit "null" end.

Definition codeQualityOf (m : CodeMetrics) : Category :=
  let acc := (50, []) in
  let acc := adjust (hasTypeScript m) 20 (lit "+20: TypeScript") acc in
  let acc := adjust (strictMode m) 10 (lit "+10: Strict") acc in
  let acc := adjust (hasLinting m) 10 (lit "+10: Linting") acc in
  let acc := adjust (hasPrettier m) 5 (lit "+5: Prettier") acc in
  let acc := adjust (hasErrorHandling (codePatterns m)) 5
               (lit "+5: Error handling") acc in
  {| score := Z.min 100 (fst acc); factors := snd acc |}.

Definition documentationOf (m : CodeMetrics) : Category :=
  let acc := (30 + rmScore (readmeQuality m),
              [lit "README: " ++ readmeName (readmeQuality m)]) in
  let acc := adjust (hasChangelog m) 10 (lit "+10: CHANGELOG") acc in
  let acc := adjust (negb (hasLicense m)) (-15) (lit "-15: No LICENSE") acc in
  {| score := Z.max 0 (Z.min 100 (fst acc)); factors := snd acc |}.

Definition securityOf (m : CodeMetrics) : Category :=
  let acc := (70, []) in
  let acc := adjust (hasSecurityConfig m) 15 (lit "+15: Security config") acc in
  let acc := adjust (nonEmpty (exposedSecrets m)) (-30)
               (lit "-30: Secrets exposed") acc in
  let acc := adjust (nonEmpty (vulnerablePatterns m)) (-15)
               (lit "-15: Deprecated deps") acc in
  {| score := Z.max 0 (Z.min 100 (fst acc)); factors := snd acc |}.

Definition maintainabilityOf (m : CodeMetrics) : Category :=
  let acc := (50, []) in
  let acc := adjust (hasCI m) 25
               (lit "+25: " ++ showProvider (ciProvider m)) acc in
  let acc := adjust (hasTypeScript m) 15 (lit "+15: Types") acc in
  let acc := adjust (hasLinting m) 10 (lit "+10: Linting") acc in
  {| score := Z.min 100 (fst acc); factors := snd acc |}.

Definition testCoverageOf (m : CodeMetrics) : Category :=
  let acc := (20, []) in
  let acc := adjust (hasTests m) 50 (lit "+50: Tests exist") acc in
  let acc := adjust (hasCI m) 10 (lit "+10: CI") acc in
  {| score := Z.min 100 (fst acc); factors := snd acc |}.

Definition dependenciesOf (m : CodeMetrics) : Category :=
  let acc := (80, []) in
  let acc := adjust (nonEmpty (vulnerablePatterns m)) (-20)
               (lit "-20: Deprecated") acc in
  let acc := adjust (50 <? dependencyCount m) (-10) (lit "-10: Heavy") acc in
  {| score := Z.max 0 (fst acc); factors := snd acc |}.

(** The weighted sum, in binary64 arithmetic and in the order the source
    adds it up. *)
Definition weightedSum (cq doc sec maint test dep : Z) : float :=
  (num cq * 0.2 + num doc * 0.15 + num sec * 0.2 + num maint * 0.2
   + num test * 0.15 + num dep * 0.1)%float.

Definition calculateScores (metrics : CodeMetrics) : Scores :=
  let bd := {| bd_codeQuality := codeQualityOf metrics;
               bd_documentation := documentationOf metrics;
               bd_security := securityOf metrics;
               bd_maintainability := maintainabilityOf metrics;
               bd_testCoverage := testCoverageOf metrics;
               bd_dependencies := dependenciesOf metrics |} in
  {| overall :=
       Math_round
         (weightedSum (score (bd_codeQuality bd)) (score (bd_documentation bd))
            (score (bd_security bd)) (score (bd_maintainability bd))
            (score (bd_testCoverage bd)) (score (bd_dependencies bd)));
     codeQuality := score (bd_codeQuality bd);
     documentation := score (bd_documentation bd);
     security := score (bd_security bd);
     maintainability := score (bd_maintainability bd);
     testCoverage := score (bd_testCoverage bd);
     dependencies := score (bd_dependencies bd);
     breakdown := bd |}.

(** The weighted sum of the specification, over the rationals. *)
Definition exactWeightedSum (s : Scores) : Q :=
  (20 # 100) * inject_Z (codeQuality s)
  + (15 # 100) * inject_Z (documentation s)
  + (20 # 100) * inject_Z (security s)
  + (20 # 100) * inject_Z (maintainability s)
  + (15 # 100) * inject_Z (testCoverage s)
  + (10 # 100) * inject_Z (dependencies s).

(** Rounding to the nearest integer, a tie going up. *)
Definition roundHalfUp (q : Q) : Z := Qfloor (q + (1 # 2)).

Definition inScoreRange (z : Z) : Prop := 0 <= z <= 100.

(** The values each category can take, and the check that on a
    combination of them the binary64 computation of [overall] is finite,
    gives the exactly rounded rational sum, and stays in range. *)
Definition codeQualityValues : list Z :=
  [50; 55; 60; 65; 70; 75; 80; 85; 90; 95; 100].
Definition documentationValues : list Z :=
  [15; 25; 30; 35; 40; 50; 55; 65; 70; 75; 80; 90].
Definition securityValues : list Z := [25; 40; 55; 70; 85].
Definition maintainabilityValues : list Z :=
  [50; 60; 65; 75; 85; 90; 100].
Definition testCoverageValues : list Z := [20; 30; 70; 80].
Definition dependenciesValues : list Z := [50; 60; 70; 80].

Definition exactSum (cq doc sec maint test dep : Z) : Q :=
  (20 # 100) * inject_Z cq + (15 # 100) * inject_Z doc
  + (20 # 100) * inject_Z sec + (20 # 100) * inject_Z maint
  + (15 # 100) * inject_Z test + (10 # 100) * inject_Z dep.

(** [n / 100] rounded to the nearest integer, a tie going up. *)
Definition roundHundredths (n : Z) : Z := (2 * n + 100) / 200.

Definition agrees (cq doc sec maint test dep : Z) : bool :=
  let w := weightedSum cq doc sec maint test dep in
  let r := Math_round w in
  isFinite w
  && (r =? roundHundredths (20 * cq + 15 * doc + 20 * sec + 20 * maint
                            + 15 * test + 10 * dep))
  && (0 <=? r) && (r <=? 100).

(** A repository with nothing but TypeScript sources. *)
Definition typescriptOnly : CodeMetrics :=
  {| hasTests := false; testFileCount := 0; hasCI := false;
     ciProvider := None; hasLinting := false; hasTypeScript := true;
     strictMode := false; hasPrettier := false; hasSecurityConfig := false;
     hasEnvExample := false; exposedSecrets := []; hasChangelog := false;
     hasContributing := false; hasLicense := false;
     readmeQuality := missing; dependencyCount := 0;
     devDependencyCount := 0; vulnerablePatterns := []; largeFiles := [];
     codePatterns := {| hasErrorHandling := false; hasLogging := false;
                        hasValidation := false |};
     missingEssentials := [lit "README.md"; lit "LICENSE"];
     existingAutomations := [] |}.

(** The same repository with an ESLint configuration. *)
Definition typescriptLinted : CodeMetrics :=
  {| hasTests := false; testFileCount := 0; hasCI := false;
     ciProvider := None; hasLinting := true; hasTypeScript := true;
     strictMode := false; hasPrettier := false; hasSecurityConfig := false;
     hasEnvExample := false; exposedSecrets := []; hasChangelog := false;
     hasContributing := false; hasLicense := false;
     readmeQuality := missing; dependencyCount := 0;
     devDependencyCount := 0; vulnerablePatterns := []; largeFiles := [];
     codePatterns := {| hasErrorHandling := false; hasLogging := false;
                        hasValidation := false |};
     missingEssentials := [lit "README.md"; lit "LICENSE"];
     existingAutomations := [] |}.

End Scoring.

(** ** Rate limiter ([rate-limit.ts]) *)

Module RateLimit.

Record RateLimitRecord := { count : Z; resetTime : Z }.

Record RateLimitResult := { allowed : bool; remaining : Z }.

(** The state of the module: [rateLimitMap], and whether the sweep timer
    [cleanupInterval] has been armed.  [record.count++] updates the
    object the map holds, which is the map with that key rewritten. *)
Record Limiter := {
  rateLimitMap : gmap jsstring RateLimitRecord;
  cleanupInterval : bool
}.

Definition initial : Limiter :=
  {| rateLimitMap := ∅; cleanupInterval := false |}.

Definition ensureCleanupRunning (st : Limiter) : Limiter :=
  {| rateLimitMap := rateLimitMap st; cleanupInterval := true |}.

Definition setRecord (ip : jsstring) (r : RateLimitRecord) (st : Limiter)
    : Limiter :=
  {| rateLimitMap := <[ip := r]> (rateLimitMap st);
     cleanupInterval := cleanupInterval st |}.

Section WithConfig.

(** [RATE_LIMIT.WINDOW_MS] and [RATE_LIMIT.MAX_REQUESTS] of [./config]. *)
Variables WINDOW_MS MAX_REQUESTS : Z.

(** [checkRateLimit(ip)], with the reading [now] of [Date.now()]. *)
Definition checkRateLimit (now : Z) (ip : jsstring) (st : Limiter)
    : RateLimitResult * Limiter :=
  let st := ensureCleanupRunning st in
  let restart :=
    ({| allowed := true; remaining := MAX_REQUESTS - 1 |},
     setRecord ip {| count := 1; resetTime := now + WINDOW_MS |} st) in
  match rateLimitMap st !! ip with
  | None => restart
  | Some record =>
      if now >? resetTime record then restart
      else if count record >=? MAX_REQUESTS then
        ({| allowed := false; remaining := 0 |}, st)
      else
        let record' :=
          {| count := count record + 1; resetTime := resetTime record |} in
        ({| allowed := true; remaining := MAX_REQUESTS - count record' |},
         setRecord ip record' st)
  end.

(** [cleanupExpiredRecords()], with the reading [now] of [Date.now()]. *)
Definition cleanupExpiredRecords (now : Z) (st : Limiter) : Limiter :=
  {| rateLimitMap :=
       filter (λ kv : jsstring * RateLimitRecord, ¬ (resetTime kv.2 < now))
         (rateLimitMap st);
     cleanupInterval := cleanupInterval st |}.

(** The calls that reach the module: a request of a client, or a tick
    of the sweep timer. *)
Inductive Call :=
  | Check (now : Z) (ip : jsstring)
  | Sweep (now : Z).

Definition clock (c : Call) : Z :=
  match c with Check now _ => now | Sweep now => now end.

(** A sequence of calls: the results of the checks, each with its
    client, and the state it leaves. *)
Fixpoint run (calls : list Call) (st : Limiter)
    : list (jsstring * RateLimitResult) * Limiter :=
  match calls with
  | [] => ([], st)
  | Check now ip :: calls' =>
      let '(res, st') := checkRateLimit now ip st in
      let '(log, st'') := run calls' st' in
      ((ip, res) :: log, st'')
  | Sweep now :: calls' => run calls' (cleanupExpiredRecords now st)
  end.

(** The verdicts one client has received, in order. *)
Definition verdicts (ip : jsstring)
    (log : list (jsstring * RateLimitResult)) : list bool :=
  map (λ e, allowed e.2) (filter (λ e, e.1 = ip) log).

(** How many of the calls are checks of [ip]. *)
Fixpoint checksOf (ip : jsstring) (calls : list Call) : nat :=
  match calls with
  | [] => 0%nat
  | Check _ ip' :: calls' =>
      if decide (ip' = ip) then S (checksOf ip calls') else checksOf ip calls'
  | Sweep _ :: calls' => checksOf ip calls'
  end.

(** The states the module can be in. *)
Inductive reachable : Limiter → Prop :=
  | reach_initial : reachable initial
  | reach_check now ip st :
      reachable st → reachable (checkRateLimit now ip st).2
  | reach_sweep now st :
      reachable st → reachable (cleanupExpiredRecords now st).

(** No record of [ip] is in force at [now]. *)
Definition noLiveRecord (now : Z) (ip : jsstring) (st : Limiter) : Prop :=
  match rateLimitMap st !! ip with
  | None => True
  | Some r => resetTime r < now
  end.

Definition recordsInBounds (st : Limiter) : Prop :=
  map_Forall (λ _ r, 1 ≤ count r ≤ MAX_REQUESTS) (rateLimitMap st).

End WithConfig.

(** A client that has used its two requests of a one-second window. *)
Definition limiter_full : Limiter :=
  {| rateLimitMap :=
       {[ lit "10.0.0.1" := {| count := 2; resetTime := 1000 |} ]};
     cleanupInterval := true |}.

(** [getClientIP(request)] on the header list as [Headers] presents it:
    one value for each lower-cased name. *)
Fixpoint beforeComma (s : jsstring) : jsstring :=
  match s with
  | [] => []
  | c :: s' => if (c =? 44)%N then [] else c :: beforeComma s'
  end.

(** A header that is there and not empty. *)
Definition presentHeader (s : option jsstring) : option jsstring :=
  match s with Some (c :: s') => Some (c :: s') | _ => None end.

Definition getClientIP (headers : gmap jsstring jsstring) : jsstring :=
  match presentHeader (headers !! lit "cf-connecting-ip") with
  | Some cfIP => cfIP
  | None =>
  match presentHeader (headers !! lit "x-vercel-forwarded-for") with
  | Some vercelIP => trim (beforeComma vercelIP)
  | None =>
  match presentHeader (headers !! lit "x-forwarded-for") with
  | Some forwarded => trim (beforeComma forwarded)
  | None =>
  match presentHeader (headers !! lit "x-real-ip") with
  | Some realIP => realIP
  | None => lit "unknown"
  end end end end.

End RateLimit.

(** ** Diagram codec ([lib/mermaid.ts], the variant that sanitizes
    identifiers and labels) *)

Module Mermaid.

Definition nl : jsstring := [10%N].
Definition quote : jsstring := [34%N].

(** [s.replace(/c/g, to)] for a single code unit [c]. *)
Definition replaceAll (c : N) (to : jsstring) (s : jsstring) : jsstring :=
  flat_map (fun d => if (d =? c)%N then to else [d]) s.

(** [s.replace(/\s+/g, " ")]: each run of white space becomes one space. *)
Fixpoint collapseSpaces (s : jsstring) : jsstring :=
  match s with
  | [] => []
  | c :: s' =>
      if isWhiteSpace c then
        match s' with
        | d :: _ => if isWhiteSpace d then collapseSpaces s'
                    else 32%N :: collapseSpaces s'
        | [] => [32%N]
        end
      else c :: collapseSpaces s'
  end.

Definition sanitizeLabel (text : jsstring) : jsstring :=
  match text with
  | [] => lit "Unknown"
  | _ =>
    let t := replaceAll 40 (lit "[") text in
    let t := replaceAll 41 (lit "]") t in
    let t := replaceAll 91 (lit "[") t in
    let t := replaceAll 93 (lit "]") t in
    let t := replaceAll 34 (lit "'") t in
    let t := replaceAll 60 [8249%N] t in
    let t := replaceAll 62 [8250%N] t in
    let t := replaceAll 124 [166%N] t in
    let t := replaceAll 123 (lit "[") t in
    let t := replaceAll 125 (lit "]") t in
    let t := replaceAll 10 (lit " ") t in
    let t := replaceAll 13 [] t in
    let t := collapseSpaces t in
    slice0 40 (trim t)
  end.

(** The time values: [Date.now()] is an integral number of
    milliseconds at most 8.64e15 away from the epoch. *)
Definition isTimeValue (t : Z) : bool :=
  (-8640000000000000 <=? t) && (t <=? 8640000000000000).

(** What one evaluation of [Date.now()] and of [Math.random()] gives:
    a time value, and a number from 0 up to 1.  Of that number the
    code reads its text in base 36 only, so it is kept as the digits
    this text has after the point, none for the number 0. *)
Record Entropy := {
  dateNow : Z;
  randomDigits : list N;
  dateNow_timeValue : Is_true (isTimeValue dateNow);
  randomDigits_base36 : Is_true (forallb (fun d => d <? 36)%N randomDigits)
}.

(** The digit of a value below 36: [0] to [9], then [a] to [z]. *)
Definition digit36 (d : N) : N := (if d <? 10 then 48 + d else 87 + d)%N.

(** [Math.random().toString(36)] *)
Definition randomText (e : Entropy) : jsstring :=
  match randomDigits e with
  | [] => lit "0"
  | digits => lit "0." ++ map digit36 digits
  end.

(** [s.slice(from, to)] for [0 <= from <= to]. *)
Definition slice (from to : nat) (s : jsstring) : jsstring :=
  firstn (to - from) (skipn from s).

(** [Math.random().toString(36).slice(2, 6)] *)
Definition randomTail (e : Entropy) : jsstring := slice 2 6 (randomText e).

(** The readings still to come, in the order they will be taken. *)
Definition World := nat -> Entropy.

Definition draw (w : World) : Entropy * World :=
  (w 0%nat, fun n => w (S n)).

(** The class [[a-zA-Z0-9_-]]. *)
Definition isIdUnit (c : N) : bool :=
  isLetter c || isDigit c || (c =? 95)%N || (c =? 45)%N.

(** [.replace(/[^a-zA-Z0-9_-]/g, "_")] *)
Definition cleanUnits (s : jsstring) : jsstring :=
  map (fun c => if isIdUnit c then c else 95%N) s.

(** [.replace(/^[^a-zA-Z]/, "n")] *)
Definition letterFirst (s : jsstring) : jsstring :=
  match s with
  | c :: s' => if isLetter c then s else 110%N :: s'
  | [] => []
  end.

Definition sanitizeId (id : jsstring) (w : World) : jsstring * World :=
  match id with
  | [] =>
      let '(e, w') := draw w in
      (lit "node_" ++ decimal (dateNow e) ++ lit "_" ++ randomTail e, w')
  | _ => (slice0 30 (letterFirst (cleanUnits id)), w)
  end.

(** The types of [./types], by the values the code tells apart. *)
Inductive ComponentType :=
  frontend | backend | database | service | external | middleware.

Inductive NodeType := source | process | store | output.

Record ArchitectureComponent := {
  comp_id : jsstring;
  comp_name : jsstring;
  comp_type : ComponentType;
  technologies : option (list jsstring);
  connections : option (list jsstring)
}.

Record DataFlowNode := {
  node_id : jsstring;
  node_name : jsstring;
  node_type : NodeType
}.

Record DataFlowEdge := {
  edge_from : jsstring;
  edge_to : jsstring;
  label : option jsstring;
  dataType : option jsstring
}.

Inductive DiagramType := flowchart | sequenceDiagram | classDiagram | graph.

Record MermaidDiagram := {
  type : DiagramType;
  title : jsstring;
  code : jsstring
}.

Record DiagramsData := {
  architecture : option MermaidDiagram;
  dataFlow : option MermaidDiagram;
  components : option MermaidDiagram
}.

Record Shape := { open : jsstring; close : jsstring }.

Definition componentTypeName (t : ComponentType) : jsstring :=
  match t with
  | frontend => lit "frontend" | backend => lit "backend"
  | database => lit "database" | service => lit "service"
  | external => lit "external" | middleware => lit "middleware"
  end.

Definition nodeTypeName (t : NodeType) : jsstring :=
  match t with
  | source => lit "source" | process => lit "process"
  | store => lit "store" | output => lit "output"
  end.

Definition getNodeShape (t : ComponentType) : Shape :=
  match t with
  | frontend => {| open := lit "["; close := lit "]" |}
  | backend => {| open := lit "[["; close := lit "]]" |}
  | database => {| open := lit "[("; close := lit ")]" |}
  | service => {| open := lit "{{"; close := lit "}}" |}
  | external => {| open := lit "[/"; close := lit "/]" |}
  | middleware => {| open := lit "["; close := lit "]" |}
  end.

Definition nodeStyles (t : NodeType) : Shape :=
  match t with
  | source => {| open := lit "(["; close := lit "])" |}
  | process => {| open := lit "["; close := lit "]" |}
  | store => {| open := lit "[("; close := lit ")]" |}
  | output => {| open := lit "[["; close := lit "]]" |}
  end.

(** [typeGroups]: the identifiers of each type, the types in the order
    of their first use. *)
Section Groups.
Context {T : Type} (eqb : T -> T -> bool).

Fixpoint pushGroup (t : T) (safeId : jsstring)
    (groups : list (T * list jsstring)) : list (T * list jsstring) :=
  match groups with
  | [] => [(t, [safeId])]
  | (t', ids) :: groups' =>
      if eqb t t' then (t', ids ++ [safeId]) :: groups'
      else (t', ids) :: pushGroup t safeId groups'
  end.

Definition classLines (name : T -> jsstring)
    (groups : list (T * list jsstring)) : list jsstring :=
  flat_map
    (fun g : T * list jsstring =>
       match snd g with
       | [] => []
       | ids => [lit "    class " ++ join (lit ",") ids ++ lit " "
                 ++ name (fst g)]
       end)
    groups.
End Groups.

Definition componentTypeEqb (a b : ComponentType) : bool :=
  match a, b with
  | frontend, frontend | backend, backend | database, database
  | service, service | external, external | middleware, middleware => true
  | _, _ => false
  end.

Definition nodeTypeEqb (a b : NodeType) : bool :=
  match a, b with
  | source, source | process, process | store, store | output, output => true
  | _, _ => false
  end.

(** A truthy string. *)
Definition nonEmptyString (s : jsstring) : bool :=
  match s with [] => false | _ => true end.

(** The node loop of [generateArchitectureDiagram]. *)
Fixpoint componentNodes (cs : list ArchitectureComponent)
    (lines : list jsstring) (groups : list (ComponentType * list jsstring))
    (w : World)
    : list jsstring * list (ComponentType * list jsstring) * World :=
  match cs with
  | [] => (lines, groups, w)
  | component :: cs' =>
      let '(safeId, w) := sanitizeId (comp_id component) w in
      let nodeShape := getNodeShape (comp_type component) in
      let lbl := sanitizeLabel (comp_name component) in
      let tech :=
        option_map
          (fun ts => join (lit ", ") (map sanitizeLabel (firstn 2 ts)))
          (technologies component) in
      let fullLabel :=
        match tech with
        | Some (c :: t) =>
            lbl ++ lit "<br/><small>" ++ (c :: t) ++ lit "</small>"
        | _ => lbl
        end in
      componentNodes cs'
        (lines ++ [lit "    " ++ safeId ++ open nodeShape ++ quote
                   ++ fullLabel ++ quote ++ close nodeShape])
        (pushGroup componentTypeEqb (comp_type component) safeId groups)
        w
  end.

(** [new Map(components.map((c) => [c.id, sanitizeId(c.id)]))] *)
Fixpoint componentIds (cs : list ArchitectureComponent)
    (idMap : gmap jsstring jsstring) (w : World)
    : gmap jsstring jsstring * World :=
  match cs with
  | [] => (idMap, w)
  | c :: cs' =>
      let '(safeId, w) := sanitizeId (comp_id c) w in
      componentIds cs' (<[comp_id c := safeId]> idMap) w
  end.

(** The inner loop over [component.connections || []]. *)
Fixpoint connectTargets (idMap : gmap jsstring jsstring) (fromId : jsstring)
    (targets : list jsstring) (lines : list jsstring)
    (added : gset jsstring) : list jsstring * gset jsstring :=
  match targets with
  | [] => (lines, added)
  | targetId :: targets' =>
      match idMap !! targetId with
      | Some (c :: t) =>
          let toId := c :: t in
          let connectionKey := fromId ++ lit "-" ++ toId in
          let reverseKey := toId ++ lit "-" ++ fromId in
          if negb (bool_decide (connectionKey ∈ added))
             && negb (bool_decide (reverseKey ∈ added))
          then connectTargets idMap fromId targets'
                 (lines ++ [lit "    " ++ fromId ++ lit " --> " ++ toId])
                 ({[connectionKey]} ∪ added)
          else connectTargets idMap fromId targets' lines added
      | _ => connectTargets idMap fromId targets' lines added
      end
  end.

Fixpoint componentConnections (idMap : gmap jsstring jsstring)
    (cs : list ArchitectureComponent) (lines : list jsstring)
    (added : gset jsstring) : list jsstring :=
  match cs with
  | [] => lines
  | component :: cs' =>
      match idMap !! comp_id component with
      | Some (c :: t) =>
          let '(lines, added) :=
            connectTargets idMap (c :: t)
              (default [] (connections component)) lines added in
          componentConnections idMap cs' lines added
      | _ => componentConnections idMap cs' lines added
      end
  end.

Definition architecturePlaceholder : MermaidDiagram :=
  {| type := flowchart;
     title := lit "System Architecture";
     code := lit "flowchart TD" ++ nl
             ++ lit "    empty[No architecture data available]" |}.

Definition architectureStyles : list jsstring :=
  [ [];
    lit "    classDef frontend fill:#3b82f6,stroke:#1d4ed8,color:#fff";
    lit "    classDef backend fill:#10b981,stroke:#059669,color:#fff";
    lit "    classDef database fill:#8b5cf6,stroke:#6d28d9,color:#fff";
    lit "    classDef service fill:#f59e0b,stroke:#d97706,color:#fff";
    lit "    classDef external fill:#6b7280,stroke:#4b5563,color:#fff";
    lit "    classDef middleware fill:#ec4899,stroke:#db2777,color:#fff" ].

Definition generateArchitectureDiagram
    (cs : option (list ArchitectureComponent)) (w : World)
    : MermaidDiagram * World :=
  match cs with
  | None | Some [] => (architecturePlaceholder, w)
  | Some cs =>
      let '(lines, typeGroups, w) :=
        componentNodes cs [lit "flowchart TD"] [] w in
      let '(idMap, w) := componentIds cs ∅ w in
      let lines := componentConnections idMap cs lines ∅ in
      let lines := lines ++ architectureStyles in
      let lines := lines ++ classLines componentTypeName typeGroups in
      ({| type := flowchart;
          title := lit "System Architecture";
          code := join nl lines |}, w)
  end.

Record DataFlow := {
  nodes : option (list DataFlowNode);
  edges : option (list DataFlowEdge)
}.

(** The node loop of [generateDataFlowDiagram]. *)
Fixpoint flowNodes (ns : list DataFlowNode) (lines : list jsstring)
    (groups : list (NodeType * list jsstring))
    (idMap : gmap jsstring jsstring) (w : World)
    : list jsstring * list (NodeType * list jsstring)
      * gmap jsstring jsstring * World :=
  match ns with
  | [] => (lines, groups, idMap, w)
  | node :: ns' =>
      let '(safeId, w) := sanitizeId (node_id node) w in
      let style := nodeStyles (node_type node) in
      let lbl := sanitizeLabel (node_name node) in
      flowNodes ns'
        (lines ++ [lit "    " ++ safeId ++ open style ++ quote ++ lbl
                   ++ quote ++ close style])
        (pushGroup nodeTypeEqb (node_type node) safeId groups)
        (<[node_id node := safeId]> idMap) w
  end.

(** The two ends of an edge, when both are known and truthy. *)
Definition edgeEnds (idMap : gmap jsstring jsstring) (edge : DataFlowEdge)
    : option (jsstring * jsstring) :=
  match idMap !! edge_from edge, idMap !! edge_to edge with
  | Some (c :: f), Some (d :: t) => Some (c :: f, d :: t)
  | _, _ => None
  end.

Fixpoint flowEdges (idMap : gmap jsstring jsstring)
    (es : list DataFlowEdge) (lines : list jsstring) : list jsstring :=
  match es with
  | [] => lines
  | edge :: es' =>
      match edgeEnds idMap edge with
      | None => flowEdges idMap es' lines
      | Some (fromId, toId) =>
          match label edge with
          | Some (c :: l) =>
              let safeLabel := sanitizeLabel (c :: l) in
              flowEdges idMap es'
                (lines ++ [lit "    " ++ fromId ++ lit " -->|" ++ quote
                           ++ safeLabel ++ quote ++ lit "| " ++ toId])
          | _ =>
              flowEdges idMap es'
                (lines ++ [lit "    " ++ fromId ++ lit " --> " ++ toId])
          end
      end
  end.

Definition dataFlowPlaceholder : MermaidDiagram :=
  {| type := flowchart;
     title := lit "Data Flow";
     code := lit "flowchart LR" ++ nl
             ++ lit "    empty[No data flow available]" |}.

Definition dataFlowStyles : list jsstring :=
  [ [];
    lit "    classDef source fill:#22c55e,stroke:#16a34a,color:#fff";
    lit "    classDef process fill:#3b82f6,stroke:#2563eb,color:#fff";
    lit "    classDef store fill:#8b5cf6,stroke:#7c3aed,color:#fff";
    lit "    classDef output fill:#f97316,stroke:#ea580c,color:#fff" ].

Definition generateDataFlowDiagram (ns : option (list DataFlowNode))
    (es : list DataFlowEdge) (w : World) : MermaidDiagram * World :=
  match ns with
  | None | Some [] => (dataFlowPlaceholder, w)
  | Some ns =>
      let '(lines, typeGroups, idMap, w) :=
        flowNodes ns [lit "flowchart LR"] [] ∅ w in
      let lines := flowEdges idMap es lines in
      let lines := lines ++ dataFlowStyles in
      let lines := lines ++ classLines nodeTypeName typeGroups in
      ({| type := flowchart;
          title := lit "Data Flow";
          code := join nl lines |}, w)
  end.

(** The participant loop of [generateSequenceDiagram]. *)
Fixpoint participants (ns : list DataFlowNode) (lines : list jsstring)
    (idMap : gmap jsstring jsstring) (w : World)
    : list jsstring * gmap jsstring jsstring * World :=
  match ns with
  | [] => (lines, idMap, w)
  | node :: ns' =>
      let '(safeId, w) := sanitizeId (node_id node) w in
      let safeLabel := sanitizeLabel (node_name node) in
      participants ns'
        (lines ++ [lit "    participant " ++ safeId ++ lit " as "
                   ++ safeLabel])
        (<[node_id node := safeId]> idMap) w
  end.

(** [edge.label || edge.dataType || "data"] *)
Definition interactionLabel (edge : DataFlowEdge) : jsstring :=
  match label edge with
  | Some (c :: l) => c :: l
  | _ =>
      match dataType edge with
      | Some (c :: l) => c :: l
      | _ => lit "data"
      end
  end.

Fixpoint interactions (idMap : gmap jsstring jsstring)
    (es : list DataFlowEdge) (lines : list jsstring) : list jsstring :=
  match es with
  | [] => lines
  | edge :: es' =>
      match edgeEnds idMap edge with
      | None => interactions idMap es' lines
      | Some (fromId, toId) =>
          interactions idMap es'
            (lines ++ [lit "    " ++ fromId ++ lit "->>+" ++ toId ++ lit ": "
                       ++ sanitizeLabel (interactionLabel edge)])
      end
  end.

Definition sequencePlaceholder : MermaidDiagram :=
  {| type := sequenceDiagram;
     title := lit "Sequence Diagram";
     code := lit "sequenceDiagram" ++ nl
             ++ lit "    Note over System: No sequence data available" |}.

Definition generateSequenceDiagram (ns : option (list DataFlowNode))
    (es : option (list DataFlowEdge)) (w : World) : MermaidDiagram * World :=
  match ns, es with
  | Some (n :: ns'), Some (e :: es') =>
      let '(lines, idMap, w) :=
        participants (n :: ns') [lit "sequenceDiagram"] ∅ w in
      let lines := lines ++ [[]] in
      let lines := interactions idMap (e :: es') lines in
      ({| type := sequenceDiagram;
          title := lit "Sequence Diagram";
          code := join nl lines |}, w)
  | _, _ => (sequencePlaceholder, w)
  end.

Definition validStarts : list jsstring :=
  [ lit "flowchart"; lit "graph"; lit "sequenceDiagram"; lit "classDiagram";
    lit "stateDiagram"; lit "erDiagram"; lit "gantt"; lit "pie";
    lit "mindmap" ].

(** [validateMermaidSyntax(code)]; [None] is a [null] or [undefined]
    argument. *)
Definition validateMermaidSyntax (code : option jsstring) : bool :=
  match code with
  | None | Some [] => false
  | Some code =>
      let trimmed := toLowerCase (trim code) in
      existsb (fun start => startsWith trimmed start) validStarts
  end.

(** The validation as the specification words it: the trimmed text
    begins with a recognized keyword, letter case apart. *)
Definition beginsWithKeyword (code : option jsstring) : bool :=
  match code with
  | None => false
  | Some code =>
      existsb
        (fun start => startsWith (toLowerCase (trim code)) (toLowerCase start))
        validStarts
  end.

(** An AI diagram that is present and passes the validation. *)
Definition usable (d : option MermaidDiagram) : option MermaidDiagram :=
  match d with
  | Some d => if validateMermaidSyntax (Some (code d)) then Some d else None
  | None => None
  end.

(** The three blocks of [processDiagrams], one for each slot of
    [result]; a slot that no block assigns stays absent. *)
Definition architectureSlot (aiDiagrams : option DiagramsData)
    (arch : option (list ArchitectureComponent)) (w : World)
    : option MermaidDiagram * World :=
  match usable (aiDiagrams ≫= architecture) with
  | Some d => (Some d, w)
  | None =>
      match arch with
      | Some (c :: cs) =>
          let '(d, w) := generateArchitectureDiagram (Some (c :: cs)) w in
          (Some d, w)
      | _ => (None, w)
      end
  end.

Definition dataFlowSlot (aiDiagrams : option DiagramsData)
    (flow : option DataFlow) (w : World) : option MermaidDiagram * World :=
  match usable (aiDiagrams ≫= dataFlow) with
  | Some d => (Some d, w)
  | None =>
      match flow ≫= nodes with
      | Some (n :: ns) =>
          let '(d, w) :=
            generateDataFlowDiagram (Some (n :: ns))
              (default [] (flow ≫= edges)) w in
          (Some d, w)
      | _ => (None, w)
      end
  end.

Definition componentsSlot (aiDiagrams : option DiagramsData)
    (flow : option DataFlow) (w : World) : option MermaidDiagram * World :=
  match usable (aiDiagrams ≫= components) with
  | Some d => (Some d, w)
  | None =>
      match flow ≫= nodes, flow ≫= edges with
      | Some (n :: ns), Some (e :: es) =>
          let '(d, w) :=
            generateSequenceDiagram (Some (n :: ns)) (Some (e :: es)) w in
          (Some d, w)
      | _, _ => (None, w)
      end
  end.

Definition processDiagrams (aiDiagrams : option DiagramsData)
    (arch : option (list ArchitectureComponent))
    (flow : option DataFlow) (w : World) : DiagramsData * World :=
  let '(architecture', w) := architectureSlot aiDiagrams arch w in
  let '(dataFlow', w) := dataFlowSlot aiDiagrams flow w in
  let '(components', w) := componentsSlot aiDiagrams flow w in
  ({| architecture := architecture';
      dataFlow := dataFlow';
      components := components' |}, w).

(** A world whose readings are all the same. *)
Definition steady (e : Entropy) : World := fun _ => e.

(** Two readings: 0.k3f9v2m8qd1 and 0.x0ab7c in base 36. *)
Definition noon : Entropy :=
  {| dateNow := 1700000000000;
     randomDigits := [20; 3; 15; 9; 31; 2; 22; 8; 26; 13; 1]%N;
     dateNow_timeValue := I; randomDigits_base36 := I |}.

Definition later : Entropy :=
  {| dateNow := 1700000000001;
     randomDigits := [33; 0; 10; 11; 7; 12]%N;
     dateNow_timeValue := I; randomDigits_base36 := I |}.

(** The readings at the ends of the range: the number 0, and the last
    time value. *)
Definition lastDay : Entropy :=
  {| dateNow := 8640000000000000; randomDigits := [];
     dateNow_timeValue := I; randomDigits_base36 := I |}.

(** The units [0-9a-z]. *)
Definition isBase36 (c : N) : bool :=
  isDigit c || ((97 <=? c) && (c <=? 122))%N.

Definition startsWithLetter (s : jsstring) : Prop :=
  exists c t, s = c :: t /\ isLetter c = true.

Definition idUnitsOnly (s : jsstring) : Prop :=
  Forall (fun c => isIdUnit c = true) s.

(** What [sanitizeId] returns on a string that is not empty. *)
Definition cleaned (id : jsstring) : jsstring :=
  slice0 30 (letterFirst (cleanUnits id)).

(** The keywords that a lower-cased text can begin with. *)
Definition lowerStarts : list jsstring :=
  [ lit "flowchart"; lit "graph"; lit "gantt"; lit "pie"; lit "mindmap" ].

(** The loops of the generators add lines and keep the ones they got. *)
Definition extends (lines lines' : list jsstring) : Prop :=
  exists more, lines' = lines ++ more.

(** Structured data in which no identifier is the empty string. *)
Definition namedComponents (cs : option (list ArchitectureComponent)) : Prop :=
  match cs with
  | Some cs => Forall (fun c => comp_id c <> []) cs
  | None => True
  end.

Definition namedNodes (ns : option (list DataFlowNode)) : Prop :=
  match ns with
  | Some ns => Forall (fun n => node_id n <> []) ns
  | None => True
  end.

(** A front end that calls an API, as structured data. *)
Definition twoComponents : list ArchitectureComponent :=
  [ {| comp_id := lit "web"; comp_name := lit "Web (Next.js)";
       comp_type := frontend; technologies := Some [lit "React"];
       connections := Some [lit "api"] |};
    {| comp_id := lit "api"; comp_name := lit "API";
       comp_type := backend; technologies := None;
       connections := None |} ].

(** A component that came without an identifier. *)
Definition unnamedComponent : list ArchitectureComponent :=
  [ {| comp_id := []; comp_name := lit "Worker";
       comp_type := service; technologies := None;
       connections := None |} ].

(** A browser that calls an API, as the nodes of a flow. *)
Definition browserAndApi : list DataFlowNode :=
  [ {| node_id := lit "browser"; node_name := lit "Browser";
       node_type := source |};
    {| node_id := lit "api"; node_name := lit "API";
       node_type := process |} ].

(** Diagrams of the generative backend: one that passes
    [validateMermaidSyntax], one that does not, and none for the third
    slot. *)
Definition oneGoodDiagram : DiagramsData :=
  {| architecture := Some architecturePlaceholder;
     dataFlow := Some {| type := flowchart; title := lit "Data Flow";
                         code := lit "not a diagram" |};
     components := None |}.

End Mermaid.

(** ** Stream consumer (the frame loop of [analyze] in
    [hooks/use-analysis.ts]) *)

Module Consumer.

(** [text.match(/\{[\s\S]*\}/)]: from the first opening brace to the
    last closing brace after it. *)
Fixpoint fromFirst (c : N) (s : jsstring) : option jsstring :=
  match s with
  | [] => None
  | d :: s' => if (d =? c)%N then Some s else fromFirst c s'
  end.

Definition matchBraces (text : jsstring) : option jsstring :=
  match fromFirst 123 text with
  | None => None
  | Some opened =>
      match fromFirst 125 (rev opened) with
      | None => None
      | Some closed => Some (rev closed)
      end
  end.

(** What the loop does to its collaborators, the analysis context and
    [analysisStorage], neither of which is among the sources: the calls
    it makes, in order.  [StorageSet fullName result branch] is
    [analysisStorage.set(fullName, result, branch)], which files the
    result under the key of the repository and the branch.  Of a status
    its stage and its step are kept, its progress is left out. *)
Inductive Effect :=
  | SetCurrentBranch (branch : value)
  | UpdateResult (result : value)
  | StorageSet (fullName result branch : value)
  | SetStatus (stage currentStep : jsstring)
  | ConsoleError (message : jsstring).

(** The variables of the loop. *)
Record Loop := {
  currentResult : list (jsstring * value);
  aiContent : jsstring
}.

Definition start : Loop := {| currentResult := []; aiContent := [] |}.

(** [if (currentResult.metadata?.fullName) analysisStorage.set(...)] *)
Definition saveToCache (current : list (jsstring * value)) (result : value)
    : list Effect :=
  let fullName :=
    getOptional (get (VObject current) (lit "metadata")) (lit "fullName") in
  if truthy fullName then
    [StorageSet fullName result (get (VObject current) (lit "branch"))]
  else [].

(** [analysisData.k || d] *)
Definition orDefault (analysisData : value) (k : string) (d : value)
    : jsstring * value :=
  (lit k, orElse (prop analysisData k) d).

Definition finalResult (current : list (jsstring * value))
    (analysisData : value) : value :=
  VObject
    (setFields
       [ orDefault analysisData "summary" (VString []);
         orDefault analysisData "insights" (VArray []);
         (lit "scores", prop analysisData "scores");
         orDefault analysisData "refactors" (VArray []);
         orDefault analysisData "automations" (VArray []);
         orDefault analysisData "architecture" (VArray []);
         orDefault analysisData "dataFlow"
           (VObject [(lit "nodes", VArray []); (lit "edges", VArray [])]);
         orDefault analysisData "techStack" (VArray []);
         orDefault analysisData "whatItDoes" (VString []);
         orDefault analysisData "targetAudience" (VString []);
         orDefault analysisData "howToRun" (VArray []);
         orDefault analysisData "keyFolders" (VArray []);
         orDefault analysisData "diagrams" VUndefined ]
       (spread current analysisData)).

Definition fallbackResult (current : list (jsstring * value)) : value :=
  VObject
    (setFields
       [ (lit "summary",
          VString (lit "Analysis completed with parsing issues."));
         (lit "insights", VArray []);
         (lit "refactors", VArray []);
         (lit "automations", VArray []);
         (lit "architecture", VArray []);
         (lit "dataFlow",
          VObject [(lit "nodes", VArray []); (lit "edges", VArray [])]) ]
       current).

(** The status every [done] frame ends with. *)
Definition completed : Effect :=
  SetStatus (lit "complete") (lit "Analysis complete!").

Section WithParser.

(** [JSON.parse]; [None] when it throws. *)
Variable JSON_parse : jsstring -> option value.

(** The branch for a [done] frame.  The [catch] of its [try] takes what
    [JSON.parse] throws, and the [TypeError] of reading a property of
    [null]. *)
Definition onDone (st : Loop) : Loop * list Effect :=
  let completed := [completed] in
  match matchBraces (aiContent st) with
  | None => (st, completed)
  | Some text =>
      let caught :=
        let fallback := fallbackResult (currentResult st) in
        (st, [ConsoleError (lit "Parse error:"); UpdateResult fallback]
             ++ saveToCache (currentResult st) fallback ++ completed) in
      match JSON_parse text with
      | None | Some VUndefined | Some VNull => caught
      | Some analysisData =>
          let final := finalResult (currentResult st) analysisData in
          (st, [UpdateResult final]
               ++ saveToCache (currentResult st) final ++ completed)
      end
  end.

(** The body of the [try] for one parsed frame; [None] when it throws,
    which the [catch] around it turns into a message on the console. *)
Definition onFrame (data : value) (st : Loop)
    : option (Loop * list Effect) :=
  match data with
  | VUndefined | VNull => None
  | _ =>
    let type := get data (lit "type") in
    if isString type (lit "metadata") then
      match get data (lit "data") with
      | VUndefined | VNull => None
      | payload =>
          let analyzedBranch := get payload (lit "branch") in
          let current :=
            [ (lit "metadata", get payload (lit "metadata"));
              (lit "fileTree", get payload (lit "fileTree"));
              (lit "fileStats", get payload (lit "fileStats"));
              (lit "branch", analyzedBranch);
              (lit "availableBranches",
               get payload (lit "availableBranches")) ]
          in
          Some ({| currentResult := current; aiContent := aiContent st |},
                [ SetCurrentBranch analyzedBranch;
                  UpdateResult (VObject current);
                  SetStatus (lit "analyzing")
                    (lit "Analyzing " ++ show analyzedBranch
                     ++ lit " branch...") ])
      end
    else if isString type (lit "content") then
      Some ({| currentResult := currentResult st;
               aiContent := aiContent st ++ show (get data (lit "data")) |},
            [ SetStatus (lit "analyzing")
                (lit "AI is analyzing the codebase...") ])
    else if isString type (lit "error") then None
    else if isString type (lit "done") then Some (onDone st)
    else Some (st, [])
  end.

Definition handleFrame (data : value) (st : Loop) : Loop * list Effect :=
  match onFrame data st with
  | Some out => out
  | None => (st, [ConsoleError (lit "SSE parse error:")])
  end.

(** One element of [buffer.split("\n\n")]. *)
Definition handleLine (line : jsstring) (st : Loop) : Loop * list Effect :=
  if startsWith line (lit "data: ") then
    match JSON_parse (skipn 6 line) with
    | Some data => handleFrame data st
    | None => (st, [ConsoleError (lit "SSE parse error:")])
    end
  else (st, []).

Fixpoint handleFrames (frames : list value) (st : Loop)
    : Loop * list Effect :=
  match frames with
  | [] => (st, [])
  | data :: frames' =>
      let '(st, effects) := handleFrame data st in
      let '(st, effects') := handleFrames frames' st in
      (st, effects ++ effects')
  end.

End WithParser.

(** The frames of a stream whose narrative is plain prose. *)
Definition frame (type : string) (data : value) : value :=
  VObject [(lit "type", VString (lit type)); (lit "data", data)].

Definition sampleMetadata : value :=
  VObject
    [ (lit "metadata",
       VObject [ (lit "name", VString (lit "Repo-Gist"));
                 (lit "fullName", VString (lit "Devsethi3/Repo-Gist")) ]);
      (lit "fileTree", VArray []);
      (lit "fileStats",
       VObject [ (lit "totalFiles", VNumber 23);
                 (lit "totalDirectories", VNumber 7) ]);
      (lit "branch", VString (lit "main"));
      (lit "availableBranches", VArray []) ].

Definition proseStream : list value :=
  [ frame "metadata" sampleMetadata;
    frame "content" (VString (lit "I could not analyze this repository."));
    frame "done" VUndefined ].

(** The same stream with a narrative that has braces and is no JSON. *)
Definition brokenJsonStream : list value :=
  [ frame "metadata" sampleMetadata;
    frame "content" (VString (lit "{ summary: oops }"));
    frame "done" VUndefined ].

(** A parser that accepts nothing. *)
Definition rejectAll (text : jsstring) : option value := None.

End Consumer.

(** ** Request admission (the head of [POST] in
    [app/api/analyze/route.ts]) *)

Module Route.
Import RateLimit.

Definition MAX_BODY_SIZE : Z := 10 * 1024.

Record Request := {
  headers : gmap jsstring jsstring;
  body : jsstring
}.

Inductive Response :=
  | Json (status : Z) (error : jsstring)
      (responseHeaders : list (jsstring * jsstring))
  | Stream (remaining : Z).

(** What a request makes the handler do beyond answering: reading the
    body, parsing it, and calling out (source hosting, generative
    backend). *)
Inductive Step := ReadBody | ParseJson | External.

(** The value of a digit in a radix up to 16. *)
Definition digitValue (radix : Z) (c : N) : option Z :=
  let v :=
    if isDigit c then Some (Z.of_N c - 48)
    else if ((97 <=? c) && (c <=? 102))%N then Some (Z.of_N c - 87)
    else if ((65 <=? c) && (c <=? 70))%N then Some (Z.of_N c - 55)
    else None in
  match v with
  | Some d => if d <? radix then Some d else None
  | None => None
  end.

(** The number the longest prefix of digits stands for; [None] when
    there is no digit. *)
Fixpoint digitsPrefix (radix : Z) (acc : option Z) (s : jsstring)
    : option Z :=
  match s with
  | [] => acc
  | c :: s' =>
      match digitValue radix c with
      | Some d => digitsPrefix radix (Some (default 0 acc * radix + d)) s'
      | None => acc
      end
  end.

(** [parseInt(s)]; [None] is [NaN].  The integer is the exact one: the
    binary64 number [parseInt] rounds it to is above 10240 when the
    integer is. *)
Definition parseInt (s : jsstring) : option Z :=
  let s := trimStart s in
  let '(negative, s) :=
    match s with
    | 45%N :: s' => (true, s')
    | 43%N :: s' => (false, s')
    | _ => (false, s)
    end in
  let '(radix, s) :=
    match s with
    | 48%N :: 120%N :: s' | 48%N :: 88%N :: s' => (16, s')
    | _ => (10, s)
    end in
  option_map (fun n => if negative : bool then - n else n)
    (digitsPrefix radix None s).

(** [contentLength && parseInt(contentLength) > MAX_BODY_SIZE] *)
Definition declaredTooLarge (request : Request) : bool :=
  match presentHeader (headers request !! lit "content-length") with
  | Some contentLength =>
      match parseInt contentLength with
      | Some n => n >? MAX_BODY_SIZE
      | None => false
      end
  | None => false
  end.

(** [rawBody.length > MAX_BODY_SIZE] *)
Definition bodyTooLarge (request : Request) : bool :=
  Z.of_nat (length (body request)) >? MAX_BODY_SIZE.




Section WithServer.

(** [RATE_LIMIT] and [isConfigured()] of [./config]; [JSON.parse]; and
    the rest of the handler from [parseRequestBody] on, with the answer
    it ends in (the one of its [catch] too) and the steps it takes. *)
Variables WINDOW_MS MAX_REQUESTS : Z.
Variable isConfigured : bool.
Variable JSON_parse : jsstring -> option value.
Variable analysis : value -> RateLimitResult -> Response * list Step.

Definition tooLarge : Response :=
  Json 413 (lit "Request body too large") [].

(** [POST(request)] at the reading [now] of the clock, on the state of
    the rate limiter.  [request.text()] is taken to succeed, with the
    decoded text [body request]. *)
Definition POST (now : Z) (request : Request) (st : Limiter)
    : Response * Limiter * list Step :=
  if negb isConfigured then
    (Json 503 (lit "Server is not properly configured.") [], st, [])
  else
    let clientIP := getClientIP (headers request) in
    let '(rateLimit, st) :=
      checkRateLimit WINDOW_MS MAX_REQUESTS now clientIP st in
    if negb (allowed rateLimit) then
      (Json 429 (lit "Too many requests. Please try again later.")
         [(lit "Retry-After", lit "60")], st, [])
    else if declaredTooLarge request then (tooLarge, st, [])
    else if bodyTooLarge request then (tooLarge, st, [ReadBody])
    else
      match JSON_parse (body request) with
      | None =>
          (Json 400 (lit "Invalid JSON in request body") [], st,
           [ReadBody; ParseJson])
      | Some parsed =>
          let '(response, steps) := analysis parsed rateLimit in
          (response, st, [ReadBody; ParseJson] ++ steps)
      end.

End WithServer.

(** A request with a body of 11 KiB, from a client with a known
    address. *)
Definition elevenKiB : Request :=
  {| headers := {[ lit "x-real-ip" := lit "10.0.0.1" ]};
     body := replicate (Z.to_nat (11 * 1024)) 97%N |}.



(** A handler tail that answers with the stream. *)
Definition streaming (parsed : value) (rateLimit : RateLimitResult)
    : Response * list Step :=
  (Stream (remaining rateLimit), [External]).

End Route.

(** * Further parts of the pipeline

    The modules below embed more of the code around the ones above:
    views of a sequence of calls to the rate limiter
    ([RateLimitTraces]), the reading loop of [analyze] ([Reader]),
    [extractRepoFullName] ([RepoName]), a sequence of requests to [POST]
    ([RouteTraffic]), the text of labels and the edges of diagrams
    ([MermaidText]), an order on metrics ([ScoringOrder]),
    [generateAutomations] and [generateRefactors] ([Generators]),
    [assessReadme] ([Readme]), [flattenPaths] and the search of the file
    tree ([FileTree]), and [truncateDescription] and
    [prepareFilesContent] ([Texts]).  [Digits] spells out the decimal
    numerals that [decimal] writes and [parseInt] reads. *)

(** ** Rate limiter: views of a sequence of calls *)

Module RateLimitTraces.
Import RateLimit.

(** The calls without the ticks of the sweep timer. *)
Fixpoint dropSweeps (calls : list Call) : list Call :=
  match calls with
  | [] => []
  | Check now ip :: calls' => Check now ip :: dropSweeps calls'
  | Sweep _ :: calls' => dropSweeps calls'
  end.

(** The clock does not run backwards from [t] on. *)
Fixpoint clockFrom (t : Z) (calls : list Call) : Prop :=
  match calls with
  | [] => True
  | c :: calls' => t <= clock c /\ clockFrom (clock c) calls'
  end.

(** The records still in force at [t]. *)
Definition liveRecords (t : Z) (st : Limiter)
    : gmap jsstring RateLimitRecord :=
  rateLimitMap (cleanupExpiredRecords t st).

(** The results one client has received, in order. *)
Definition answers (ip : jsstring)
    (log : list (jsstring * RateLimitResult)) : list RateLimitResult :=
  map snd (filter (fun e => fst e = ip) log).

(** What a check tells a client whose record is [o], and the record it
    leaves ([None]: the record is not written). *)
Definition verdictOn (WINDOW_MS MAX_REQUESTS now : Z)
    (o : option RateLimitRecord) : RateLimitResult * option RateLimitRecord :=
  let restart :=
    ({| allowed := true; remaining := MAX_REQUESTS - 1 |},
     Some {| count := 1; resetTime := now + WINDOW_MS |}) in
  match o with
  | None => restart
  | Some record =>
      if now >? resetTime record then restart
      else if count record >=? MAX_REQUESTS then
        ({| allowed := false; remaining := 0 |}, None)
      else
        ({| allowed := true;
            remaining := MAX_REQUESTS - (count record + 1) |},
         Some {| count := count record + 1;
                 resetTime := resetTime record |})
  end.

(** What the [k]-th request (from 0) of a window is told when [c]
    requests of the window have been counted before. *)
Definition answerAfter (MAX_REQUESTS c : Z) (k : nat) : RateLimitResult :=
  if bool_decide (c + Z.of_nat k < MAX_REQUESTS) then
    {| allowed := true; remaining := MAX_REQUESTS - (c + Z.of_nat k + 1) |}
  else {| allowed := false; remaining := 0 |}.

(** Two clients, and a morning of calls with two sweeps. *)
Definition alice : jsstring := lit "10.0.0.1".
Definition bob : jsstring := lit "10.0.0.2".

Definition morning : list Call :=
  [ Check 0 alice; Check 10 bob; Sweep 500; Check 600 alice;
    Check 1200 alice; Sweep 1300; Check 1400 bob; Check 1400 alice ].

(** A text without a comma, and what may follow the first address of
    a forwarding header: nothing, or a comma and the other hops. *)
Definition commaFree (s : jsstring) : bool :=
  forallb (fun c => negb (c =? 44)%N) s.

Definition moreHops (rest : jsstring) : bool :=
  match rest with
  | [] => true
  | c :: _ => (c =? 44)%N
  end.

(** A request that came through a proxy. *)
Definition proxied : gmap jsstring jsstring :=
  {[ lit "x-forwarded-for" := lit " 203.0.113.7 , 10.0.0.1";
     lit "x-real-ip" := lit "10.0.0.1" ]}.

End RateLimitTraces.

(** ** Stream consumer: the reading loop of [analyze] *)

Module Reader.
Import Consumer.

(** What [split] does with a code unit that begins no separator: it
    goes in front of the first piece. *)
Definition keep (c : N) (out : list jsstring * jsstring)
    : list jsstring * jsstring :=
  match out.1 with
  | [] => ([], c :: out.2)
  | line :: lines => ((c :: line) :: lines, out.2)
  end.

(** [buffer.split("\n\n")], as the elements before the last one and the
    last one, which [lines.pop()] takes back as the new buffer. *)
Fixpoint splitFrames (s : jsstring) : list jsstring * jsstring :=
  match s with
  | [] => ([], [])
  | c :: s' =>
      match s' with
      | d :: s'' =>
          if ((c =? 10) && (d =? 10))%N then
            let '(lines, rest) := splitFrames s'' in ([] :: lines, rest)
          else keep c (splitFrames s')
      | [] => keep c (splitFrames s')
      end
  end.

(** The variables of the reading loop: the text not yet split, and
    those of the frame loop. *)
Record Reading := {
  buffer : jsstring;
  loop : Loop
}.

Definition opened : Reading := {| buffer := []; loop := start |}.

(** A buffer that holds no separator, as it is between two turns. *)
Definition settled (rd : Reading) : Prop :=
  splitFrames (buffer rd) = ([], buffer rd).

(** The full name the cache is keyed by:
    [currentResult.metadata?.fullName]. *)
Definition fullNameOf (current : list (jsstring * value)) : value :=
  getOptional (get (VObject current) (lit "metadata")) (lit "fullName").

(** The stages the loop may set: it never sets ["error"]. *)
Definition progressing (e : Effect) : Prop :=
  match e with
  | SetStatus stage currentStep =>
      stage = lit "analyzing"
      ∨ stage = lit "complete" ∧ currentStep = lit "Analysis complete!"
  | _ => True
  end.

(** What a frame adds to [aiContent]. *)
Definition contentOf (data : value) : jsstring :=
  match data with
  | VUndefined | VNull => []
  | _ =>
      if isString (get data (lit "type")) (lit "content")
      then show (get data (lit "data")) else []
  end.

(** A frame whose [type] is ["metadata"]. *)
Definition isMetadataFrame (data : value) : bool :=
  isString (get data (lit "type")) (lit "metadata").

Section WithParser.

Variable JSON_parse : jsstring -> option value.

(** The frames among the lines: of a line that starts with ["data: "]
    what [JSON.parse] makes of the text after it, when it makes
    something of it. *)
Definition parsedFrames (lines : list jsstring) : list value :=
  omap (fun line =>
          if startsWith line (lit "data: ") then JSON_parse (skipn 6 line)
          else None) lines.

(** [for (const line of lines) { ... }] *)
Fixpoint handleLines (lines : list jsstring) (st : Loop)
    : Loop * list Effect :=
  match lines with
  | [] => (st, [])
  | line :: lines' =>
      let '(st, effects) := handleLine JSON_parse line st in
      let '(st, effects') := handleLines lines' st in
      (st, effects ++ effects')
  end.

(** One turn of the [while (true)] loop for a chunk that has been
    decoded to [chunk]. *)
Definition feed (chunk : jsstring) (rd : Reading) : Reading * list Effect :=
  let '(lines, rest) := splitFrames (buffer rd ++ chunk) in
  let '(st, effects) := handleLines lines (loop rd) in
  ({| buffer := rest; loop := st |}, effects).

Fixpoint feedAll (chunks : list jsstring) (rd : Reading)
    : Reading * list Effect :=
  match chunks with
  | [] => (rd, [])
  | chunk :: chunks' =>
      let '(rd, effects) := feed chunk rd in
      let '(rd, effects') := feedAll chunks' rd in
      (rd, effects ++ effects')
  end.

End WithParser.

(** A parser for the lines of a small stream. *)
Definition frameLine (type : string) : jsstring :=
  lit "data: {type:" ++ lit type ++ lit "}".

Definition sampleParse (text : jsstring) : option value :=
  if bool_decide (text = lit "{type:metadata}") then
    Some (frame "metadata" sampleMetadata)
  else if bool_decide (text = lit "{type:content}") then
    Some (frame "content" (VString (lit "{}")))
  else if bool_decide (text = lit "{type:error}") then
    Some (frame "error" (VString (lit "AI request failed")))
  else if bool_decide (text = lit "{type:done}") then
    Some (frame "done" VUndefined)
  else if bool_decide (text = lit "{}") then Some (VObject [])
  else None.

Definition blankLine : jsstring := [10; 10]%N.

Definition sampleText : jsstring :=
  frameLine "metadata" ++ blankLine ++ frameLine "content" ++ blankLine
  ++ frameLine "done" ++ blankLine.

(** The same stream as it may arrive. *)
Definition sampleChunks : list jsstring :=
  [firstn 30 sampleText; skipn 30 sampleText].

(** What the context and the storage get at its [done] frame. *)
Definition sampleResult : value :=
  match sampleMetadata with
  | VObject current => finalResult current (VObject [])
  | _ => VUndefined
  end.



(** A stream that has no metadata frame. *)
Definition anonymousChunks : list jsstring :=
  [frameLine "content" ++ blankLine ++ frameLine "done" ++ blankLine].

End Reader.

(** ** Repository names ([extractRepoFullName] in
    [hooks/use-analysis.ts]) *)

Module RepoName.

(** The longest run of code units of a class at the start of a string,
    and what follows it: a greedy [[...]+] or [[...]*]. *)
Fixpoint span (p : N -> bool) (s : jsstring) : jsstring * jsstring :=
  match s with
  | c :: s' =>
      if p c then let '(run, rest) := span p s' in (c :: run, rest)
      else ([], s)
  | [] => ([], [])
  end.

(** [(?:p)?] for a literal [p]. *)
Definition skipOptional (p s : jsstring) : jsstring :=
  if startsWith s p then skipn (length p) s else s.

Definition slash : N := 47.

(** [[^\/]] *)
Definition notSlash (c : N) : bool := negb (c =? slash)%N.

(** [[^\/\s?#]] *)
Definition repoUnit (c : N) : bool :=
  negb (c =? slash)%N && negb (isWhiteSpace c)
  && negb (c =? 63)%N && negb (c =? 35)%N.

(** [[^\/\s]] *)
Definition plainUnit (c : N) : bool :=
  negb (c =? slash)%N && negb (isWhiteSpace c).

(** The group [([^\/]+\/[^\/\s?#]+)] at the start of [s].  A shorter
    owner is followed by no slash, so the longest one is the only one
    to try. *)
Definition matchName (s : jsstring) : option jsstring :=
  let '(owner, rest) := span notSlash s in
  match owner, rest with
  | _ :: _, c :: rest' =>
      (* [c] is the slash the owner stopped at *)
      let '(repo, _) := span repoUnit rest' in
      match repo with
      | [] => None
      | _ :: _ => Some (owner ++ [c] ++ repo)
      end
  | _, _ => None
  end.

(** [githubRegex] tried at the start of [s]; the result is its group.
    A scheme or a [www.] that was skipped leaves a text that does not
    start with [github.com/], so they are taken when they are there. *)
Definition matchGithubAt (s : jsstring) : option jsstring :=
  let s :=
    if startsWith s (lit "https://") then skipn 8 s
    else skipOptional (lit "http://") s in
  let s := skipOptional (lit "www.") s in
  if startsWith s (lit "github.com/") then matchName (skipn 11 s)
  else None.

(** [url.match(githubRegex)]: the first place the expression matches. *)
Fixpoint matchGithub (s : jsstring) : option jsstring :=
  match matchGithubAt s with
  | Some group => Some group
  | None =>
      match s with
      | [] => None
      | _ :: s' => matchGithub s'
      end
  end.

(** [String.prototype.endsWith]. *)
Definition endsWith (s p : jsstring) : bool := startsWith (rev s) (rev p).

(** [name.replace(/\.git$/, "")] *)
Definition withoutGit (name : jsstring) : jsstring :=
  if endsWith name (lit ".git") then firstn (length name - 4) name
  else name.

(** [s.match(simpleRegex)] *)
Definition matchSimple (s : jsstring) : option jsstring :=
  let '(owner, rest) := span plainUnit s in
  match owner, rest with
  | _ :: _, c :: rest' =>
      if (c =? slash)%N then
        let '(repo, rest'') := span plainUnit rest' in
        match repo, rest'' with
        | _ :: _, [] => Some s
        | _, _ => None
        end
      else None
  | _, _ => None
  end.

(** [extractRepoFullName]; [None] is [null].  The argument is a string,
    so nothing is thrown. *)
Definition extractRepoFullName (url : jsstring) : option jsstring :=
  match matchGithub url with
  | Some group => Some (withoutGit group)
  | None => matchSimple (trim url)
  end.

(** [owner/repo] *)
Definition fullName (owner repo : jsstring) : jsstring :=
  owner ++ [slash] ++ repo.

(** The number of slashes of a text. *)
Definition slashes (s : jsstring) : nat :=
  length (List.filter (N.eqb slash) s).

(** The ways to write the address of GitHub that [githubRegex] takes. *)
Definition addresses : list jsstring :=
  [ lit "github.com/"; lit "www.github.com/";
    lit "http://github.com/"; lit "http://www.github.com/";
    lit "https://github.com/"; lit "https://www.github.com/" ].

(** What may follow the name in a URL: nothing, or a text that starts
    with a code unit no name has. *)
Definition ends (tail : jsstring) : bool :=
  match tail with
  | [] => true
  | c :: _ => negb (repoUnit c)
  end.

End RepoName.

(** ** Request admission: a sequence of requests *)

Module RouteTraffic.
Import RateLimit Route.

(** The answer of the rate limiter gate: 429, and no step taken. *)
Definition limited (out : Response * list Step) : bool :=
  match out with
  | (Json status _ _, []) => status =? 429
  | _ => false
  end.

Section WithServer.

Variables WINDOW_MS MAX_REQUESTS : Z.
Variable isConfigured : bool.
Variable JSON_parse : jsstring -> option value.
Variable analysis : value -> RateLimitResult -> Response * list Step.

(** Requests that arrive one after the other, each at its reading of
    the clock: their answers with the steps taken, and the state of the
    rate limiter after them. *)
Fixpoint serve (calls : list (Z * Request)) (st : Limiter)
    : list (Response * list Step) * Limiter :=
  match calls with
  | [] => ([], st)
  | (now, request) :: calls' =>
      let '(response, st, steps) :=
        POST WINDOW_MS MAX_REQUESTS isConfigured JSON_parse analysis now
          request st in
      let '(outs, st) := serve calls' st in
      ((response, steps) :: outs, st)
  end.

End WithServer.

(** A request whose body is no JSON. *)
Definition notJson : Request :=
  {| headers := {[ lit "x-real-ip" := lit "10.0.0.1" ]};
     body := lit "url=owner/repo" |}.

(** Three requests of one client within a second. *)
Definition burst : list (Z * Request) :=
  [ (0, notJson); (10, elevenKiB); (20, notJson) ].

End RouteTraffic.

(** ** Diagram codec: what the labels and the edges are made of *)

Module MermaidText.
Import Mermaid.

(** The code units that [sanitizeLabel] takes out of a label: the
    round and the curly brackets, the double quote, the angle brackets,
    the bar, the line feed and the carriage return. *)
Definition problematic : list N := [40; 41; 34; 60; 62; 124; 123; 125; 10; 13]%N.

(** A text that has none of the code units [cs]. *)
Definition without (cs : list N) (s : jsstring) : bool :=
  forallb (fun c => negb (existsb (N.eqb c) cs)) s.

(** An edge whose two ends are identifiers of nodes. *)
Definition knownEdge (ns : list DataFlowNode) (edge : DataFlowEdge) : bool :=
  bool_decide (edge_from edge ∈ map node_id ns)
  && bool_decide (edge_to edge ∈ map node_id ns).

(** A flow with an edge to a node that is not there. *)
Definition twoNodes : list DataFlowNode :=
  [ {| node_id := lit "user"; node_name := lit "User (browser)";
       node_type := source |};
    {| node_id := lit "api"; node_name := lit "API";
       node_type := process |} ].

Definition threeEdges : list DataFlowEdge :=
  [ {| edge_from := lit "user"; edge_to := lit "api";
       label := Some (lit "POST /api/analyze"); dataType := None |};
    {| edge_from := lit "api"; edge_to := lit "cache";
       label := None; dataType := None |};
    {| edge_from := lit "api"; edge_to := lit "user";
       label := None; dataType := None |} ].

End MermaidText.

(** ** Scoring engine: better and worse repositories *)

Module ScoringOrder.
Import Scoring.

(** A repository in which nothing is found wanting. *)
Definition exemplary : CodeMetrics :=
  {| hasTests := true; testFileCount := 12; hasCI := true;
     ciProvider := Some (lit "GitHub Actions"); hasLinting := true;
     hasTypeScript := true; strictMode := true; hasPrettier := true;
     hasSecurityConfig := true; hasEnvExample := true;
     exposedSecrets := []; hasChangelog := true; hasContributing := true;
     hasLicense := true; readmeQuality := excellent; dependencyCount := 12;
     devDependencyCount := 8; vulnerablePatterns := []; largeFiles := [];
     codePatterns := {| hasErrorHandling := true; hasLogging := true;
                        hasValidation := true |};
     missingEssentials := []; existingAutomations := [lit "ci"] |}.

(** [m'] is at least as good as [m] in everything the scores look at. *)
Definition readmeRank (q : ReadmeQuality) : Z :=
  match q with
  | missing => 0 | minimal => 1 | basic => 2 | good => 3 | excellent => 4
  end.

Definition noWorse (m m' : CodeMetrics) : bool :=
  implb (hasTypeScript m) (hasTypeScript m')
  && implb (strictMode m) (strictMode m')
  && implb (hasLinting m) (hasLinting m')
  && implb (hasPrettier m) (hasPrettier m')
  && implb (hasErrorHandling (codePatterns m))
       (hasErrorHandling (codePatterns m'))
  && (readmeRank (readmeQuality m) <=? readmeRank (readmeQuality m'))
  && implb (hasChangelog m) (hasChangelog m')
  && implb (hasLicense m) (hasLicense m')
  && implb (hasSecurityConfig m) (hasSecurityConfig m')
  && implb (nonEmpty (exposedSecrets m')) (nonEmpty (exposedSecrets m))
  && implb (nonEmpty (vulnerablePatterns m'))
       (nonEmpty (vulnerablePatterns m))
  && implb (hasCI m) (hasCI m')
  && implb (hasTests m) (hasTests m')
  && implb (50 <? dependencyCount m') (50 <? dependencyCount m).


(** A repository in which everything is. *)
Definition worst : CodeMetrics :=
  {| hasTests := false; testFileCount := 0; hasCI := false;
     ciProvider := None; hasLinting := false; hasTypeScript := false;
     strictMode := false; hasPrettier := false; hasSecurityConfig := false;
     hasEnvExample := false; exposedSecrets := [lit ".env"];
     hasChangelog := false; hasContributing := false; hasLicense := false;
     readmeQuality := missing; dependencyCount := 60;
     devDependencyCount := 0; vulnerablePatterns := [lit "request"];
     largeFiles := [lit "index.js"];
     codePatterns := {| hasErrorHandling := false; hasLogging := false;
                        hasValidation := false |};
     missingEssentials := [lit "README.md"; lit "LICENSE"];
     existingAutomations := [] |}.

End ScoringOrder.

(** ** Suggestions ([automation-generator.ts] and the generator of
    refactors that comes with it) *)

Module Generators.
Import Scoring ScoringOrder.

Inductive AutomationType := issue | workflow.
Inductive Level := low | medium | high.

Record GeneratedAutomation := {
  auto_id : jsstring;
  auto_type : AutomationType;
  auto_title : jsstring;
  auto_description : jsstring;
  auto_body : jsstring;
  auto_labels : list jsstring;
  auto_priority : Level;
  auto_category : jsstring;
  auto_estimatedEffort : jsstring;
  auto_files : option (list jsstring)
}.

Record GeneratedRefactor := {
  ref_id : jsstring;
  ref_title : jsstring;
  ref_description : jsstring;
  ref_impact : Level;
  ref_effort : Level;
  ref_category : jsstring;
  ref_files : list jsstring
}.

(** [if (c) { list.push({ id: `prefix${id++}`, ... }); }] on the list
    and the counter. *)
Definition pushIf {A} (c : bool) (prefix : string) (make : jsstring -> A)
    (acc : list A * Z) : list A * Z :=
  if c then (fst acc ++ [make (lit prefix ++ decimal (snd acc))], snd acc + 1)
  else acc.

(** The list of [generateAutomations] before it is cut. *)
Definition automationsFound (metrics : CodeMetrics)
    : list GeneratedAutomation * Z :=
  let acc := ([], 1) in
  let acc :=
    pushIf (negb (hasCI metrics)) "auto-"
      (fun id =>
         {| auto_id := id; auto_type := workflow;
            auto_title := lit "Add CI/CD Pipeline";
            auto_description := lit "Set up automated testing on push/PR";
            auto_body := lit "Add GitHub Actions workflow for CI";
            auto_labels := [lit "ci"; lit "automation"];
            auto_priority := high; auto_category := lit "DevOps";
            auto_estimatedEffort := lit "30 min";
            auto_files := Some [lit ".github/workflows/ci.yml"] |}) acc in
  let acc :=
    pushIf (nonEmpty (exposedSecrets metrics)) "auto-"
      (fun id =>
         {| auto_id := id; auto_type := issue;
            auto_title := lit "Remove Exposed Secrets";
            auto_description :=
              decimal (Z.of_nat (length (exposedSecrets metrics)))
              ++ lit " potential secret(s) detected";
            auto_body :=
              lit "Files: " ++ join (lit ", ") (exposedSecrets metrics);
            auto_labels := [lit "security"; lit "critical"];
            auto_priority := high; auto_category := lit "Security";
            auto_estimatedEffort := lit "1 hour";
            auto_files := None |}) acc in
  let acc :=
    pushIf (negb (hasSecurityConfig metrics)) "auto-"
      (fun id =>
         {| auto_id := id; auto_type := workflow;
            auto_title := lit "Add Dependabot";
            auto_description := lit "Automated dependency updates";
            auto_body := lit "Configure Dependabot for security updates";
            auto_labels := [lit "security"];
            auto_priority := medium; auto_category := lit "Security";
            auto_estimatedEffort := lit "15 min";
            auto_files := Some [lit ".github/dependabot.yml"] |}) acc in
  let acc :=
    pushIf (negb (hasTests metrics)) "auto-"
      (fun id =>
         {| auto_id := id; auto_type := issue;
            auto_title := lit "Add Tests";
            auto_description := lit "Set up testing framework";
            auto_body := lit "Add Vitest or Jest for unit testing";
            auto_labels := [lit "testing"];
            auto_priority := high; auto_category := lit "Testing";
            auto_estimatedEffort := lit "2 hours";
            auto_files := None |}) acc in
  pushIf (negb (hasEnvExample metrics)) "auto-"
    (fun id =>
       {| auto_id := id; auto_type := issue;
          auto_title := lit "Add .env.example";
          auto_description := lit "Document environment variables";
          auto_body := lit "Create .env.example file";
          auto_labels := [lit "documentation"];
          auto_priority := medium; auto_category := lit "Documentation";
          auto_estimatedEffort := lit "15 min";
          auto_files := None |}) acc.

(** [generateAutomations(metrics, _repoName, _primaryLanguage)]; the
    two other arguments are not used. *)
Definition generateAutomations (metrics : CodeMetrics)
    : list GeneratedAutomation :=
  firstn 5 (fst (automationsFound metrics)).

(** The first five findings of [generateRefactors], and the counter
    after them. *)
Definition fiveRefactors (metrics : CodeMetrics)
    : list GeneratedRefactor * Z :=
  let acc := ([], 1) in
  let acc :=
    pushIf (hasTypeScript metrics && negb (strictMode metrics)) "ref-"
      (fun id =>
         {| ref_id := id;
            ref_title := lit "Enable TypeScript strict mode";
            ref_description := lit "Better type safety with strict: true";
            ref_impact := high; ref_effort := medium;
            ref_category := lit "Type Safety";
            ref_files := [lit "tsconfig.json"] |}) acc in
  let acc :=
    pushIf (negb (hasLinting metrics)) "ref-"
      (fun id =>
         {| ref_id := id; ref_title := lit "Add ESLint";
            ref_description := lit "Enforce code style and catch errors";
            ref_impact := medium; ref_effort := low;
            ref_category := lit "Code Quality";
            ref_files := [lit "eslint.config.js"] |}) acc in
  let acc :=
    pushIf (negb (hasTests metrics)) "ref-"
      (fun id =>
         {| ref_id := id; ref_title := lit "Add testing";
            ref_description := lit "Set up Vitest for unit testing";
            ref_impact := high; ref_effort := medium;
            ref_category := lit "Testing";
            ref_files := [lit "vitest.config.ts"] |}) acc in
  let acc :=
    pushIf (negb (hasErrorHandling (codePatterns metrics))) "ref-"
      (fun id =>
         {| ref_id := id; ref_title := lit "Add error handling";
            ref_description := lit "Implement try/catch patterns";
            ref_impact := high; ref_effort := medium;
            ref_category := lit "Reliability";
            ref_files := [lit "src/lib/errors.ts"] |}) acc in
  pushIf (negb (hasValidation (codePatterns metrics))) "ref-"
    (fun id =>
       {| ref_id := id; ref_title := lit "Add input validation";
          ref_description := lit "Use Zod for type validation";
          ref_impact := high; ref_effort := low;
          ref_category := lit "Security";
          ref_files := [lit "src/lib/validations.ts"] |}) acc.

(** The sixth finding. *)
Definition splitLargeFiles (metrics : CodeMetrics) (id : jsstring)
    : GeneratedRefactor :=
  {| ref_id := id; ref_title := lit "Split large files";
     ref_description :=
       decimal (Z.of_nat (length (largeFiles metrics)))
       ++ lit " file(s) exceed 10KB";
     ref_impact := medium; ref_effort := high;
     ref_category := lit "Maintainability";
     ref_files := firstn 3 (largeFiles metrics) |}.

(** The list of [generateRefactors] before it is cut. *)
Definition refactorsFound (metrics : CodeMetrics)
    : list GeneratedRefactor * Z :=
  pushIf (nonEmpty (largeFiles metrics)) "ref-" (splitLargeFiles metrics)
    (fiveRefactors metrics).

(** [generateRefactors(metrics, _repoName, _primaryLanguage)] *)
Definition generateRefactors (metrics : CodeMetrics)
    : list GeneratedRefactor :=
  firstn 5 (fst (refactorsFound metrics)).

(** [prefix1], [prefix2], ..., [prefixn] *)
Definition numbered (prefix : string) (n : nat) : list jsstring :=
  map (fun i => lit prefix ++ decimal (Z.of_nat i)) (seq 1 n).

(** The five findings that come before the large files. *)
Definition fiveFindings (metrics : CodeMetrics) : bool :=
  hasTypeScript metrics && negb (strictMode metrics)
  && negb (hasLinting metrics) && negb (hasTests metrics)
  && negb (hasErrorHandling (codePatterns metrics))
  && negb (hasValidation (codePatterns metrics)).

(** A TypeScript repository in which everything is found wanting. *)
Definition neglected : CodeMetrics :=
  {| hasTests := false; testFileCount := 0; hasCI := false;
     ciProvider := None; hasLinting := false; hasTypeScript := true;
     strictMode := false; hasPrettier := false; hasSecurityConfig := false;
     hasEnvExample := false; exposedSecrets := [lit ".env"];
     hasChangelog := false; hasContributing := false; hasLicense := false;
     readmeQuality := missing; dependencyCount := 60;
     devDependencyCount := 0; vulnerablePatterns := [lit "request"];
     largeFiles := [lit "src/app/page.tsx"];
     codePatterns := {| hasErrorHandling := false; hasLogging := false;
                        hasValidation := false |};
     missingEssentials := [lit "README.md"; lit "LICENSE"];
     existingAutomations := [] |}.

End Generators.

(** ** README assessment and the walk over the file tree
    ([code-analyzer.ts]) *)

Module Readme.
Import Scoring.

(** [String.prototype.includes]. *)
Fixpoint includes (s sub : jsstring) : bool :=
  startsWith s sub
  || match s with
     | [] => false
     | _ :: s' => includes s' sub
     end.

(** What the flag [i] of a regular expression without the flag [u]
    makes of a code unit that is compared with an ASCII letter: a
    capital ASCII letter is its small letter, and no other code unit
    is taken for a letter it is not. *)
Definition foldCase (s : jsstring) : jsstring :=
  map (fun c => if (65 <=? c) && (c <=? 90) then c + 32 else c)%N s.

(** [/word/i.test(text)] for a word in small ASCII letters. *)
Definition mentions (text : jsstring) (word : string) : bool :=
  includes (foldCase text) (lit word).

Definition point (b : bool) : Z := if b then 1 else 0.

Definition assessReadme (readme : jsstring) : ReadmeQuality :=
  if (length readme <? 100)%nat then missing
  else if (length readme <? 300)%nat then minimal
  else
    let score :=
      point (mentions readme "install" || mentions readme "setup")
      + point (mentions readme "usage" || mentions readme "example")
      + point (includes readme (lit "```")) in
    if score >=? 3 then excellent
    else if score >=? 2 then good
    else basic.

End Readme.

Module FileTree.

(** [FileNode] of [lib/types], by the properties the code reads. *)
Inductive NodeKind := fileKind | directoryKind.

Local Set Warnings "-register-all".

Inductive FileNode :=
  mkFileNode (name path : jsstring) (kind : NodeKind) (size : option Z)
    (children : option (list FileNode)).

Definition name (n : FileNode) : jsstring :=
  let 'mkFileNode name _ _ _ _ := n in name.
Definition path (n : FileNode) : jsstring :=
  let 'mkFileNode _ path _ _ _ := n in path.
Definition kind (n : FileNode) : NodeKind :=
  let 'mkFileNode _ _ kind _ _ := n in kind.
Definition size (n : FileNode) : option Z :=
  let 'mkFileNode _ _ _ size _ := n in size.
Definition children (n : FileNode) : option (list FileNode) :=
  let 'mkFileNode _ _ _ _ children := n in children.

(** The loop of [flattenPaths].  The stack is kept with its top, the
    end of the array, in front: [pop] takes the head, and
    [push(...children)] puts the children in front with the last one
    first.  [fuel] bounds the number of turns; [None] when it runs
    out. *)
Fixpoint flattenLoop (fuel : nat) (stack : list FileNode)
    (paths : list jsstring) : option (list jsstring) :=
  match stack with
  | [] => Some paths
  | node :: stack' =>
      match fuel with
      | O => None
      | S fuel' =>
          flattenLoop fuel'
            (match children node with
             | Some nodes => rev nodes ++ stack'
             | None => stack'
             end)
            (paths ++ [path node])
      end
  end.

Definition flattenPaths (fuel : nat) (tree : list FileNode)
    : option (list jsstring) :=
  flattenLoop fuel (rev tree) [].

(** The number of nodes of a tree. *)
Fixpoint nodeCount (n : FileNode) : nat :=
  match n with
  | mkFileNode _ _ _ _ (Some nodes) => S (list_sum (map nodeCount nodes))
  | mkFileNode _ _ _ _ None => 1
  end.

(** A node, then the trees below it from the last to the first. *)
Fixpoint lastFirst (n : FileNode) : list jsstring :=
  match n with
  | mkFileNode _ path _ _ (Some nodes) =>
      path :: concat (rev (map lastFirst nodes))
  | mkFileNode _ path _ _ None => [path]
  end.

(** A node and the nodes below it. *)
Fixpoint below (n : FileNode) : list FileNode :=
  n :: match n with
       | mkFileNode _ _ _ _ (Some nodes) => concat (map below nodes)
       | mkFileNode _ _ _ _ None => []
       end.

Section WithCaseTables.

(** [String.prototype.toLowerCase], which goes by the case tables of
    Unicode. *)
Variable toLowerCase : jsstring -> jsstring.

(** [nodeMatchesSearch(node, searchQuery)] of
    [components/file-tree/utils.ts]. *)
Fixpoint nodeMatchesSearch (node : FileNode) (searchQuery : jsstring)
    : bool :=
  match searchQuery with
  | [] => true
  | _ =>
      let query := toLowerCase searchQuery in
      if Readme.includes (toLowerCase (name node)) query then true
      else
        match node with
        | mkFileNode _ _ _ _ (Some nodes) =>
            existsb (fun child => nodeMatchesSearch child query) nodes
        | mkFileNode _ _ _ _ None => false
        end
  end.

(** [nameMatchesSearch(name, searchQuery)] *)
Definition nameMatchesSearch (name searchQuery : jsstring) : bool :=
  match searchQuery with
  | [] => false
  | _ => Readme.includes (toLowerCase name) (toLowerCase searchQuery)
  end.

End WithCaseTables.

(** A small tree. *)
Definition sampleTree : list FileNode :=
  [ mkFileNode (lit "src") (lit "src") directoryKind None
      (Some [ mkFileNode (lit "app") (lit "src/app") directoryKind None
                (Some [ mkFileNode (lit "Page.tsx") (lit "src/app/Page.tsx")
                          fileKind (Some 2048) None ]);
              mkFileNode (lit "lib") (lit "src/lib") directoryKind None
                (Some []) ]);
    mkFileNode (lit "README.md") (lit "README.md") fileKind (Some 512) None ].

End FileTree.

(** ** Texts with a limit ([prompt-builder] and [seo]) *)

Module Texts.

(** [s.slice(0, end)] for an integer [end]: a negative one counts from
    the end of the string. *)
Definition sliceTo (stop : Z) (s : jsstring) : jsstring :=
  if stop <? 0 then firstn (length s - Z.to_nat (- stop)) s
  else firstn (Z.to_nat stop) s.

(** [truncateDescription(text, maxLength)] *)
Definition truncateDescription (text : jsstring) (maxLength : Z) : jsstring :=
  if Z.of_nat (length text) <=? maxLength then text
  else trim (sliceTo (maxLength - 3) text) ++ lit "...".

Definition fence : jsstring := lit "```".

(** One element of the [map] of [prepareFilesContent]. *)
Definition fileBlock (maxContentLength : nat)
    (entry : jsstring * jsstring) : jsstring :=
  lit "### " ++ fst entry ++ [10%N] ++ fence ++ [10%N]
  ++ slice0 maxContentLength (snd entry) ++ [10%N] ++ fence.

(** [prepareFilesContent(importantFiles, maxFiles, maxContentLength)] on
    the entries of [importantFiles] as [Object.entries] lists them, for
    limits that are not negative. *)
Definition prepareFilesContent (importantFiles : list (jsstring * jsstring))
    (maxFiles maxContentLength : nat) : jsstring :=
  join [10; 10]%N
    (map (fileBlock maxContentLength) (firstn maxFiles importantFiles)).

(** The files of a small repository. *)
Definition sampleFiles : list (jsstring * jsstring) :=
  [ (lit "package.json", lit "{ }");
    (lit "README.md", lit "# Repo-Gist") ].

End Texts.

(** ** Decimal numerals

    [decimal] goes through the numerals of the Standard Library; the
    code units of a numeral and the number they stand for are spelled
    out here. *)

Module Digits.

(** The code units of the digits of a numeral, the first digit first. *)
Fixpoint units (d : Decimal.uint) : jsstring :=
  match d with
  | Decimal.Nil => []
  | Decimal.D0 l => 48%N :: units l
  | Decimal.D1 l => 49%N :: units l
  | Decimal.D2 l => 50%N :: units l
  | Decimal.D3 l => 51%N :: units l
  | Decimal.D4 l => 52%N :: units l
  | Decimal.D5 l => 53%N :: units l
  | Decimal.D6 l => 54%N :: units l
  | Decimal.D7 l => 55%N :: units l
  | Decimal.D8 l => 56%N :: units l
  | Decimal.D9 l => 57%N :: units l
  end.

(** The number that digits stand for when they follow digits that
    stand for [acc]. *)
Fixpoint value (acc : Z) (s : jsstring) : Z :=
  match s with
  | [] => acc
  | c :: s' => value (10 * acc + (Z.of_N c - 48)) s'
  end.

End Digits.

(** * Verification *)

(** ** Decimal numerals *)

Module DigitsFacts.
Import Digits.

Lemma units_string d :
  lit (NilEmpty.string_of_uint d) = units d.
Proof.
  induction d; cbn [NilEmpty.string_of_uint units]; [reflexivity|..];
    unfold lit in *; cbn [list_ascii_of_string map]; by rewrite IHd.
Qed.

Lemma units_digits d : Forall (λ c, isDigit c = true) (units d).
Proof. induction d; cbn [units]; constructor; done. Qed.

Lemma units_length d : length (units d) = Decimal.nb_digits d.
Proof. induction d; cbn [units Decimal.nb_digits length]; congruence. Qed.

Lemma units_inj d d' : units d = units d' → d = d'.
Proof.
  revert d'. induction d; intros d' H; destruct d'; cbn [units] in H;
    try discriminate H; try reflexivity;
    injection H as H; f_equal; by apply IHd.
Qed.

(** The three forms of [decimal]. *)
Lemma decimal_units z :
  decimal z =
    match z with
    | 0 => [48%N]
    | Z.pos p => units (Pos.to_uint p)
    | Z.neg p => 45%N :: units (Pos.to_uint p)
    end.
Proof.
  assert (∀ p, lit (NilZero.string_of_uint (Pos.to_uint p))
               = units (Pos.to_uint p)) as Hp.
  { intros p. rewrite <- units_string. f_equal.
    pose proof (DecimalPos.Unsigned.to_uint_nonnil p) as Hnil.
    by destruct (Pos.to_uint p). }
  destruct z as [|p|p]; [reflexivity|apply Hp|].
  unfold decimal. cbn [Z.to_int NilZero.string_of_int].
  rewrite <- Hp. reflexivity.
Qed.

(** A numeral is made of digits, after a minus sign when the number is
    negative. *)
Lemma decimal_signed z :
  Forall (λ c, isDigit c = true ∨ c = 45%N) (decimal z).
Proof.
  assert (∀ d, Forall (λ c, isDigit c = true ∨ c = 45%N) (units d)) as Hd.
  { intros d. eapply Forall_impl; [apply units_digits|]. by left. }
  rewrite decimal_units. destruct z; [|apply Hd|].
  - constructor; [by left|constructor].
  - constructor; [by right|apply Hd].
Qed.



(** Different numbers have different numerals. *)
Lemma decimal_inj z z' : decimal z = decimal z' → z = z'.
Proof.
  assert (∀ p, units (Pos.to_uint p) ≠ [48%N]) as Hzero.
  { intros p H. apply (DecimalPos.Unsigned.to_uint_nonzero p).
    apply units_inj. exact H. }
  assert (∀ p q, units (Pos.to_uint p) ≠ 45%N :: units (Pos.to_uint q))
    as Hminus.
  { intros p q H. pose proof (units_digits (Pos.to_uint p)) as Hd.
    rewrite H in Hd. by inversion Hd. }
  rewrite !decimal_units.
  destruct z as [|p|p], z' as [|q|q]; intros H; try reflexivity;
    try discriminate H;
    try (by exfalso; eapply Hzero); try (by exfalso; eapply Hminus).
  - f_equal. by apply DecimalPos.Unsigned.to_uint_inj, units_inj.
  - injection H as H. f_equal.
    by apply DecimalPos.Unsigned.to_uint_inj, units_inj.
Qed.

(** The number the digits of a numeral stand for. *)
Lemma value_acc l acc :
  Z.pos (Pos.of_uint_acc l acc) = value (Z.pos acc) (units l).
Proof.
  revert acc. induction l; intros acc; cbn [Pos.of_uint_acc units value];
    [reflexivity|..]; rewrite IHl; f_equal; lia.
Qed.

Lemma value_units d : Z.of_N (Pos.of_uint d) = value 0 (units d).
Proof.
  induction d; cbn [Pos.of_uint units value]; [reflexivity|exact IHd|..];
    cbn [Z.of_N]; rewrite value_acc; f_equal.
Qed.


Lemma value_grows s acc :
  0 ≤ acc → Forall (λ c, isDigit c = true) s →
  acc * 10 ^ Z.of_nat (length s) ≤ value acc s.
Proof.
  intros Hacc Hs. revert acc Hacc.
  induction Hs as [|c s Hc _ IH]; intros acc Hacc.
  - cbn [length value]. lia.
  - cbn [length value]. unfold isDigit in Hc.
    apply andb_true_iff in Hc as [Hlo Hhi].
    apply N.leb_le in Hlo, Hhi.
    etrans; [|apply IH; lia].
    rewrite Nat2Z.inj_succ, Z.pow_succ_r by lia.
    pose proof (Z.pow_nonneg 10 (Z.of_nat (length s))). nia.
Qed.

(** The numeral of a positive number does not begin with the digit 0. *)
Lemma to_uint_head p : ∀ l, Pos.to_uint p ≠ Decimal.D0 l.
Proof.
  intros l Hd.
  assert (Decimal.unorm (Pos.to_uint p) = Pos.to_uint p) as Hnorm.
  { rewrite <- DecimalPos.Unsigned.to_of, DecimalPos.Unsigned.of_to.
    reflexivity. }
  pose proof (DecimalPos.Unsigned.to_uint_nonzero p) as Hzero.
  rewrite Hd in Hnorm, Hzero.
  destruct l as [| | | | | | | | | |]; [by apply Hzero|..];
    match type of Hnorm with
    | Decimal.unorm (Decimal.D0 ?l) = _ =>
        pose proof (DecimalFacts.nb_digits_unorm l ltac:(discriminate))
          as Hle;
        change (Decimal.unorm (Decimal.D0 l)) with (Decimal.unorm l)
          in Hnorm;
        rewrite Hnorm in Hle; cbn [Decimal.nb_digits] in Hle; lia
    end.
Qed.

(** A number below [10 ^ k] has at most [k] digits. *)
Lemma decimal_length z k :
  - 10 ^ Z.of_nat k < z < 10 ^ Z.of_nat k →
  (length (decimal z) ≤ S k)%nat.
Proof.
  assert (∀ p, Z.pos p < 10 ^ Z.of_nat k →
               (length (units (Pos.to_uint p)) ≤ k)%nat) as Hp.
  { intros p Hlt.
    pose proof (value_units (Pos.to_uint p)) as Hv.
    rewrite DecimalPos.Unsigned.of_to in Hv. cbn [Z.of_N] in Hv.
    pose proof (to_uint_head p) as Hhead.
    pose proof (DecimalPos.Unsigned.to_uint_nonnil p) as Hnil.
    pose proof (units_digits (Pos.to_uint p)) as Hd.
    destruct (Pos.to_uint p) as [|l|l|l|l|l|l|l|l|l|l];
      [done|by edestruct Hhead|..];
      cbn [units value length] in *; inversion_clear Hd as [|? ? _ Hl];
      match type of Hv with
      | _ = value ?a _ =>
          pose proof (value_grows _ a ltac:(lia) Hl) as Hge
      end;
      (assert (10 ^ Z.of_nat (length (units l)) < 10 ^ Z.of_nat k) as Hpow
         by lia);
      apply Z.pow_lt_mono_r_iff in Hpow; lia. }
  intros Hz. rewrite decimal_units. destruct z as [|p|p].
  - cbn [length]. lia.
  - specialize (Hp p ltac:(lia)). lia.
  - cbn [length]. specialize (Hp p ltac:(lia)). lia.
Qed.

(** A text is cut at its first underscore in one way only. *)
Lemma app_underscore (a a' t t' : jsstring) :
  Forall (λ c, c ≠ 95%N) a → Forall (λ c, c ≠ 95%N) a' →
  a ++ 95%N :: t = a' ++ 95%N :: t' → a = a' ∧ t = t'.
Proof.
  intros Ha. revert a'. induction Ha as [|c a Hc _ IH]; intros a' Ha' H.
  - destruct Ha' as [|c' a' Hc' _]; [by injection H|].
    cbn in H. injection H as H _. congruence.
  - destruct Ha' as [|c' a' Hc' Ha']; cbn in H.
    + injection H as H _. congruence.
    + injection H as -> H. destruct (IH _ Ha' H) as [-> ->]. done.
Qed.

End DigitsFacts.
(** ** Scoring engine *)

Module ScoringFacts.
Import Scoring.

Example Math_round_examples :
  Math_round 2.5 = 3 /\ Math_round (-2.5) = -2 /\ Math_round 2.4 = 2
  /\ Math_round 0.49999999999999994 = 0 /\ Math_round (-0.5) = 0
  /\ Math_round 54.25 = 54 /\ Math_round (num 100) = 100.
Proof. vm_compute. repeat split. Qed.

(** The rounded rational sum, in integers. *)
Lemma roundHalfUp_exactSum cq doc sec maint test dep :
  roundHalfUp (exactSum cq doc sec maint test dep)
  = roundHundredths (20 * cq + 15 * doc + 20 * sec + 20 * maint
                     + 15 * test + 10 * dep).
Proof.
  unfold roundHalfUp, roundHundredths.
  rewrite (Qfloor_comp _
             ((2 * (20 * cq + 15 * doc + 20 * sec + 20 * maint
                    + 15 * test + 10 * dep) + 100) # 200)).
  - reflexivity.
  - unfold exactSum, Qeq, Qplus, Qmult, inject_Z. cbn [Qnum Qden]. lia.
Qed.

Lemma forallb_In {A} (f : A -> bool) (l : list A) (x : A) :
  forallb f l = true -> In x l -> f x = true.
Proof. intros H Hin. exact (proj1 (forallb_forall f l) H x Hin). Qed.

Lemma agrees_everywhere :
  forallb (fun cq => forallb (fun doc => forallb (fun sec =>
  forallb (fun maint => forallb (fun test => forallb (fun dep =>
    agrees cq doc sec maint test dep)
  dependenciesValues) testCoverageValues) maintainabilityValues)
  securityValues) documentationValues) codeQualityValues = true.
Proof. vm_compute. reflexivity. Qed.

Lemma agrees_on_values cq doc sec maint test dep :
  In cq codeQualityValues -> In doc documentationValues ->
  In sec securityValues -> In maint maintainabilityValues ->
  In test testCoverageValues -> In dep dependenciesValues ->
  agrees cq doc sec maint test dep = true.
Proof.
  intros Hcq Hdoc Hsec Hmaint Htest Hdep.
  pose proof (forallb_In _ _ _ agrees_everywhere Hcq) as H1.
  pose proof (forallb_In _ _ _ H1 Hdoc) as H2.
  pose proof (forallb_In _ _ _ H2 Hsec) as H3.
  pose proof (forallb_In _ _ _ H3 Hmaint) as H4.
  pose proof (forallb_In _ _ _ H4 Htest) as H5.
  exact (forallb_In _ _ _ H5 Hdep).
Qed.

Ltac in_values := cbn; repeat (first [left; reflexivity | right]).

Lemma codeQuality_values m :
  In (score (codeQualityOf m)) codeQualityValues.
Proof.
  unfold codeQualityOf, adjust.
  destruct (hasTypeScript m), (strictMode m), (hasLinting m),
    (hasPrettier m), (hasErrorHandling (codePatterns m)); in_values.
Qed.

Lemma documentation_values m :
  In (score (documentationOf m)) documentationValues.
Proof.
  unfold documentationOf, adjust.
  destruct (readmeQuality m), (hasChangelog m), (hasLicense m); in_values.
Qed.

Lemma security_values m : In (score (securityOf m)) securityValues.
Proof.
  unfold securityOf, adjust.
  destruct (hasSecurityConfig m), (nonEmpty (exposedSecrets m)),
    (nonEmpty (vulnerablePatterns m)); in_values.
Qed.

Lemma maintainability_values m :
  In (score (maintainabilityOf m)) maintainabilityValues.
Proof.
  unfold maintainabilityOf, adjust.
  destruct (hasCI m), (hasTypeScript m), (hasLinting m); in_values.
Qed.

Lemma testCoverage_values m :
  In (score (testCoverageOf m)) testCoverageValues.
Proof.
  unfold testCoverageOf, adjust.
  destruct (hasTests m), (hasCI m); in_values.
Qed.

Lemma dependencies_values m :
  In (score (dependenciesOf m)) dependenciesValues.
Proof.
  unfold dependenciesOf, adjust.
  destruct (nonEmpty (vulnerablePatterns m)), (50 <? dependencyCount m);
    in_values.
Qed.

Lemma values_in_range (l : list Z) z :
  forallb (fun v => (0 <=? v) && (v <=? 100)) l = true ->
  In z l -> inScoreRange z.
Proof.
  intros H Hin. pose proof (forallb_In _ _ _ H Hin) as Hz.
  unfold inScoreRange. apply andb_prop in Hz. lia.
Qed.

Example calculateScores_typescriptOnly :
  let s := calculateScores typescriptOnly in
  (codeQuality s, documentation s, security s, maintainability s,
   testCoverage s, dependencies s, overall s)
  = (70, 15, 70, 65, 20, 80, 54)
  /\ factors (bd_codeQuality (breakdown s)) = [lit "+20: TypeScript"]
  /\ factors (bd_documentation (breakdown s))
     = [lit "README: missing"; lit "-15: No LICENSE"].
Proof. vm_compute. repeat split. Qed.

(** C1: for every metrics value the seven scores are integers between 0
    and 100, and [overall], which the code computes in binary64
    arithmetic as [Math.round] of the weighted sum of the six category
    scores it returns, is that sum over the rationals (weights 0.20,
    0.15, 0.20, 0.20, 0.15, 0.10) rounded to the nearest integer. *)
Theorem calculateScores_range_and_overall (m : CodeMetrics) :
  let s := calculateScores m in
  inScoreRange (overall s) /\ inScoreRange (codeQuality s) /\
  inScoreRange (documentation s) /\ inScoreRange (security s) /\
  inScoreRange (maintainability s) /\ inScoreRange (testCoverage s) /\
  inScoreRange (dependencies s) /\
  overall s =
    Math_round (weightedSum (codeQuality s) (documentation s) (security s)
                  (maintainability s) (testCoverage s) (dependencies s)) /\
  overall s = roundHalfUp (exactWeightedSum s).
Proof.
  intros s.
  pose proof (codeQuality_values m) as Hcq.
  pose proof (documentation_values m) as Hdoc.
  pose proof (security_values m) as Hsec.
  pose proof (maintainability_values m) as Hmaint.
  pose proof (testCoverage_values m) as Htest.
  pose proof (dependencies_values m) as Hdep.
  pose proof (agrees_on_values _ _ _ _ _ _ Hcq Hdoc Hsec Hmaint Htest Hdep)
    as Hag.
  unfold agrees in Hag. cbv zeta in Hag.
  apply andb_prop in Hag as [Hag Hhi]. apply andb_prop in Hag as [Hag Hlo].
  apply andb_prop in Hag as [_ Heq].
  apply Z.eqb_eq in Heq. apply Z.leb_le in Hlo, Hhi.
  rewrite <- roundHalfUp_exactSum in Heq.
  assert (Hr : forall (l : list Z) z,
             forallb (fun v => (0 <=? v) && (v <=? 100)) l = true ->
             In z l -> inScoreRange z) by exact values_in_range.
  split; [exact (conj Hlo Hhi) |].
  split; [exact (Hr codeQualityValues _ eq_refl Hcq) |].
  split; [exact (Hr documentationValues _ eq_refl Hdoc) |].
  split; [exact (Hr securityValues _ eq_refl Hsec) |].
  split; [exact (Hr maintainabilityValues _ eq_refl Hmaint) |].
  split; [exact (Hr testCoverageValues _ eq_refl Htest) |].
  split; [exact (Hr dependenciesValues _ eq_refl Hdep) |].
  split; [exact eq_refl | exact Heq].
Qed.

(** The claim C9 as the specification words it fails: an ESLint
    configuration adds 10 to the TypeScript-only score. *)
Lemma codeQuality_70_refuted :
  ~ (forall m : CodeMetrics,
       hasTests m = false -> hasCI m = false ->
       hasTypeScript m = true -> strictMode m = false ->
       codeQuality (calculateScores m) = 70).
Proof.
  intros H. specialize (H typescriptLinted eq_refl eq_refl eq_refl eq_refl).
  vm_compute in H. discriminate H.
Qed.

(** C9, amended: with [hasTests = false], [hasCI = false],
    [hasTypeScript = true] and [strictMode = false] the code-quality
    score is 50 + 20 = 70 plus the bonuses for linting (10), Prettier (5)
    and error handling (5); it is 70 when none of these three holds. *)
Theorem codeQuality_typescript_no_strict (m : CodeMetrics) :
  hasTests m = false -> hasCI m = false ->
  hasTypeScript m = true -> strictMode m = false ->
  codeQuality (calculateScores m) =
    50 + 20 + (if hasLinting m then 10 else 0)
    + (if hasPrettier m then 5 else 0)
    + (if hasErrorHandling (codePatterns m) then 5 else 0)
  /\ (hasLinting m = false -> hasPrettier m = false ->
      hasErrorHandling (codePatterns m) = false ->
      codeQuality (calculateScores m) = 70).
Proof.
  intros _ _ Hts Hstrict. cbn. unfold codeQualityOf, adjust.
  rewrite Hts, Hstrict.
  destruct (hasLinting m), (hasPrettier m),
    (hasErrorHandling (codePatterns m)); cbn; split; try reflexivity;
    intros; discriminate.
Qed.

Lemma codeQuality_typescript_no_strict_witness :
  codeQuality (calculateScores typescriptOnly) = 70.
Proof.
  apply (codeQuality_typescript_no_strict typescriptOnly);
    reflexivity.
Defined.

End ScoringFacts.

(** ** Rate limiter *)

Module RateLimitFacts.
Import RateLimit.

Section WithConfig.

Variables WINDOW_MS MAX_REQUESTS : Z.

Local Abbreviation check := (checkRateLimit WINDOW_MS MAX_REQUESTS).
Local Abbreviation sweep := cleanupExpiredRecords.
Local Abbreviation inBounds := (recordsInBounds MAX_REQUESTS).

(** The three ways a check can go. *)
Lemma check_restart now ip st :
  noLiveRecord now ip st →
  check now ip st =
    ({| allowed := true; remaining := MAX_REQUESTS - 1 |},
     setRecord ip {| count := 1; resetTime := now + WINDOW_MS |}
       (ensureCleanupRunning st)).
Proof.
  unfold noLiveRecord, checkRateLimit. cbn.
  destruct (rateLimitMap st !! ip) as [r|]; [|done].
  intros Hlt. by rewrite (proj2 (Z.gtb_lt _ _) Hlt).
Qed.

Lemma check_reject now ip st r :
  rateLimitMap st !! ip = Some r → now ≤ resetTime r →
  MAX_REQUESTS ≤ count r →
  check now ip st =
    ({| allowed := false; remaining := 0 |}, ensureCleanupRunning st).
Proof.
  intros Hr Hnow Hmax. unfold checkRateLimit. cbn. rewrite Hr.
  destruct (Z.gtb_spec now (resetTime r)); [lia|].
  destruct (Z.geb_spec (count r) MAX_REQUESTS); [done | lia].
Qed.

Lemma check_count now ip st r :
  rateLimitMap st !! ip = Some r → now ≤ resetTime r →
  count r < MAX_REQUESTS →
  check now ip st =
    ({| allowed := true; remaining := MAX_REQUESTS - (count r + 1) |},
     setRecord ip {| count := count r + 1; resetTime := resetTime r |}
       (ensureCleanupRunning st)).
Proof.
  intros Hr Hnow Hmax. unfold checkRateLimit. cbn. rewrite Hr.
  destruct (Z.gtb_spec now (resetTime r)); [lia|].
  destruct (Z.geb_spec (count r) MAX_REQUESTS); [lia | done].
Qed.

(** A check of one client leaves the records of the others alone. *)
Lemma check_other now ip ip' st :
  ip ≠ ip' →
  rateLimitMap (check now ip st).2 !! ip' = rateLimitMap st !! ip'.
Proof.
  intros Hne. unfold checkRateLimit. cbn.
  destruct (rateLimitMap st !! ip) as [r|]; cbn;
    repeat case_match; cbn; by rewrite ?lookup_insert_ne.
Qed.

Lemma sweep_lookup now ip st :
  rateLimitMap (sweep now st) !! ip =
    match rateLimitMap st !! ip with
    | Some r => if decide (resetTime r < now) then None else Some r
    | None => None
    end.
Proof.
  unfold cleanupExpiredRecords. cbn.
  destruct (rateLimitMap st !! ip) as [r|] eqn:Hr.
  - case_decide.
    + apply map_lookup_filter_None. right. intros r' Hr'. cbn.
      rewrite Hr in Hr'. injection Hr' as <-. tauto.
    + apply map_lookup_filter_Some. split; [done|]. cbn. lia.
  - apply map_lookup_filter_None. by left.
Qed.

(** One step keeps the bounds on the stored counts, and its result is
    in range and tells the stored count. *)
Lemma check_step now ip st :
  1 ≤ MAX_REQUESTS → inBounds st →
  inBounds (check now ip st).2 ∧
  0 ≤ remaining (check now ip st).1 ≤ MAX_REQUESTS - 1 ∧
  (allowed (check now ip st).1 = true →
   ∃ r, rateLimitMap (check now ip st).2 !! ip = Some r ∧
        remaining (check now ip st).1 = MAX_REQUESTS - count r).
Proof.
  intros Hmax Hb. unfold recordsInBounds in *.
  destruct (rateLimitMap st !! ip) as [r|] eqn:Hr.
  - pose proof (Hb _ _ Hr) as Hc. cbn in Hc.
    destruct (decide (resetTime r < now)) as [Hexp|Hlive].
    + rewrite check_restart by (unfold noLiveRecord; by rewrite Hr). cbn.
      split_and!; [|lia|lia|].
      * apply map_Forall_insert_2; [cbn; lia | done].
      * intros _. eexists. rewrite lookup_insert_eq. split; [done|]. cbn. lia.
    + destruct (decide (count r < MAX_REQUESTS)) as [Hlt|Hge].
      * rewrite (check_count _ _ _ r) by (done || lia). cbn.
        split_and!; [|lia|lia|].
        -- apply map_Forall_insert_2; [cbn; lia | done].
        -- intros _. eexists. rewrite lookup_insert_eq. split; [done|].
           cbn. lia.
      * rewrite (check_reject _ _ _ r) by (done || lia). cbn.
        split_and!; [done|lia|lia|discriminate].
  - rewrite check_restart by (unfold noLiveRecord; by rewrite Hr). cbn.
    split_and!; [|lia|lia|].
    + apply map_Forall_insert_2; [cbn; lia | done].
    + intros _. eexists. rewrite lookup_insert_eq. split; [done|]. cbn. lia.
Qed.

Lemma sweep_step now st : inBounds st → inBounds (sweep now st).
Proof.
  unfold recordsInBounds, cleanupExpiredRecords. cbn. intros Hb ip r Hr.
  apply map_lookup_filter_Some in Hr as [Hr _]. by apply (Hb ip).
Qed.

(** C10: from the empty map, after a finite sequence of
    [checkRateLimit] and [cleanupExpiredRecords] calls, each stored
    record has [1 <= count <= MAX_REQUESTS]; the result of a further
    [checkRateLimit] has [0 <= remaining <= MAX_REQUESTS - 1], and when
    it allows, [remaining] is [MAX_REQUESTS] minus the count it has
    stored.  [MAX_REQUESTS], a constant of [./config], is taken to be at
    least 1. *)
Theorem limiter_invariant (st : Limiter) :
  1 ≤ MAX_REQUESTS →
  reachable WINDOW_MS MAX_REQUESTS st →
  inBounds st ∧
  ∀ now ip,
    0 ≤ remaining (check now ip st).1 ≤ MAX_REQUESTS - 1 ∧
    (allowed (check now ip st).1 = true →
     ∃ r, rateLimitMap (check now ip st).2 !! ip = Some r ∧
          1 ≤ count r ≤ MAX_REQUESTS ∧
          remaining (check now ip st).1 = MAX_REQUESTS - count r).
Proof.
  intros Hmax Hreach.
  assert (Hb : inBounds st).
  { induction Hreach as [|now ip st _ IH|now st _ IH].
    - unfold recordsInBounds, initial. cbn. apply map_Forall_empty.
    - by apply check_step.
    - by apply sweep_step. }
  split; [done|]. intros now ip.
  destruct (check_step now ip st Hmax Hb) as (Hb' & Hrem & Hal).
  split; [done|]. intros Ha. destruct (Hal Ha) as (r & Hr & Heq).
  exists r. split_and!; try done; by apply (Hb' ip r Hr).
Qed.

(** C3: a check that rejects has found a record of the client whose
    window is current and whose count is at or above the maximum, and
    it leaves the map, and so this record with its count and its reset
    time, as it was. *)
Theorem reject_keeps_record (now : Z) (ip : jsstring) (st : Limiter) :
  allowed (check now ip st).1 = false →
  rateLimitMap (check now ip st).2 = rateLimitMap st ∧
  remaining (check now ip st).1 = 0 ∧
  ∃ r, rateLimitMap st !! ip = Some r ∧ now ≤ resetTime r ∧
       MAX_REQUESTS ≤ count r ∧
       rateLimitMap (check now ip st).2 !! ip = Some r.
Proof.
  unfold checkRateLimit. cbn.
  destruct (rateLimitMap st !! ip) as [r|] eqn:Hr; cbn; [|discriminate].
  destruct (Z.gtb_spec now (resetTime r)); cbn; [discriminate|].
  destruct (Z.geb_spec (count r) MAX_REQUESTS); cbn; [|discriminate].
  intros _. split_and!; try done. exists r. split_and!; try done; lia.
Qed.

(** A record at or above the maximum, in its window, makes the check
    reject. *)
Lemma full_window_rejects now ip st r :
  rateLimitMap st !! ip = Some r → now ≤ resetTime r →
  MAX_REQUESTS ≤ count r →
  allowed (check now ip st).1 = false.
Proof. intros Hr Hn Hc. by rewrite (check_reject _ _ _ r). Qed.

Lemma run_check now ip calls st :
  run WINDOW_MS MAX_REQUESTS (Check now ip :: calls) st =
    ((ip, (check now ip st).1)
       :: (run WINDOW_MS MAX_REQUESTS calls (check now ip st).2).1,
     (run WINDOW_MS MAX_REQUESTS calls (check now ip st).2).2).
Proof.
  cbn [run]. destruct (check now ip st) as [res st']. cbn [fst snd].
  by destruct (run WINDOW_MS MAX_REQUESTS calls st').
Qed.

Lemma shifted_verdicts (c : Z) (n : nat) :
  map (λ k : nat, bool_decide (c + 1 + Z.of_nat k < MAX_REQUESTS)) (seq 0 n)
  = map (λ k : nat, bool_decide (c + Z.of_nat k < MAX_REQUESTS)) (seq 1 n).
Proof.
  rewrite <- seq_shift, map_map. apply map_ext. intros k.
  apply bool_decide_ext. lia.
Qed.

Lemma rejected_verdicts (c : Z) (n : nat) :
  MAX_REQUESTS ≤ c →
  map (λ k : nat, bool_decide (c + Z.of_nat k < MAX_REQUESTS)) (seq 0 n)
  = map (λ k : nat, bool_decide (c + Z.of_nat k < MAX_REQUESTS)) (seq 1 n).
Proof.
  intros Hc. rewrite <- seq_shift, map_map. apply map_ext. intros k.
  rewrite !bool_decide_eq_false_2 by lia. done.
Qed.

(** Inside the window of a record with count [c], the verdicts of the
    client are decided by the count alone. *)
Lemma run_in_window ip ends calls : ∀ st r,
  rateLimitMap st !! ip = Some r → resetTime r = ends →
  Forall (λ c, clock c ≤ ends) calls →
  verdicts ip (run WINDOW_MS MAX_REQUESTS calls st).1 =
    map (λ k : nat, bool_decide (count r + Z.of_nat k < MAX_REQUESTS))
      (seq 0 (checksOf ip calls)) ∧
  ∃ r', rateLimitMap (run WINDOW_MS MAX_REQUESTS calls st).2 !! ip = Some r'
        ∧ resetTime r' = ends.
Proof.
  induction calls as [|[now ip'|now] calls IH]; intros st r Hr Hends Hcl.
  - cbn. split; [done|]. by exists r.
  - apply Forall_cons in Hcl as [Hnow Hcl]. cbn in Hnow.
    rewrite run_check. cbn [fst snd checksOf]. unfold verdicts.
    destruct (decide (ip' = ip)) as [->|Hne].
    + rewrite filter_cons_True by done. cbn [map seq].
      destruct (decide (count r < MAX_REQUESTS)) as [Hlt|Hge].
      * rewrite (check_count _ _ _ r) by (done || lia). cbn [fst snd].
        edestruct (IH (setRecord ip
                        {| count := count r + 1; resetTime := resetTime r |}
                        (ensureCleanupRunning st))) as [Hv Hr'];
          [by cbn; rewrite lookup_insert_eq | done | done |].
        split; [|exact Hr']. unfold verdicts in Hv. rewrite Hv. cbn.
        rewrite shifted_verdicts. f_equal.
        symmetry. apply bool_decide_eq_true. lia.
      * rewrite (check_reject _ _ _ r) by (done || lia). cbn [fst snd].
        destruct (IH (ensureCleanupRunning st) r) as [Hv Hr'];
          [done | done | done |].
        split; [|exact Hr']. unfold verdicts in Hv. rewrite Hv. cbn.
        rewrite rejected_verdicts by lia. f_equal.
        symmetry. apply bool_decide_eq_false. lia.
    + rewrite filter_cons_False by done.
      apply IH; [|done|done]. by rewrite check_other.
  - apply Forall_cons in Hcl as [Hnow Hcl]. cbn in Hnow. cbn [run checksOf].
    apply IH; [|done|done].
    rewrite sweep_lookup, Hr. rewrite decide_False by lia. done.
Qed.

(** C2: a client with no record in force opens a window with its
    request at [start]; whatever calls follow while the clock does not
    pass the reset time [start + WINDOW_MS] (requests of this client, of
    others, sweeps), the requests of the client are allowed up to the
    [MAX_REQUESTS]-th and rejected from the next one on; a request once
    the reset time has passed is allowed and stores the count 1.
    [MAX_REQUESTS] is taken to be at least 1. *)
Theorem window_quota (ip : jsstring) (start : Z) (calls : list Call)
    (st : Limiter) :
  1 ≤ MAX_REQUESTS →
  noLiveRecord start ip st →
  Forall (λ c, clock c ≤ start + WINDOW_MS) calls →
  let out := run WINDOW_MS MAX_REQUESTS (Check start ip :: calls) st in
  verdicts ip out.1 =
    map (λ k : nat, bool_decide (Z.of_nat k < MAX_REQUESTS))
      (seq 0 (S (checksOf ip calls))) ∧
  ∀ later, start + WINDOW_MS < later →
    allowed (check later ip out.2).1 = true ∧
    rateLimitMap (check later ip out.2).2 !! ip =
      Some {| count := 1; resetTime := later + WINDOW_MS |}.
Proof.
  intros Hmax Hfresh Hcl out. subst out. rewrite run_check.
  rewrite check_restart by done. cbn [fst snd].
  edestruct (run_in_window ip (start + WINDOW_MS) calls
              (setRecord ip {| count := 1; resetTime := start + WINDOW_MS |}
                 (ensureCleanupRunning st)))
    as [Hv (r' & Hr' & Hends)];
    [by cbn; rewrite lookup_insert_eq | done | done |].
  split.
  - unfold verdicts. rewrite filter_cons_True by done. cbn [map seq].
    unfold verdicts in Hv. rewrite Hv. cbn [count]. f_equal.
    + symmetry. apply bool_decide_eq_true. cbn. lia.
    + rewrite <- seq_shift, map_map. apply map_ext. intros k.
      apply bool_decide_ext. lia.
  - intros later Hlater.
    rewrite check_restart by (unfold noLiveRecord; rewrite Hr'; lia).
    cbn. by rewrite lookup_insert_eq.
Qed.

End WithConfig.

Lemma limiter_invariant_witness :
  recordsInBounds 10 initial ∧
  ∀ now ip,
    0 ≤ remaining (checkRateLimit 60000 10 now ip initial).1 ≤ 10 - 1 ∧
    (allowed (checkRateLimit 60000 10 now ip initial).1 = true →
     ∃ r, rateLimitMap (checkRateLimit 60000 10 now ip initial).2 !! ip
            = Some r ∧
          1 ≤ count r ≤ 10 ∧
          remaining (checkRateLimit 60000 10 now ip initial).1
            = 10 - count r).
Proof.
  apply (limiter_invariant 60000 10 initial); [lia | constructor].
Defined.

Lemma reject_keeps_record_witness :
  rateLimitMap (checkRateLimit 1000 2 500 (lit "10.0.0.1") limiter_full).2
    = rateLimitMap limiter_full ∧
  remaining (checkRateLimit 1000 2 500 (lit "10.0.0.1") limiter_full).1 = 0 ∧
  ∃ r, rateLimitMap limiter_full !! lit "10.0.0.1" = Some r ∧
       500 ≤ resetTime r ∧ 2 ≤ count r ∧
       rateLimitMap
         (checkRateLimit 1000 2 500 (lit "10.0.0.1") limiter_full).2
         !! lit "10.0.0.1" = Some r.
Proof.
  apply (reject_keeps_record 1000 2 500 (lit "10.0.0.1") limiter_full).
  reflexivity.
Defined.

Lemma window_quota_witness :
  let ip := lit "10.0.0.1" in
  let out :=
    run 1000 2 [Check 0 ip; Check 10 ip; Sweep 15; Check 20 ip] initial in
  verdicts ip out.1 = [true; true; false] ∧
  ∀ later, 0 + 1000 < later →
    allowed (checkRateLimit 1000 2 later ip out.2).1 = true ∧
    rateLimitMap (checkRateLimit 1000 2 later ip out.2).2 !! ip =
      Some {| count := 1; resetTime := later + 1000 |}.
Proof.
  intros ip out.
  apply (window_quota 1000 2 ip 0 [Check 10 ip; Sweep 15; Check 20 ip]
           initial).
  - lia.
  - exact I.
  - repeat constructor; cbn; lia.
Defined.

End RateLimitFacts.

(** ** Diagram codec *)

Module MermaidFacts.
Import Mermaid.

(** *** [sanitizeId] *)

Lemma letter_is_idUnit c : isLetter c = true → isIdUnit c = true.
Proof. unfold isIdUnit. by intros ->. Qed.

Lemma cleanUnits_idUnits s : idUnitsOnly (cleanUnits s).
Proof.
  unfold idUnitsOnly, cleanUnits. apply List.Forall_map, Forall_forall.
  intros c _. by destruct (isIdUnit c) eqn:Hc.
Qed.

Lemma cleanUnits_fixed s : idUnitsOnly s → cleanUnits s = s.
Proof.
  unfold idUnitsOnly, cleanUnits. induction 1 as [|c s Hc _ IH]; [done|].
  cbn. by rewrite Hc, IH.
Qed.

Lemma letterFirst_idUnits s : idUnitsOnly s → idUnitsOnly (letterFirst s).
Proof.
  intros Hs. destruct s as [|c s]; [done|]. cbn.
  destruct (isLetter c); [done|].
  apply Forall_cons in Hs as [_ Hs]. by apply Forall_cons.
Qed.

Lemma letterFirst_letter c s : startsWithLetter (letterFirst (c :: s)).
Proof.
  cbn. destruct (isLetter c) eqn:Hc.
  - by exists c, s.
  - by exists 110%N, s.
Qed.

Lemma letterFirst_fixed s : startsWithLetter s → letterFirst s = s.
Proof. intros (c & t & -> & Hc). cbn. by rewrite Hc. Qed.

Lemma sanitizeId_nonempty id w :
  id ≠ [] → sanitizeId id w = (cleaned id, w).
Proof. by destruct id. Qed.

Lemma cleaned_letter id : id ≠ [] → startsWithLetter (cleaned id).
Proof.
  destruct id as [|c s]; [done|]. intros _. unfold cleaned.
  destruct (letterFirst_letter (if isIdUnit c then c else 95%N)
              (cleanUnits s)) as (d & t & Heq & Hd).
  cbn [cleanUnits map]. fold (cleanUnits s). rewrite Heq. cbn.
  by exists d, (take 29 t).
Qed.

Lemma cleaned_idUnits id : idUnitsOnly (cleaned id).
Proof.
  unfold cleaned, slice0. apply Forall_take, letterFirst_idUnits,
    cleanUnits_idUnits.
Qed.

Lemma cleaned_length id : (length (cleaned id) ≤ 30)%nat.
Proof. unfold cleaned, slice0. rewrite length_take. lia. Qed.

Lemma cleaned_fixed s :
  startsWithLetter s → idUnitsOnly s → (length s ≤ 30)%nat → cleaned s = s.
Proof.
  intros Hl Hu Hn. unfold cleaned, slice0.
  rewrite cleanUnits_fixed, letterFirst_fixed by done.
  by apply take_ge.
Qed.

Example sanitizeId_example w :
  sanitizeId (lit "9 lives/api.v2") w = (lit "n_lives_api_v2", w).
Proof. reflexivity. Qed.

Example sanitizeId_empty_example :
  (sanitizeId [] (steady noon)).1 = lit "node_1700000000000_k3f9".
Proof. reflexivity. Qed.

(** What [sanitizeId] returns on the empty string. *)
Lemma randomTail_length e : (length (randomTail e) ≤ 4)%nat.
Proof. unfold randomTail, slice. rewrite length_take. lia. Qed.

Lemma digit36_base36 d : (d <? 36)%N = true → isBase36 (digit36 d) = true.
Proof.
  intros Hd. apply N.ltb_lt in Hd. unfold isBase36, isDigit, digit36.
  destruct (N.ltb_spec d 10).
  - apply orb_true_iff. left. apply andb_true_iff.
    split; apply N.leb_le; lia.
  - apply orb_true_iff. right. apply andb_true_iff.
    split; apply N.leb_le; lia.
Qed.

Lemma randomTail_base36 e : Forall (λ c, isBase36 c = true) (randomTail e).
Proof.
  unfold randomTail, slice, randomText.
  pose proof (randomDigits_base36 e) as Hd.
  apply Is_true_eq_true in Hd. rewrite forallb_forall in Hd.
  destruct (randomDigits e) as [|d ds] eqn:Hds; [constructor|].
  change (drop 2 (lit "0." ++ map digit36 (d :: ds)))
    with (map digit36 (d :: ds)).
  apply Forall_take, List.Forall_map, Forall_forall.
  intros d' Hin. apply digit36_base36, Hd.
  by apply list_elem_of_In.
Qed.

Lemma base36_is_idUnit c : isBase36 c = true → isIdUnit c = true.
Proof.
  unfold isBase36, isIdUnit, isLetter. intros Hc.
  apply orb_true_iff in Hc as [-> | ->]; [by rewrite orb_true_r|].
  by rewrite orb_true_r.
Qed.

Lemma dateNow_range e :
  -8640000000000000 ≤ dateNow e ≤ 8640000000000000.
Proof.
  pose proof (dateNow_timeValue e) as Ht. apply Is_true_eq_true in Ht.
  unfold isTimeValue in Ht. apply andb_true_iff in Ht as [Hlo Hhi].
  apply Z.leb_le in Hlo, Hhi. lia.
Qed.

Lemma sanitizeId_empty w :
  sanitizeId [] w =
    (lit "node_" ++ decimal (dateNow (w 0%nat)) ++ lit "_"
       ++ randomTail (w 0%nat),
     λ n, w (S n)).
Proof. reflexivity. Qed.

Lemma generated_letter e :
  startsWithLetter
    (lit "node_" ++ decimal (dateNow e) ++ lit "_" ++ randomTail e).
Proof. by eexists _, _. Qed.

Lemma generated_idUnits e :
  idUnitsOnly (lit "node_" ++ decimal (dateNow e) ++ lit "_" ++ randomTail e).
Proof.
  unfold idUnitsOnly. rewrite !Forall_app. split_and!.
  - by repeat constructor.
  - eapply Forall_impl; [apply DigitsFacts.decimal_signed|].
    intros c [Hc | ->]; [|done]. unfold isIdUnit. rewrite Hc.
    by rewrite orb_true_r.
  - by repeat constructor.
  - eapply Forall_impl; [apply randomTail_base36|].
    intros c. apply base36_is_idUnit.
Qed.

Lemma generated_length e :
  (length (lit "node_" ++ decimal (dateNow e) ++ lit "_" ++ randomTail e)
   ≤ 27)%nat.
Proof.
  rewrite !length_app.
  pose proof (randomTail_length e).
  pose proof (DigitsFacts.decimal_length (dateNow e) 16) as Hd.
  pose proof (dateNow_range e).
  change (10 ^ Z.of_nat 16) with 10000000000000000 in Hd.
  specialize (Hd ltac:(lia)).
  change (length (lit "node_")) with 5%nat.
  change (length (lit "_")) with 1%nat. lia.
Qed.

(** Two generated identifiers are the same only when the two readings
    of the clock and the two random tails are. *)
Lemma generated_inj e e' :
  lit "node_" ++ decimal (dateNow e) ++ lit "_" ++ randomTail e
  = lit "node_" ++ decimal (dateNow e') ++ lit "_" ++ randomTail e' →
  dateNow e = dateNow e' ∧ randomTail e = randomTail e'.
Proof.
  intros H. apply app_inv_head in H.
  assert (∀ z, Forall (λ c, c ≠ 95%N) (decimal z)) as Hno.
  { intros z. eapply Forall_impl; [apply DigitsFacts.decimal_signed|].
    intros c [Hc | ->] Hc'; [rewrite Hc' in Hc|]; discriminate. }
  apply DigitsFacts.app_underscore in H as [Hd Ht]; [|apply Hno..].
  split; [by apply DigitsFacts.decimal_inj|exact Ht].
Qed.

(** The claim C5 as the specification words it fails on the empty
    string: two calls give two identifiers, so the result is no function
    of the input, and [sanitizeId(sanitizeId(x))], which makes a call of
    its own, differs from [sanitizeId(x)]. *)
Lemma sanitizeId_empty_not_deterministic :
  (sanitizeId [] (steady noon)).1 ≠ (sanitizeId [] (steady later)).1 ∧
  (sanitizeId (sanitizeId [] (steady noon)).1 (steady later)).1
    ≠ (sanitizeId [] (steady later)).1.
Proof. split; vm_compute; discriminate. Qed.

(** C5, amended: whatever the input, the empty string too, the result
    of [sanitizeId] starts with a letter, contains only letters, digits,
    underscore and hyphen, has at most 30 code units, and is kept as it
    is by every later call of [sanitizeId] on it.  On an input that is
    not empty [sanitizeId] takes no reading and is deterministic.  On
    the empty string it is not: it takes one reading and returns
    [node_], the digits of [Date.now()], an underscore and at most four
    units of [0-9a-z], the first digits of [Math.random()] in base 36;
    two such calls return the same identifier only when they read the
    same time and the same digits. *)
Theorem sanitizeId_sound (x : jsstring) (w w' : World) :
  let y := (sanitizeId x w).1 in
  startsWithLetter y ∧ idUnitsOnly y ∧ (length y ≤ 30)%nat ∧
  sanitizeId y w' = (y, w') ∧
  (x ≠ [] → sanitizeId x w = (y, w) ∧ sanitizeId x w' = (y, w')) ∧
  (x = [] →
   sanitizeId x w
     = (lit "node_" ++ decimal (dateNow (w 0%nat)) ++ lit "_"
          ++ slice 2 6 (randomText (w 0%nat)),
        λ n, w (S n)) ∧
   (length (slice 2 6 (randomText (w 0%nat))) ≤ 4)%nat ∧
   Forall (λ c, isBase36 c = true) (slice 2 6 (randomText (w 0%nat))) ∧
   ((sanitizeId x w').1 = y →
    dateNow (w' 0%nat) = dateNow (w 0%nat) ∧
    slice 2 6 (randomText (w' 0%nat)) = slice 2 6 (randomText (w 0%nat)))).
Proof.
  intros y. subst y. destruct x as [|c x].
  - rewrite sanitizeId_empty. cbn [fst].
    pose proof (generated_letter (w 0%nat)) as Hl.
    pose proof (generated_idUnits (w 0%nat)) as Hu.
    pose proof (generated_length (w 0%nat)) as Hn.
    split_and!; [exact Hl|exact Hu|lia| |done|].
    + rewrite sanitizeId_nonempty.
      * f_equal. apply cleaned_fixed; [exact Hl|exact Hu|lia].
      * destruct Hl as (d & t & -> & _). discriminate.
    + intros _. split_and!.
      * reflexivity.
      * apply randomTail_length.
      * apply randomTail_base36.
      * intros H. symmetry in H. apply generated_inj in H as [Hd Ht].
        split; [by symmetry|by symmetry].
  - rewrite !(sanitizeId_nonempty (c :: x)) by done. cbn [fst].
    split_and!.
    + apply cleaned_letter. done.
    + apply cleaned_idUnits.
    + apply cleaned_length.
    + assert (cleaned (c :: x) ≠ []) as Hne.
      { destruct (cleaned_letter (c :: x) ltac:(done)) as (d & t & -> & _).
        discriminate. }
      rewrite sanitizeId_nonempty by exact Hne. f_equal.
      apply cleaned_fixed;
        [by apply cleaned_letter|apply cleaned_idUnits|apply cleaned_length].
    + done.
    + intros H. discriminate H.
Qed.

Lemma sanitizeId_sound_witness :
  let made := lit "node_8640000000000000_" in
  let kept := lit "n_lives_api_v2" in
  (startsWithLetter made ∧ idUnitsOnly made ∧ (length made ≤ 30)%nat ∧
   sanitizeId made (steady later) = (made, steady later))
  ∧ (startsWithLetter kept ∧ idUnitsOnly kept ∧ (length kept ≤ 30)%nat ∧
     sanitizeId kept (steady later) = (kept, steady later) ∧
     sanitizeId (lit "9 lives/api.v2") (steady noon) = (kept, steady noon) ∧
     sanitizeId (lit "9 lives/api.v2") (steady later)
       = (kept, steady later)).
Proof.
  split.
  - pose proof (sanitizeId_sound [] (steady lastDay) (steady later)) as H.
    cbv zeta in H. destruct H as (Hl & Hu & Hn & Hf & _).
    exact (conj Hl (conj Hu (conj Hn Hf))).
  - pose proof (sanitizeId_sound (lit "9 lives/api.v2") (steady noon)
                  (steady later)) as H.
    cbv zeta in H. destruct H as (Hl & Hu & Hn & Hf & Hd & _).
    destruct (Hd ltac:(discriminate)) as [Hd1 Hd2].
    exact (conj Hl (conj Hu (conj Hn (conj Hf (conj Hd1 Hd2))))).
Defined.

(** *** [validateMermaidSyntax] *)

Lemma lowerUnit_not_D c : (68 =? lowerUnit c)%N = false.
Proof.
  unfold lowerUnit. apply N.eqb_neq.
  destruct (N.leb_spec 65 c), (N.leb_spec c 90); cbn; try lia;
    destruct (N.leb_spec 192 c), (N.leb_spec c 222); cbn; try lia;
    destruct (N.eqb_spec c 215); cbn; lia.
Qed.

(** A keyword with a capital D after [n] small letters is no prefix of
    a lower-cased text. *)
Tactic Notation "capital_D_after" integer(n) ident(t) :=
  unfold toLowerCase, lit; cbn [list_ascii_of_string map];
  do n (destruct t as [|? t]; [by rewrite ?andb_false_r|];
        cbn [map startsWith]);
  destruct t as [|? t]; cbn [map startsWith]; [by rewrite ?andb_false_r|];
  change (N_of_ascii "D") with 68%N;
  by rewrite lowerUnit_not_D, ?andb_false_r.

Lemma never_sequenceDiagram t :
  startsWith (toLowerCase t) (lit "sequenceDiagram") = false.
Proof. capital_D_after 8 t. Qed.

Lemma never_classDiagram t :
  startsWith (toLowerCase t) (lit "classDiagram") = false.
Proof. capital_D_after 5 t. Qed.

Lemma never_stateDiagram t :
  startsWith (toLowerCase t) (lit "stateDiagram") = false.
Proof. capital_D_after 5 t. Qed.

Lemma never_erDiagram t :
  startsWith (toLowerCase t) (lit "erDiagram") = false.
Proof. capital_D_after 2 t. Qed.

(** What the code accepts: the lower-cased, trimmed text begins with
    one of the five keywords that are written in small letters. *)
Lemma validate_accepts (text : jsstring) :
  validateMermaidSyntax (Some text) =
    existsb (λ start, startsWith (toLowerCase (trim text)) start) lowerStarts.
Proof.
  destruct text as [|c text]; [reflexivity|].
  unfold validateMermaidSyntax, validStarts, lowerStarts.
  cbn [existsb].
  rewrite never_sequenceDiagram, never_classDiagram, never_stateDiagram,
    never_erDiagram.
  cbn [orb]. by rewrite !orb_false_r.
Qed.

(** C4 on the code: a text that begins with [sequenceDiagram],
    [classDiagram], [stateDiagram] or [erDiagram] is rejected, although
    it begins with a recognized keyword; so are the sequence diagrams
    the codec generates itself. *)
Theorem validate_rejects_camelCase_keywords :
  let text := lit "sequenceDiagram" ++ nl ++ lit "    A->>B: hello" in
  validateMermaidSyntax (Some text) = false ∧
  beginsWithKeyword (Some text) = true ∧
  validateMermaidSyntax (Some (lit "classDiagram")) = false ∧
  validateMermaidSyntax (Some (lit "stateDiagram-v2")) = false ∧
  validateMermaidSyntax (Some (lit "erDiagram")) = false ∧
  validateMermaidSyntax (Some (code sequencePlaceholder)) = false.
Proof. cbv zeta. split_and!; vm_compute; reflexivity. Qed.

(** On the other inputs the code and the specification agree. *)
Lemma validate_null_or_empty :
  validateMermaidSyntax None = false ∧ validateMermaidSyntax (Some []) = false.
Proof. done. Qed.

Lemma validate_implies_keyword text :
  validateMermaidSyntax (Some text) = true →
  beginsWithKeyword (Some text) = true.
Proof.
  rewrite validate_accepts. unfold lowerStarts, beginsWithKeyword, validStarts.
  cbn [existsb].
  change (toLowerCase (lit "flowchart")) with (lit "flowchart").
  change (toLowerCase (lit "graph")) with (lit "graph").
  change (toLowerCase (lit "gantt")) with (lit "gantt").
  change (toLowerCase (lit "pie")) with (lit "pie").
  change (toLowerCase (lit "mindmap")) with (lit "mindmap").
  intros H. repeat (apply orb_prop in H as [H|H]); try discriminate H;
    rewrite H, ?orb_true_r; reflexivity.
Qed.

(** *** [processDiagrams] *)

Lemma extends_refl lines : extends lines lines.
Proof. exists []. by rewrite app_nil_r. Qed.

Lemma extends_snoc lines lines' l :
  extends (lines ++ [l]) lines' → extends lines lines'.
Proof. intros [more ->]. exists (l :: more). by rewrite <- app_assoc. Qed.

Lemma extends_app lines more : extends lines (lines ++ more).
Proof. by exists more. Qed.

Lemma extends_trans a b c : extends a b → extends b c → extends a c.
Proof. intros [m ->] [n ->]. exists (m ++ n). by rewrite app_assoc. Qed.

Lemma componentNodes_extends cs : ∀ lines groups w,
  extends lines (componentNodes cs lines groups w).1.1.
Proof.
  induction cs as [|c cs IH]; intros lines groups w; cbn.
  - apply extends_refl.
  - destruct (sanitizeId (comp_id c) w) as [safeId w1].
    eapply extends_snoc, IH.
Qed.

Lemma connectTargets_extends idMap fromId targets : ∀ lines added,
  extends lines (connectTargets idMap fromId targets lines added).1.
Proof.
  induction targets as [|t targets IH]; intros lines added; cbn.
  - apply extends_refl.
  - destruct (idMap !! t) as [[|c toId]|]; try apply IH.
    case_match; [eapply extends_snoc|]; apply IH.
Qed.

Lemma componentConnections_extends idMap cs : ∀ lines added,
  extends lines (componentConnections idMap cs lines added).
Proof.
  induction cs as [|c cs IH]; intros lines added; cbn.
  - apply extends_refl.
  - destruct (idMap !! comp_id c) as [[|d fromId]|]; try apply IH.
    pose proof (connectTargets_extends idMap (d :: fromId)
                  (default [] (connections c)) lines added) as H.
    destruct (connectTargets idMap (d :: fromId)
                (default [] (connections c)) lines added) as [lines1 added1].
    eapply extends_trans; [exact H | apply IH].
Qed.

Lemma flowNodes_extends ns : ∀ lines groups idMap w,
  extends lines (flowNodes ns lines groups idMap w).1.1.1.
Proof.
  induction ns as [|n ns IH]; intros lines groups idMap w; cbn.
  - apply extends_refl.
  - destruct (sanitizeId (node_id n) w) as [safeId w1].
    eapply extends_snoc, IH.
Qed.

Lemma flowEdges_extends idMap es : ∀ lines,
  extends lines (flowEdges idMap es lines).
Proof.
  induction es as [|e es IH]; intros lines; cbn.
  - apply extends_refl.
  - destruct (edgeEnds idMap e) as [[fromId toId]|]; [|apply IH].
    destruct (label e) as [[|c l]|]; eapply extends_snoc, IH.
Qed.

Lemma participants_extends ns : ∀ lines idMap w,
  extends lines (participants ns lines idMap w).1.1.
Proof.
  induction ns as [|n ns IH]; intros lines idMap w; cbn.
  - apply extends_refl.
  - destruct (sanitizeId (node_id n) w) as [safeId w1].
    eapply extends_snoc, IH.
Qed.

Lemma interactions_extends idMap es : ∀ lines,
  extends lines (interactions idMap es lines).
Proof.
  induction es as [|e es IH]; intros lines; cbn.
  - apply extends_refl.
  - destruct (edgeEnds idMap e) as [[fromId toId]|]; [|apply IH].
    eapply extends_snoc, IH.
Qed.

Lemma join_extends sep first lines :
  first ≠ [] → extends [first] lines → join sep lines ≠ [].
Proof.
  intros Hne [more ->]. destruct first as [|c first]; [done|].
  by destruct more.
Qed.

(** The generators never return an empty text. *)
Lemma generateArchitectureDiagram_text cs w :
  code (generateArchitectureDiagram cs w).1 ≠ [].
Proof.
  destruct cs as [[|c cs]|]; [done| |done].
  unfold generateArchitectureDiagram.
  pose proof (componentNodes_extends (c :: cs) [lit "flowchart TD"] [] w) as H1.
  destruct (componentNodes (c :: cs) [lit "flowchart TD"] [] w)
    as [[lines groups] w1].
  destruct (componentIds (c :: cs) ∅ w1) as [idMap w2]. cbn [fst snd code].
  apply (join_extends _ (lit "flowchart TD")); [done|].
  eapply extends_trans; [exact H1|].
  eapply extends_trans; [apply componentConnections_extends|].
  rewrite <- app_assoc. apply extends_app.
Qed.

Lemma generateDataFlowDiagram_text ns es w :
  code (generateDataFlowDiagram ns es w).1 ≠ [].
Proof.
  destruct ns as [[|n ns]|]; [done| |done].
  unfold generateDataFlowDiagram.
  pose proof (flowNodes_extends (n :: ns) [lit "flowchart LR"] [] ∅ w) as H1.
  destruct (flowNodes (n :: ns) [lit "flowchart LR"] [] ∅ w)
    as [[[lines groups] idMap] w1]. cbn [fst snd code].
  apply (join_extends _ (lit "flowchart LR")); [done|].
  eapply extends_trans; [exact H1|].
  eapply extends_trans; [apply flowEdges_extends|].
  rewrite <- app_assoc. apply extends_app.
Qed.

Lemma generateSequenceDiagram_text ns es w :
  code (generateSequenceDiagram ns es w).1 ≠ [].
Proof.
  destruct ns as [[|n ns]|]; [done| |done].
  destruct es as [[|e es]|]; [done| |done].
  unfold generateSequenceDiagram.
  pose proof (participants_extends (n :: ns) [lit "sequenceDiagram"] ∅ w)
    as H1.
  destruct (participants (n :: ns) [lit "sequenceDiagram"] ∅ w)
    as [[lines idMap] w1]. cbn [fst snd code].
  apply (join_extends _ (lit "sequenceDiagram")); [done|].
  eapply extends_trans; [exact H1|].
  eapply extends_trans; [apply extends_app | apply interactions_extends].
Qed.

Lemma usable_text d d' : usable d = Some d' → d = Some d' ∧ code d' ≠ [].
Proof.
  destruct d as [d|]; [|done]. cbn.
  destruct (code d) as [|c t] eqn:Hc; [done|].
  case_match; [|done]. intros [= <-]. by rewrite Hc.
Qed.

Lemma usable_valid d :
  validateMermaidSyntax (Some (code d)) = true → usable (Some d) = Some d.
Proof. cbn. intros H. by rewrite H. Qed.

(** With no empty identifier among the nodes the generators take no
    reading of the clock or of the random source. *)
Lemma componentNodes_pure cs :
  Forall (λ c, comp_id c ≠ []) cs → ∀ lines groups w w',
  componentNodes cs lines groups w
    = ((componentNodes cs lines groups w').1, w).
Proof.
  induction 1 as [|c cs Hc _ IH]; intros lines groups w w'; [done|].
  cbn [componentNodes]. rewrite !(sanitizeId_nonempty (comp_id c)) by done.
  apply IH.
Qed.

Lemma componentIds_pure cs :
  Forall (λ c, comp_id c ≠ []) cs → ∀ idMap w w',
  componentIds cs idMap w = ((componentIds cs idMap w').1, w).
Proof.
  induction 1 as [|c cs Hc _ IH]; intros idMap w w'; [done|].
  cbn [componentIds]. rewrite !(sanitizeId_nonempty (comp_id c)) by done.
  apply IH.
Qed.

Lemma flowNodes_pure ns :
  Forall (λ n, node_id n ≠ []) ns → ∀ lines groups idMap w w',
  flowNodes ns lines groups idMap w
    = ((flowNodes ns lines groups idMap w').1, w).
Proof.
  induction 1 as [|n ns Hn _ IH]; intros lines groups idMap w w'; [done|].
  cbn [flowNodes]. rewrite !(sanitizeId_nonempty (node_id n)) by done.
  apply IH.
Qed.

Lemma participants_pure ns :
  Forall (λ n, node_id n ≠ []) ns → ∀ lines idMap w w',
  participants ns lines idMap w = ((participants ns lines idMap w').1, w).
Proof.
  induction 1 as [|n ns Hn _ IH]; intros lines idMap w w'; [done|].
  cbn [participants]. rewrite !(sanitizeId_nonempty (node_id n)) by done.
  apply IH.
Qed.

Lemma generateArchitectureDiagram_pure cs w w' :
  namedComponents cs →
  generateArchitectureDiagram cs w
    = ((generateArchitectureDiagram cs w').1, w).
Proof.
  destruct cs as [[|c cs]|]; [done| |done]. unfold namedComponents.
  intros Hcs. unfold generateArchitectureDiagram.
  rewrite (componentNodes_pure _ Hcs _ _ w w').
  destruct (componentNodes (c :: cs) [lit "flowchart TD"] [] w')
    as [[lines groups] w1] eqn:Hn. cbn [fst snd].
  rewrite (componentIds_pure _ Hcs _ w w1).
  destruct (componentIds (c :: cs) ∅ w1) as [idMap w2]. reflexivity.
Qed.

Lemma generateDataFlowDiagram_pure ns es w w' :
  namedNodes ns →
  generateDataFlowDiagram ns es w = ((generateDataFlowDiagram ns es w').1, w).
Proof.
  destruct ns as [[|n ns]|]; [done| |done]. unfold namedNodes.
  intros Hns. unfold generateDataFlowDiagram.
  rewrite (flowNodes_pure _ Hns _ _ _ w w').
  destruct (flowNodes (n :: ns) [lit "flowchart LR"] [] ∅ w')
    as [[[lines groups] idMap] w1]. reflexivity.
Qed.

Lemma generateSequenceDiagram_pure ns es w w' :
  namedNodes ns →
  generateSequenceDiagram ns es w = ((generateSequenceDiagram ns es w').1, w).
Proof.
  destruct ns as [[|n ns]|]; [done| |done].
  destruct es as [[|e es]|]; [done| |done].
  unfold namedNodes.
  intros Hns. unfold generateSequenceDiagram.
  rewrite (participants_pure _ Hns _ _ w w').
  destruct (participants (n :: ns) [lit "sequenceDiagram"] ∅ w')
    as [[lines idMap] w1]. reflexivity.
Qed.

Example generateArchitectureDiagram_example w :
  code (generateArchitectureDiagram (Some twoComponents) w).1 =
    join nl
      [ lit "flowchart TD";
        lit "    web[" ++ quote
          ++ lit "Web [Next.js]<br/><small>React</small>" ++ quote ++ lit "]";
        lit "    api[[" ++ quote ++ lit "API" ++ quote ++ lit "]]";
        lit "    web --> api";
        [];
        lit "    classDef frontend fill:#3b82f6,stroke:#1d4ed8,color:#fff";
        lit "    classDef backend fill:#10b981,stroke:#059669,color:#fff";
        lit "    classDef database fill:#8b5cf6,stroke:#6d28d9,color:#fff";
        lit "    classDef service fill:#f59e0b,stroke:#d97706,color:#fff";
        lit "    classDef external fill:#6b7280,stroke:#4b5563,color:#fff";
        lit "    classDef middleware fill:#ec4899,stroke:#db2777,color:#fff";
        lit "    class web frontend";
        lit "    class api backend" ].
Proof. vm_compute. reflexivity. Qed.

(** What each slot of the result holds. *)
Lemma architecture_slot ai arch flow w :
  architecture (processDiagrams ai arch flow w).1 =
    match usable (ai ≫= architecture), arch with
    | Some d, _ => Some d
    | None, Some (c :: cs) => Some (generateArchitectureDiagram arch w).1
    | None, _ => None
    end.
Proof.
  unfold processDiagrams.
  destruct (architectureSlot ai arch w) as [a w1] eqn:Ha.
  destruct (dataFlowSlot ai flow w1) as [b w2].
  destruct (componentsSlot ai flow w2) as [c w3]. cbn.
  unfold architectureSlot in Ha.
  destruct (usable (ai ≫= architecture)); [congruence|].
  destruct arch as [[|x cs]|]; [congruence| |congruence].
  destruct (generateArchitectureDiagram (Some (x :: cs)) w). cbn. congruence.
Qed.

Lemma dataFlow_slot ai arch flow w :
  ∃ w0,
  dataFlow (processDiagrams ai arch flow w).1 =
    match usable (ai ≫= dataFlow), flow ≫= nodes with
    | Some d, _ => Some d
    | None, Some (n :: ns) =>
        Some (generateDataFlowDiagram (flow ≫= nodes)
                (default [] (flow ≫= edges)) w0).1
    | None, _ => None
    end.
Proof.
  unfold processDiagrams.
  destruct (architectureSlot ai arch w) as [a w1].
  destruct (dataFlowSlot ai flow w1) as [b w2] eqn:Hb.
  destruct (componentsSlot ai flow w2) as [c w3]. cbn. exists w1.
  unfold dataFlowSlot in Hb.
  destruct (usable (ai ≫= dataFlow)); [congruence|].
  destruct (flow ≫= nodes) as [[|n ns]|]; [congruence| |congruence].
  destruct (generateDataFlowDiagram _ _ w1). cbn. congruence.
Qed.

Lemma components_slot ai arch flow w :
  ∃ w0,
  components (processDiagrams ai arch flow w).1 =
    match usable (ai ≫= components), flow ≫= nodes, flow ≫= edges with
    | Some d, _, _ => Some d
    | None, Some (n :: ns), Some (e :: es) =>
        Some (generateSequenceDiagram (flow ≫= nodes) (flow ≫= edges) w0).1
    | None, _, _ => None
    end.
Proof.
  unfold processDiagrams.
  destruct (architectureSlot ai arch w) as [a w1].
  destruct (dataFlowSlot ai flow w1) as [b w2].
  destruct (componentsSlot ai flow w2) as [c w3] eqn:Hc. cbn. exists w2.
  unfold componentsSlot in Hc.
  destruct (usable (ai ≫= components)); [congruence|].
  destruct (flow ≫= nodes) as [[|n ns]|]; [congruence| |congruence].
  destruct (flow ≫= edges) as [[|e es]|]; [congruence| |congruence].
  destruct (generateSequenceDiagram _ _ w2). cbn. congruence.
Qed.

(** The slots are filled one after the other, each block going on from
    the readings the one before it has left. *)
Lemma processDiagrams_slots ai arch flow w :
  processDiagrams ai arch flow w =
    let first := architectureSlot ai arch w in
    let second := dataFlowSlot ai flow first.2 in
    let third := componentsSlot ai flow second.2 in
    ({| architecture := first.1; dataFlow := second.1;
        components := third.1 |}, third.2).
Proof.
  unfold processDiagrams.
  destruct (architectureSlot ai arch w) as [a w1]. cbn [fst snd].
  destruct (dataFlowSlot ai flow w1) as [b w2]. cbn [fst snd].
  destruct (componentsSlot ai flow w2) as [c w3]. reflexivity.
Qed.

Lemma dataFlowSlot_holds ai flow v :
  (dataFlowSlot ai flow v).1 =
    match usable (ai ≫= dataFlow), flow ≫= nodes with
    | Some d, _ => Some d
    | None, Some (n :: ns) =>
        Some (generateDataFlowDiagram (flow ≫= nodes)
                (default [] (flow ≫= edges)) v).1
    | None, _ => None
    end.
Proof.
  unfold dataFlowSlot.
  destruct (usable (ai ≫= dataFlow)); [reflexivity|].
  destruct (flow ≫= nodes) as [[|n ns]|]; [reflexivity| |reflexivity].
  destruct (generateDataFlowDiagram _ _ v). reflexivity.
Qed.

Lemma componentsSlot_holds ai flow v :
  (componentsSlot ai flow v).1 =
    match usable (ai ≫= components), flow ≫= nodes, flow ≫= edges with
    | Some d, _, _ => Some d
    | None, Some (n :: ns), Some (e :: es) =>
        Some (generateSequenceDiagram (flow ≫= nodes) (flow ≫= edges) v).1
    | None, _, _ => None
    end.
Proof.
  unfold componentsSlot.
  destruct (usable (ai ≫= components)); [reflexivity|].
  destruct (flow ≫= nodes) as [[|n ns]|]; [reflexivity| |reflexivity].
  destruct (flow ≫= edges) as [[|e es]|]; [reflexivity| |reflexivity].
  destruct (generateSequenceDiagram _ _ v). reflexivity.
Qed.

(** With no empty identifier in the structured data the result is
    the same whatever the clock and the random source read. *)
Lemma processDiagrams_deterministic ai arch flow w w' :
  namedComponents arch → namedNodes (flow ≫= nodes) →
  processDiagrams ai arch flow w = ((processDiagrams ai arch flow w').1, w).
Proof.
  intros Hc Hn.
  assert (Ha : ∀ v v', architectureSlot ai arch v
                       = ((architectureSlot ai arch v').1, v)).
  { intros v v'. unfold architectureSlot.
    destruct (usable (ai ≫= architecture)); [done|].
    destruct arch as [[|x cs]|]; [done| |done].
    rewrite (generateArchitectureDiagram_pure _ v v' Hc).
    by destruct (generateArchitectureDiagram (Some (x :: cs)) v'). }
  assert (Hd : ∀ v v', dataFlowSlot ai flow v
                       = ((dataFlowSlot ai flow v').1, v)).
  { intros v v'. unfold dataFlowSlot.
    destruct (usable (ai ≫= dataFlow)); [done|].
    destruct (flow ≫= nodes) as [[|n ns]|]; [done| |done].
    rewrite (generateDataFlowDiagram_pure _ _ v v' Hn).
    by destruct (generateDataFlowDiagram _ _ v'). }
  assert (Hs : ∀ v v', componentsSlot ai flow v
                       = ((componentsSlot ai flow v').1, v)).
  { intros v v'. unfold componentsSlot.
    destruct (usable (ai ≫= components)); [done|].
    destruct (flow ≫= nodes) as [[|n ns]|]; [done| |done].
    destruct (flow ≫= edges) as [[|e es]|]; [done| |done].
    rewrite (generateSequenceDiagram_pure _ _ v v' Hn).
    by destruct (generateSequenceDiagram _ _ v'). }
  unfold processDiagrams.
  pose proof (Ha w w') as Ea.
  destruct (architectureSlot ai arch w) as [a w1],
    (architectureSlot ai arch w') as [a' w1'].
  cbn [fst] in Ea. injection Ea as -> ->.
  pose proof (Hd w w1') as Ed.
  destruct (dataFlowSlot ai flow w) as [b w2],
    (dataFlowSlot ai flow w1') as [b' w2'].
  cbn [fst] in Ed. injection Ed as -> ->.
  pose proof (Hs w w2') as Es.
  destruct (componentsSlot ai flow w) as [c w3],
    (componentsSlot ai flow w2') as [c' w3'].
  cbn [fst] in Es. injection Es as -> ->. reflexivity.
Qed.

(** The claim C6 as the specification words it fails.  With no usable
    AI diagram and no structured data the three slots stay absent, and
    no placeholder diagram is put into them.  And a diagram that is
    generated is not a function of the data alone: a component without
    an identifier is given one made from the clock and the random
    source, so two calls on the same data give two diagrams. *)
Lemma processDiagrams_no_placeholder :
  processDiagrams None None None (steady noon)
    = ({| architecture := None; dataFlow := None; components := None |},
       steady noon)
  ∧ (processDiagrams
       (Some {| architecture := Some {| type := flowchart;
                                        title := lit "System Architecture";
                                        code := lit "not a diagram" |};
                dataFlow := None; components := None |})
       (Some []) (Some {| nodes := Some []; edges := Some [] |})
       (steady noon)).1
    = {| architecture := None; dataFlow := None; components := None |}
  ∧ (processDiagrams None (Some unnamedComponent) None (steady noon)).1
    ≠ (processDiagrams None (Some unnamedComponent) None (steady later)).1.
Proof.
  split_and!; [reflexivity..|]. intros H.
  apply (f_equal (λ out, code <$> architecture out)) in H.
  vm_compute in H. discriminate H.
Qed.

(** C6, amended: the three slots are filled one after the other.  In
    each slot an AI diagram whose text passes [validateMermaidSyntax]
    is kept as it is; failing that, structured data that is not empty
    (components; nodes; nodes and edges for the third slot) gives the
    slot the diagram its generator builds from it, at the readings of
    the clock and of the random source that the slots before it have
    left; failing that too, the slot is left absent, and no placeholder
    is put into it.  When no component and no node of the data has an
    empty identifier the generators take no reading: what they build,
    and so the whole result, is the same on every call.  No slot that
    is filled holds an empty text. *)
Theorem processDiagrams_policy
    (ai : option DiagramsData) (arch : option (list ArchitectureComponent))
    (flow : option DataFlow) (w : World) :
  let out := (processDiagrams ai arch flow w).1 in
  let w1 := (architectureSlot ai arch w).2 in
  let w2 := (dataFlowSlot ai flow w1).2 in
  (∀ d, ai ≫= architecture = Some d →
        validateMermaidSyntax (Some (code d)) = true →
        architecture out = Some d) ∧
  (∀ d, ai ≫= dataFlow = Some d →
        validateMermaidSyntax (Some (code d)) = true →
        dataFlow out = Some d) ∧
  (∀ d, ai ≫= components = Some d →
        validateMermaidSyntax (Some (code d)) = true →
        components out = Some d) ∧
  (usable (ai ≫= architecture) = None → ∀ c cs, arch = Some (c :: cs) →
   architecture out = Some (generateArchitectureDiagram arch w).1) ∧
  (usable (ai ≫= dataFlow) = None → ∀ n ns, flow ≫= nodes = Some (n :: ns) →
   dataFlow out =
     Some (generateDataFlowDiagram (flow ≫= nodes)
             (default [] (flow ≫= edges)) w1).1) ∧
  (usable (ai ≫= components) = None → ∀ n ns e es,
   flow ≫= nodes = Some (n :: ns) → flow ≫= edges = Some (e :: es) →
   components out =
     Some (generateSequenceDiagram (flow ≫= nodes) (flow ≫= edges) w2).1) ∧
  (namedComponents arch → ∀ v,
   generateArchitectureDiagram arch v
     = ((generateArchitectureDiagram arch w).1, v)) ∧
  (namedNodes (flow ≫= nodes) → ∀ v,
   generateDataFlowDiagram (flow ≫= nodes) (default [] (flow ≫= edges)) v
     = ((generateDataFlowDiagram (flow ≫= nodes)
           (default [] (flow ≫= edges)) w1).1, v)
   ∧ generateSequenceDiagram (flow ≫= nodes) (flow ≫= edges) v
     = ((generateSequenceDiagram (flow ≫= nodes) (flow ≫= edges) w2).1, v)) ∧
  (namedComponents arch → namedNodes (flow ≫= nodes) → ∀ v,
   processDiagrams ai arch flow v = (out, v)) ∧
  (usable (ai ≫= architecture) = None → arch = None ∨ arch = Some [] →
   architecture out = None) ∧
  (usable (ai ≫= dataFlow) = None →
   flow ≫= nodes = None ∨ flow ≫= nodes = Some [] →
   dataFlow out = None) ∧
  (usable (ai ≫= components) = None →
   flow ≫= nodes = None ∨ flow ≫= nodes = Some [] ∨
   flow ≫= edges = None ∨ flow ≫= edges = Some [] →
   components out = None) ∧
  (∀ d, architecture out = Some d ∨ dataFlow out = Some d
        ∨ components out = Some d → code d ≠ []).
Proof.
  intros out w1 w2.
  pose proof (architecture_slot ai arch flow w) as Ha.
  assert (dataFlow out = (dataFlowSlot ai flow w1).1) as Hd
    by (subst out w1; by rewrite processDiagrams_slots).
  assert (components out = (componentsSlot ai flow w2).1) as Hc
    by (subst out w1 w2; by rewrite processDiagrams_slots).
  rewrite dataFlowSlot_holds in Hd. rewrite componentsSlot_holds in Hc.
  assert (namedComponents arch → namedNodes (flow ≫= nodes) → ∀ v,
          processDiagrams ai arch flow v = (out, v)) as Hsame
    by (intros Hcs Hns v; by apply processDiagrams_deterministic).
  fold out in Ha. clearbody out w1 w2.
  split_and!.
  - intros d Hai Hv. rewrite Ha, Hai, (usable_valid _ Hv). reflexivity.
  - intros d Hai Hv. rewrite Hd, Hai, (usable_valid _ Hv). reflexivity.
  - intros d Hai Hv. rewrite Hc, Hai, (usable_valid _ Hv). reflexivity.
  - intros Hu c cs ->. rewrite Ha, Hu. reflexivity.
  - intros Hu n ns Hn. rewrite Hd, Hu, Hn. reflexivity.
  - intros Hu n ns e es Hn He. rewrite Hc, Hu, Hn, He. reflexivity.
  - intros Hnamed v. apply generateArchitectureDiagram_pure, Hnamed.
  - intros Hnamed v.
    split; [apply generateDataFlowDiagram_pure, Hnamed
           |apply generateSequenceDiagram_pure, Hnamed].
  - exact Hsame.
  - intros Hu [-> | ->]; rewrite Ha, Hu; reflexivity.
  - intros Hu [Hn | Hn]; rewrite Hd, Hu, Hn; reflexivity.
  - intros Hu Hno. rewrite Hc, Hu. clear Ha Hd Hc.
    destruct (flow ≫= nodes) as [[|n ns]|]; try reflexivity.
    destruct (flow ≫= edges) as [[|e es]|]; try reflexivity.
    destruct Hno as [H | [H | [H | H]]]; discriminate H.
  - intros d [H | [H | H]].
    + rewrite Ha in H. clear Ha Hd Hc.
      destruct (usable (ai ≫= architecture)) eqn:Hu.
      * injection H as ->. apply usable_text in Hu as [_ Hu]. exact Hu.
      * destruct arch as [[|c cs]|]; try discriminate H.
        replace d with (generateArchitectureDiagram (Some (c :: cs)) w).1
          by congruence.
        apply generateArchitectureDiagram_text.
    + rewrite Hd in H. clear Ha Hd Hc.
      destruct (usable (ai ≫= dataFlow)) eqn:Hu.
      * injection H as ->. apply usable_text in Hu as [_ Hu]. exact Hu.
      * destruct (flow ≫= nodes) as [[|n ns]|]; try discriminate H.
        replace d with (generateDataFlowDiagram (Some (n :: ns))
                          (default [] (flow ≫= edges)) w1).1 by congruence.
        apply generateDataFlowDiagram_text.
    + rewrite Hc in H. clear Ha Hd Hc.
      destruct (usable (ai ≫= components)) eqn:Hu.
      * injection H as ->. apply usable_text in Hu as [_ Hu]. exact Hu.
      * destruct (flow ≫= nodes) as [[|n ns]|]; try discriminate H.
        destruct (flow ≫= edges) as [[|e es]|]; try discriminate H.
        replace d with (generateSequenceDiagram (Some (n :: ns))
                          (Some (e :: es)) w2).1 by congruence.
        apply generateSequenceDiagram_text.
Qed.

Lemma processDiagrams_policy_witness :
  let out :=
    (processDiagrams (Some oneGoodDiagram) (Some twoComponents)
       (Some {| nodes := Some browserAndApi; edges := None |})
       (steady noon)).1 in
  architecture out = Some architecturePlaceholder
  ∧ dataFlow out
    = Some (generateDataFlowDiagram (Some browserAndApi) [] (steady noon)).1
  ∧ components out = None
  ∧ (∀ v, processDiagrams (Some oneGoodDiagram) (Some twoComponents)
            (Some {| nodes := Some browserAndApi; edges := None |}) v
          = (out, v))
  ∧ code <$> dataFlow out ≠ Some [].
Proof.
  intros out.
  pose proof (processDiagrams_policy (Some oneGoodDiagram)
                (Some twoComponents)
                (Some {| nodes := Some browserAndApi; edges := None |})
                (steady noon)) as H.
  cbv zeta in H. fold out in H.
  destruct H as (Hkept & _ & _ & _ & Hmade & _ & _ & _ & Hsame & _ & _
                 & Hnone & Htext).
  split_and!.
  - apply Hkept; reflexivity.
  - apply (Hmade eq_refl _ _ eq_refl).
  - apply Hnone; [reflexivity|]. right. right. left. reflexivity.
  - apply Hsame; repeat constructor; discriminate.
  - destruct (dataFlow out) as [d|] eqn:Hd; [|discriminate].
    intros [= Hcode]. by apply (Htext d); [right; left|].
Defined.

End MermaidFacts.

(** ** Stream consumer *)

Module ConsumerFacts.
Import Consumer.

Section WithParser.

Variable JSON_parse : jsstring → option value.

(** A narrative in which no closing brace follows an opening one makes
    the [done] frame do nothing but set the status. *)
Lemma done_without_braces st :
  matchBraces (aiContent st) = None →
  handleFrame JSON_parse (frame "done" VUndefined) st = (st, [completed]).
Proof.
  intros Hno. unfold handleFrame, onFrame, frame. cbn.
  unfold onDone. by rewrite Hno.
Qed.

(** A narrative whose braces hold no JSON makes the [done] frame hand
    the fallback to the context and, when the metadata has a full name,
    to the storage. *)
Lemma done_with_broken_json st text :
  matchBraces (aiContent st) = Some text → JSON_parse text = None →
  handleFrame JSON_parse (frame "done" VUndefined) st =
    (st,
     [ConsoleError (lit "Parse error:");
      UpdateResult (fallbackResult (currentResult st))]
     ++ saveToCache (currentResult st) (fallbackResult (currentResult st))
     ++ [completed]).
Proof.
  intros Hm Hp. unfold handleFrame, onFrame, frame. cbn.
  unfold onDone. by rewrite Hm, Hp.
Qed.

(** C7 on the code: a stream that ends after a narrative without
    braces.  Whatever [JSON.parse] is, the context gets the one result
    of the metadata frame, in which [insights], [refactors],
    [automations], [architecture] and [dataFlow] are undefined, and
    [analysisStorage.set] is not called. *)
Theorem prose_stream_no_fallback :
  let out := handleFrames JSON_parse proseStream start in
  out.2 =
    [ SetCurrentBranch (VString (lit "main"));
      UpdateResult (VObject (currentResult out.1));
      SetStatus (lit "analyzing") (lit "Analyzing main branch...");
      SetStatus (lit "analyzing") (lit "AI is analyzing the codebase...");
      completed ] ∧
  prop (VObject (currentResult out.1)) "metadata"
    = prop sampleMetadata "metadata" ∧
  prop (VObject (currentResult out.1)) "insights" = VUndefined ∧
  prop (VObject (currentResult out.1)) "refactors" = VUndefined ∧
  prop (VObject (currentResult out.1)) "automations" = VUndefined ∧
  prop (VObject (currentResult out.1)) "architecture" = VUndefined ∧
  prop (VObject (currentResult out.1)) "dataFlow" = VUndefined ∧
  (∀ fullName result branch, StorageSet fullName result branch ∉ out.2).
Proof.
  cbv zeta.
  assert (Hrun : handleFrames JSON_parse proseStream start =
    ({| currentResult :=
          [ (lit "metadata", prop sampleMetadata "metadata");
            (lit "fileTree", VArray []);
            (lit "fileStats", prop sampleMetadata "fileStats");
            (lit "branch", VString (lit "main"));
            (lit "availableBranches", VArray []) ];
        aiContent := lit "I could not analyze this repository." |},
     [ SetCurrentBranch (VString (lit "main"));
       UpdateResult
         (VObject
            [ (lit "metadata", prop sampleMetadata "metadata");
              (lit "fileTree", VArray []);
              (lit "fileStats", prop sampleMetadata "fileStats");
              (lit "branch", VString (lit "main"));
              (lit "availableBranches", VArray []) ]);
       SetStatus (lit "analyzing") (lit "Analyzing main branch...");
       SetStatus (lit "analyzing") (lit "AI is analyzing the codebase...");
       completed ])) by reflexivity.
  rewrite Hrun. cbn [fst snd currentResult].
  split_and!; try reflexivity.
  intros fullName result branch Hin.
  repeat (apply elem_of_cons in Hin as [Hin | Hin]; [discriminate Hin|]).
  by apply elem_of_nil in Hin.
Qed.

End WithParser.

(** The sibling path: when the narrative has braces and is no JSON, the
    fallback has the deterministic fields and empty lists, and it is
    stored under the full name and the branch of the metadata frame;
    [techStack], [howToRun] and [keyFolders] stay undefined in it. *)
Lemma broken_json_stream_falls_back :
  let out := handleFrames rejectAll brokenJsonStream start in
  let fallback := fallbackResult (currentResult out.1) in
  UpdateResult fallback ∈ out.2 ∧
  StorageSet (VString (lit "Devsethi3/Repo-Gist")) fallback
    (VString (lit "main")) ∈ out.2 ∧
  prop fallback "metadata" = prop sampleMetadata "metadata" ∧
  prop fallback "fileTree" = VArray [] ∧
  prop fallback "branch" = VString (lit "main") ∧
  prop fallback "insights" = VArray [] ∧
  prop fallback "refactors" = VArray [] ∧
  prop fallback "automations" = VArray [] ∧
  prop fallback "architecture" = VArray [] ∧
  prop fallback "dataFlow"
    = VObject [(lit "nodes", VArray []); (lit "edges", VArray [])] ∧
  prop fallback "summary"
    = VString (lit "Analysis completed with parsing issues.") ∧
  prop fallback "techStack" = VUndefined ∧
  prop fallback "howToRun" = VUndefined ∧
  prop fallback "keyFolders" = VUndefined.
Proof.
  cbv zeta. split_and!; try reflexivity.
  - vm_compute. do 5 right. left.
  - vm_compute. do 6 right. left.
Qed.

End ConsumerFacts.
(** ** Request admission *)

Module RouteFacts.
Import RateLimit Route.

(** *** The size of a body in bytes and in code units *)




(** *** [parseInt] on the decimal digits of a number *)







Section WithServer.

Variables WINDOW_MS MAX_REQUESTS : Z.
Variable JSON_parse : jsstring → option value.
Variable analysis : value → RateLimitResult → Response * list Step.

Local Abbreviation post :=
  (POST WINDOW_MS MAX_REQUESTS true JSON_parse analysis).
Local Abbreviation meter := (checkRateLimit WINDOW_MS MAX_REQUESTS).




(** A request that is not too large is parsed. *)
Lemma small_body_parsed now request st :
  allowed (meter now (getClientIP (headers request)) st).1 = true →
  declaredTooLarge request = false → bodyTooLarge request = false →
  ParseJson ∈ (post now request st).2.
Proof.
  intros Hal Hd Hb. unfold POST. cbn [negb].
  destruct (meter now (getClientIP (headers request)) st) as [res st'].
  cbn [fst snd] in *. rewrite Hal, Hd, Hb. cbn [negb].
  destruct (JSON_parse (body request)) as [parsed|].
  - destruct (analysis parsed res) as [response steps]. cbn.
    apply elem_of_cons. right. apply elem_of_cons. by left.
  - cbn. apply elem_of_cons. right. apply elem_of_cons. by left.
Qed.

End WithServer.


End RouteFacts.

(** ** Strings *)

Module StringFacts.

Lemma startsWith_app p s : startsWith (p ++ s) p = true.
Proof.
  induction p as [|c p IH]; [by destruct s|].
  cbn. by rewrite N.eqb_refl.
Qed.

Lemma startsWith_split s p :
  startsWith s p = true → s = p ++ skipn (length p) s.
Proof.
  revert s. induction p as [|c p IH]; intros s; [reflexivity|].
  destruct s as [|d s]; [discriminate|]. cbn.
  intros [->%N.eqb_eq Hp]%andb_true_iff. f_equal. by apply IH.
Qed.

Lemma skipn_app_length (p s : jsstring) : skipn (length p) (p ++ s) = s.
Proof. induction p as [|c p IH]; [reflexivity | exact IH]. Qed.

Lemma trimStart_white white s :
  forallb isWhiteSpace white = true → trimStart (white ++ s) = trimStart s.
Proof.
  induction white as [|c white IH]; [reflexivity|]. cbn.
  intros [-> Hw]%andb_true_iff. by apply IH.
Qed.

Lemma trimStart_keeps c s :
  isWhiteSpace c = false → trimStart (c :: s) = c :: s.
Proof. intros Hc. cbn [trimStart]. by rewrite Hc. Qed.

Lemma forallb_rev (p : N → bool) s : forallb p (rev s) = forallb p s.
Proof.
  induction s as [|c s IH]; [reflexivity|]. cbn.
  rewrite forallb_app, IH. cbn. rewrite andb_true_r. apply andb_comm.
Qed.

(** [trim] takes the white space around a text whose first and last
    code units are none. *)
Lemma trim_padded before after c middle d :
  forallb isWhiteSpace before = true → forallb isWhiteSpace after = true →
  isWhiteSpace c = false → isWhiteSpace d = false →
  trim (before ++ (c :: middle ++ [d]) ++ after) = c :: middle ++ [d].
Proof.
  intros Hb Ha Hc Hd. unfold trim, trimEnd.
  rewrite (trimStart_white _ _ Hb). cbn [app].
  rewrite (trimStart_keeps _ _ Hc).
  change (c :: (middle ++ [d]) ++ after) with ((c :: middle ++ [d]) ++ after).
  rewrite rev_app_distr, trimStart_white by by rewrite forallb_rev.
  change (c :: middle ++ [d]) with ((c :: middle) ++ [d]).
  rewrite rev_app_distr. cbn [rev app].
  rewrite (trimStart_keeps _ _ Hd).
  change (d :: rev middle ++ [c]) with (rev [d] ++ rev (c :: middle)).
  by rewrite <- rev_app_distr, rev_involutive.
Qed.

Lemma forallb_impl (p q : N → bool) s :
  (∀ c, p c = true → q c = true) → forallb p s = true → forallb q s = true.
Proof.
  intros Hpq. induction s as [|c s IH]; [done|]. cbn.
  intros [Hc Hs]%andb_true_iff. by rewrite (Hpq c Hc), IH.
Qed.

Lemma forallb_firstn (p : N → bool) n s :
  forallb p s = true → forallb p (firstn n s) = true.
Proof.
  revert n. induction s as [|c s IH]; intros [|n]; try done. cbn.
  intros [-> Hs]%andb_true_iff. by apply IH.
Qed.

Lemma startsWith_more s p more :
  startsWith s p = true → startsWith (s ++ more) p = true.
Proof.
  revert s. induction p as [|c p IH]; intros [|d s]; try done; cbn.
  - by destruct more.
  - intros [-> Hp]%andb_true_iff. by apply IH.
Qed.

(** White space in front of a code unit that is none. *)
Lemma trimStart_app white c s :
  isWhiteSpace c = false →
  trimStart (white ++ c :: s) = trimStart white ++ c :: s.
Proof.
  intros Hc. induction white as [|d white IH]; cbn [app trimStart].
  - by rewrite Hc.
  - by destruct (isWhiteSpace d).
Qed.

Lemma trimEnd_app s c rest :
  isWhiteSpace c = false → trimEnd (s ++ c :: rest) = s ++ c :: trimEnd rest.
Proof.
  intros Hc. unfold trimEnd. rewrite rev_app_distr. cbn [rev].
  rewrite <- app_assoc. cbn [app]. rewrite (trimStart_app _ _ _ Hc).
  rewrite rev_app_distr. cbn [rev]. rewrite rev_involutive.
  by rewrite <- app_assoc.
Qed.

Lemma forallb_trimStart (p : N → bool) s :
  forallb p s = true → forallb p (trimStart s) = true.
Proof.
  induction s as [|c s IH]; [done|]. cbn [trimStart].
  destruct (isWhiteSpace c); [|done]. cbn.
  by intros [_ Hs]%andb_true_iff; apply IH.
Qed.

Lemma forallb_trim (p : N → bool) s :
  forallb p s = true → forallb p (trim s) = true.
Proof.
  intros Hs. unfold trim, trimEnd. rewrite forallb_rev.
  apply forallb_trimStart. rewrite forallb_rev. by apply forallb_trimStart.
Qed.

Lemma length_trimStart s : (length (trimStart s) ≤ length s)%nat.
Proof.
  induction s as [|c s IH]; [done|]. cbn [trimStart].
  destruct (isWhiteSpace c); cbn; lia.
Qed.

Lemma list_sum_cons x l : list_sum (x :: l) = (x + list_sum l)%nat.
Proof. reflexivity. Qed.

End StringFacts.

(** ** Rate limiter: sweeps, clients, countdown *)

Module RateLimitTracesFacts.
Import RateLimit RateLimitTraces.

Section WithConfig.

Variables WINDOW_MS MAX_REQUESTS : Z.

Local Abbreviation check := (checkRateLimit WINDOW_MS MAX_REQUESTS).
Local Abbreviation sweep := cleanupExpiredRecords.
Local Abbreviation verdict := (verdictOn WINDOW_MS MAX_REQUESTS).
Local Abbreviation runAll := (run WINDOW_MS MAX_REQUESTS).

(** A check looks at the record of its client and at nothing else. *)
Lemma check_local now ip st :
  check now ip st =
    ((verdict now (rateLimitMap st !! ip)).1,
     {| rateLimitMap :=
          match (verdict now (rateLimitMap st !! ip)).2 with
          | Some r => <[ip := r]> (rateLimitMap st)
          | None => rateLimitMap st
          end;
        cleanupInterval := true |}).
Proof.
  unfold checkRateLimit, verdictOn, setRecord, ensureCleanupRunning. cbn.
  destruct (rateLimitMap st !! ip) as [r|]; [|done].
  destruct (now >? resetTime r); [done|].
  by destruct (count r >=? MAX_REQUESTS).
Qed.

Lemma sweep_twice now st : sweep now (sweep now st) = sweep now st.
Proof.
  unfold cleanupExpiredRecords. cbn. f_equal.
  apply map_filter_id. intros ip r Hr.
  by apply map_lookup_filter_Some in Hr as [_ ?].
Qed.

(** A sweep at [now] keeps a record exactly when its reset time
    has not passed, leaves the kept records as they are, and a second
    sweep at the same time finds nothing more to remove. *)
Lemma sweep_removes_expired_only (now : Z) (st : Limiter) :
  (∀ ip r, rateLimitMap (sweep now st) !! ip = Some r ↔
           rateLimitMap st !! ip = Some r ∧ now ≤ resetTime r) ∧
  (∀ ip, rateLimitMap st !! ip = None →
         rateLimitMap (sweep now st) !! ip = None) ∧
  sweep now (sweep now st) = sweep now st ∧
  cleanupInterval (sweep now st) = cleanupInterval st.
Proof.
  split_and!.
  - intros ip r. unfold cleanupExpiredRecords. cbn.
    rewrite map_lookup_filter_Some. cbn. split; intros [? ?]; split; (done || lia).
  - intros ip Hno. unfold cleanupExpiredRecords. cbn.
    apply map_lookup_filter_None. by left.
  - apply sweep_twice.
  - done.
Qed.

Lemma live_lookup t st ip :
  liveRecords t st !! ip =
    match rateLimitMap st !! ip with
    | Some r => if decide (resetTime r < t) then None else Some r
    | None => None
    end.
Proof. apply RateLimitFacts.sweep_lookup. Qed.

Lemma live_later t now st :
  t ≤ now → liveRecords now st = filter (λ kv, ¬ resetTime kv.2 < now)
                                   (liveRecords t st).
Proof.
  intros Ht. unfold liveRecords, cleanupExpiredRecords. cbn.
  rewrite map_filter_filter. apply map_filter_ext. intros ip r _. cbn. lia.
Qed.

(** The records in force, after a check. *)
Lemma live_after_check t now ip st st' :
  liveRecords t st = liveRecords t st' → t ≤ now →
  (check now ip st).1 = (check now ip st').1 ∧
  liveRecords now (check now ip st).2 = liveRecords now (check now ip st').2.
Proof.
  intros Hlive Ht.
  assert (Hnow : liveRecords now st = liveRecords now st')
    by (by rewrite !(live_later t now), Hlive).
  clear Hlive.
  assert (Hv : verdict now (rateLimitMap st !! ip)
               = verdict now (rateLimitMap st' !! ip)).
  { pose proof (f_equal (λ m : gmap jsstring RateLimitRecord, m !! ip) Hnow)
      as Hk. cbv beta in Hk. rewrite !live_lookup in Hk.
    unfold verdictOn.
    destruct (rateLimitMap st !! ip) as [r|], (rateLimitMap st' !! ip) as [r'|];
      repeat case_decide; simplify_eq; try done;
      repeat match goal with
             | |- context [?a >? ?b] => destruct (Z.gtb_spec a b); try lia
             end; done. }
  rewrite !check_local, Hv. split; [done|].
  unfold liveRecords, cleanupExpiredRecords in *. cbn in *.
  destruct (verdict now (rateLimitMap st' !! ip)).2 as [r1|]; [|done].
  rewrite !map_filter_insert. case_decide.
  - by rewrite Hnow.
  - rewrite !map_filter_delete. by rewrite Hnow.
Qed.

Lemma live_after_sweep now st : liveRecords now (sweep now st) = liveRecords now st.
Proof.
  unfold liveRecords. by rewrite sweep_twice.
Qed.

Lemma sweeps_unobservable_from calls : ∀ t st st',
  liveRecords t st = liveRecords t st' → clockFrom t calls →
  (runAll calls st).1 = (runAll (dropSweeps calls) st').1.
Proof.
  induction calls as [|[now ip|now] calls IH]; intros t st st' Hlive Hclock.
  - done.
  - destruct Hclock as [Ht Hclock]. cbn in Ht, Hclock. cbn [dropSweeps].
    rewrite !RateLimitFacts.run_check. cbn [fst].
    destruct (live_after_check t now ip st st' Hlive Ht) as [-> Hlive'].
    f_equal. by apply (IH now).
  - destruct Hclock as [Ht Hclock]. cbn in Ht, Hclock. cbn [dropSweeps run].
    apply (IH now); [|done].
    rewrite live_after_sweep. by rewrite !(live_later t now), Hlive.
Qed.

(** X1: while the clock does not run backwards, the sweeps cannot be
    observed: the results of the checks are those of the same checks
    with no sweep in between. *)
Theorem sweeps_unobservable (t : Z) (calls : list Call) (st : Limiter) :
  clockFrom t calls →
  (runAll calls st).1 = (runAll (dropSweeps calls) st).1.
Proof. intros Hclock. by apply (sweeps_unobservable_from calls t). Qed.

(** X2: checks of two different clients commute: each is told the
    same in either order, and the state they leave is the same. *)
Theorem clients_independent (now1 now2 : Z) (ip1 ip2 : jsstring)
    (st : Limiter) :
  ip1 ≠ ip2 →
  (check now1 ip1 st).1 = (check now1 ip1 (check now2 ip2 st).2).1 ∧
  (check now2 ip2 st).1 = (check now2 ip2 (check now1 ip1 st).2).1 ∧
  (check now2 ip2 (check now1 ip1 st).2).2
    = (check now1 ip1 (check now2 ip2 st).2).2.
Proof.
  intros Hne. rewrite !check_local. cbn [fst snd rateLimitMap].
  assert (H1 : ∀ m : gmap jsstring RateLimitRecord,
            match (verdict now2 (rateLimitMap st !! ip2)).2 with
            | Some r => <[ip2:=r]> m | None => m end !! ip1 = m !! ip1).
  { intros m. destruct (verdict now2 (rateLimitMap st !! ip2)).2;
      by rewrite ?lookup_insert_ne. }
  assert (H2 : ∀ m : gmap jsstring RateLimitRecord,
            match (verdict now1 (rateLimitMap st !! ip1)).2 with
            | Some r => <[ip1:=r]> m | None => m end !! ip2 = m !! ip2).
  { intros m. destruct (verdict now1 (rateLimitMap st !! ip1)).2;
      by rewrite ?lookup_insert_ne. }
  rewrite H1, H2. split_and!; try done. f_equal.
  destruct (verdict now1 (rateLimitMap st !! ip1)).2,
    (verdict now2 (rateLimitMap st !! ip2)).2; try done.
  by apply insert_insert_ne.
Qed.

Lemma answers_cons ip ip' res log :
  answers ip ((ip', res) :: log) =
    if decide (ip' = ip) then res :: answers ip log else answers ip log.
Proof.
  unfold answers. case_decide.
  - by rewrite filter_cons_True.
  - by rewrite filter_cons_False.
Qed.

(** Inside the window of a record with count [c], what the client is
    told is decided by the count alone. *)
Lemma answers_in_window ip ends calls : ∀ st r,
  rateLimitMap st !! ip = Some r → resetTime r = ends →
  Forall (λ c, clock c ≤ ends) calls →
  answers ip (runAll calls st).1 =
    map (answerAfter MAX_REQUESTS (count r)) (seq 0 (checksOf ip calls)).
Proof.
  induction calls as [|[now ip'|now] calls IH]; intros st r Hr Hends Hcl.
  - done.
  - apply Forall_cons in Hcl as [Hnow Hcl]. cbn in Hnow.
    rewrite RateLimitFacts.run_check. cbn [fst snd checksOf].
    rewrite answers_cons.
    destruct (decide (ip' = ip)) as [->|Hne].
    + cbn [map seq]. rewrite <- seq_shift, map_map.
      destruct (decide (count r < MAX_REQUESTS)) as [Hlt|Hge].
      * rewrite (RateLimitFacts.check_count _ _ _ _ _ r) by (done || lia).
        cbn [fst snd]. f_equal.
        { unfold answerAfter. rewrite bool_decide_eq_true_2 by (cbn; lia).
          f_equal. cbn. lia. }
        rewrite (IH _ {| count := count r + 1; resetTime := resetTime r |});
          [| by cbn; rewrite lookup_insert_eq | done | done].
        apply map_ext. intros k. unfold answerAfter. cbn [count].
        replace (count r + 1 + Z.of_nat k) with (count r + Z.of_nat (S k))
          by lia. done.
      * rewrite (RateLimitFacts.check_reject _ _ _ _ _ r) by (done || lia).
        cbn [fst snd]. f_equal.
        { unfold answerAfter. by rewrite bool_decide_eq_false_2 by (cbn; lia). }
        rewrite (IH _ r); [| done | done | done].
        apply map_ext. intros k. unfold answerAfter.
        by rewrite !bool_decide_eq_false_2 by lia.
    + apply IH; [|done|done]. by rewrite RateLimitFacts.check_other.
  - apply Forall_cons in Hcl as [Hnow Hcl]. cbn in Hnow. cbn [run checksOf].
    apply IH; [|done|done].
    rewrite RateLimitFacts.sweep_lookup, Hr. by rewrite decide_False by lia.
Qed.

(** What a client is told in the window it opens at [start]. *)
Lemma countdown_answers (ip : jsstring) (start : Z) (calls : list Call)
    (st : Limiter) :
  1 ≤ MAX_REQUESTS →
  noLiveRecord start ip st →
  Forall (λ c, clock c ≤ start + WINDOW_MS) calls →
  answers ip (runAll (Check start ip :: calls) st).1 =
    map (answerAfter MAX_REQUESTS 0) (seq 0 (S (checksOf ip calls))).
Proof.
  intros Hmax Hfresh Hcl. rewrite RateLimitFacts.run_check.
  rewrite RateLimitFacts.check_restart by done. cbn [fst snd].
  rewrite answers_cons, decide_True by done. cbn [map seq]. f_equal.
  { unfold answerAfter. rewrite bool_decide_eq_true_2 by (cbn; lia).
    f_equal; cbn; lia. }
  rewrite (answers_in_window ip (start + WINDOW_MS) calls _
             {| count := 1; resetTime := start + WINDOW_MS |});
    [| by cbn; rewrite lookup_insert_eq | done | done].
  rewrite <- seq_shift, map_map. apply map_ext. intros k.
  unfold answerAfter. cbn [count].
  replace (1 + Z.of_nat k) with (0 + Z.of_nat (S k)) by lia. done.
Qed.

(** X3: in the window a client opens at [start], its [k]-th request
    (from 0) is told [remaining = MAX_REQUESTS - 1 - k] while this is not
    negative, and is rejected with [remaining = 0] after that; the reset
    time of the window stays [start + WINDOW_MS] whatever is requested
    in it. *)
Theorem window_countdown (ip : jsstring) (start : Z) (calls : list Call)
    (st : Limiter) :
  1 ≤ MAX_REQUESTS →
  noLiveRecord start ip st →
  Forall (λ c, clock c ≤ start + WINDOW_MS) calls →
  let out := runAll (Check start ip :: calls) st in
  answers ip out.1 =
    map (answerAfter MAX_REQUESTS 0) (seq 0 (S (checksOf ip calls))) ∧
  ∃ r, rateLimitMap out.2 !! ip = Some r ∧
       resetTime r = start + WINDOW_MS.
Proof.
  intros Hmax Hfresh Hcl out. subst out.
  split; [by apply countdown_answers|].
  rewrite RateLimitFacts.run_check.
  rewrite RateLimitFacts.check_restart by done. cbn [fst snd].
  edestruct (RateLimitFacts.run_in_window WINDOW_MS MAX_REQUESTS ip
              (start + WINDOW_MS) calls
              (setRecord ip
                 {| count := 1; resetTime := start + WINDOW_MS |}
                 (ensureCleanupRunning st)))
    as [_ Hr]; [by cbn; rewrite lookup_insert_eq | done | done |].
  exact Hr.
Qed.

End WithConfig.

Lemma sweeps_unobservable_witness :
  (run 1000 2 morning initial).1
  = (run 1000 2 (dropSweeps morning) initial).1.
Proof.
  apply (sweeps_unobservable 1000 2 0 morning initial).
  cbn. repeat split; lia.
Defined.

Lemma clients_independent_witness :
  (checkRateLimit 1000 2 5 alice initial).1
    = (checkRateLimit 1000 2 5 alice
         (checkRateLimit 1000 2 7 bob initial).2).1 ∧
  (checkRateLimit 1000 2 7 bob initial).1
    = (checkRateLimit 1000 2 7 bob
         (checkRateLimit 1000 2 5 alice initial).2).1 ∧
  (checkRateLimit 1000 2 7 bob (checkRateLimit 1000 2 5 alice initial).2).2
    = (checkRateLimit 1000 2 5 alice
         (checkRateLimit 1000 2 7 bob initial).2).2.
Proof.
  apply (clients_independent 1000 2 5 7 alice bob initial). discriminate.
Defined.

Lemma window_countdown_witness :
  let out :=
    run 1000 2
      [Check 0 alice; Check 10 alice; Check 20 bob; Check 30 alice] initial in
  answers alice out.1 =
    [ {| allowed := true; remaining := 1 |};
      {| allowed := true; remaining := 0 |};
      {| allowed := false; remaining := 0 |} ] ∧
  ∃ r, rateLimitMap out.2 !! alice = Some r ∧ resetTime r = 0 + 1000.
Proof.
  apply (window_countdown 1000 2 alice 0
           [Check 10 alice; Check 20 bob; Check 30 alice] initial).
  - lia.
  - exact I.
  - repeat constructor; cbn; lia.
Defined.

(** *** The address of the client *)

Lemma beforeComma_first client rest :
  commaFree client = true → moreHops rest = true →
  beforeComma (client ++ rest) = client.
Proof.
  intros Hclient Hrest. induction client as [|c client IH].
  - destruct rest as [|c rest]; [done|]. cbn in *. by rewrite Hrest.
  - cbn in *. apply andb_true_iff in Hclient as [Hc Hclient].
    apply negb_true_iff in Hc. rewrite Hc. by rewrite IH.
Qed.

(** X4: of a forwarding header the first address counts.  When there
    is no [cf-connecting-ip], the key of the rate limiter is the text
    before the first comma of [x-vercel-forwarded-for], or else of
    [x-forwarded-for], without the white space around it; the hops that
    proxies have added after it, and [x-real-ip], do not change it. *)
Theorem forwarded_first_hop (headers : gmap jsstring jsstring)
    (client rest : jsstring) :
  presentHeader (headers !! lit "cf-connecting-ip") = None →
  presentHeader (headers !! lit "x-vercel-forwarded-for")
    = Some (client ++ rest)
  ∨ presentHeader (headers !! lit "x-vercel-forwarded-for") = None
    ∧ presentHeader (headers !! lit "x-forwarded-for")
      = Some (client ++ rest) →
  commaFree client = true → moreHops rest = true →
  getClientIP headers = trim client.
Proof.
  intros Hcf Hfwd Hclient Hrest. unfold getClientIP. rewrite Hcf.
  destruct Hfwd as [->|[-> ->]]; by rewrite beforeComma_first.
Qed.

Lemma forwarded_first_hop_witness :
  getClientIP proxied = trim (lit " 203.0.113.7 ")
  ∧ trim (lit " 203.0.113.7 ") = lit "203.0.113.7".
Proof.
  split; [|vm_compute; reflexivity].
  apply (forwarded_first_hop proxied (lit " 203.0.113.7 ")
           (lit ", 10.0.0.1")).
  - vm_compute. reflexivity.
  - right. split; vm_compute; reflexivity.
  - vm_compute. reflexivity.
  - vm_compute. reflexivity.
Defined.

End RateLimitTracesFacts.

(** ** Stream consumer: the reading loop *)

Module ReaderFacts.
Import Consumer Reader.

(** Induction over a string two code units at a time, as [splitFrames]
    reads it. *)
Lemma pairs_ind (P : jsstring → Prop) :
  P [] → (∀ c, P [c]) →
  (∀ c d s, P s → P (d :: s) → P (c :: d :: s)) →
  ∀ s, P s.
Proof.
  intros Hnil Hone Hstep s.
  enough (P s ∧ ∀ c, P (c :: s)) as [H _] by exact H.
  induction s as [|d s [IH1 IH2]]; [split; [exact Hnil | exact Hone]|].
  split; [apply IH2|]. intros c. apply Hstep; [exact IH1 | apply IH2].
Qed.

Lemma splitFrames_one c : splitFrames [c] = ([], [c]).
Proof. reflexivity. Qed.

Lemma splitFrames_two c d s :
  splitFrames (c :: d :: s) =
    if ((c =? 10) && (d =? 10))%N
    then ([] :: (splitFrames s).1, (splitFrames s).2)
    else keep c (splitFrames (d :: s)).
Proof.
  change (splitFrames (c :: d :: s)) with
    (if ((c =? 10) && (d =? 10))%N
     then let '(lines, rest) := splitFrames s in ([] :: lines, rest)
     else keep c (splitFrames (d :: s))).
  by destruct (splitFrames s).
Qed.

(** Nothing is lost: the lines, each with the separator after it, and
    the rest make up the text. *)
Lemma splitFrames_text s :
  s = flat_map (λ line, line ++ [10; 10]%N) (splitFrames s).1
      ++ (splitFrames s).2.
Proof.
  induction s as [| c | c d s IH1 IH2] using pairs_ind;
    [reflexivity | reflexivity |].
  rewrite splitFrames_two.
  destruct ((c =? 10) && (d =? 10))%N eqn:Hsep.
  - apply andb_true_iff in Hsep as [->%N.eqb_eq ->%N.eqb_eq].
    cbn. by rewrite <- IH1.
  - unfold keep. destruct (splitFrames (d :: s)) as [[|line lines] rest];
      cbn in *; by rewrite IH2.
Qed.

Lemma splitFrames_no_lines s :
  (splitFrames s).1 = [] → (splitFrames s).2 = s.
Proof.
  intros H. rewrite (splitFrames_text s) at 2. by rewrite H.
Qed.

(** The rest holds no separator. *)
Lemma splitFrames_rest s :
  splitFrames (splitFrames s).2 = ([], (splitFrames s).2).
Proof.
  induction s as [| c | c d s IH1 IH2] using pairs_ind;
    [reflexivity | reflexivity |].
  rewrite splitFrames_two.
  destruct ((c =? 10) && (d =? 10))%N eqn:Hsep; [exact IH1|].
  unfold keep.
  destruct (splitFrames (d :: s)) as [[|line lines] rest] eqn:Hds;
    cbn [fst snd] in *; [|exact IH2].
  pose proof (splitFrames_no_lines (d :: s)) as Hrest.
  rewrite Hds in Hrest. cbn in Hrest.
  assert (rest = d :: s) as -> by (apply Hrest; reflexivity).
  rewrite splitFrames_two, Hsep, Hds. reflexivity.
Qed.

(** Splitting a text that arrives in two parts: the lines of the first
    part, then those of its rest followed by the second part. *)
Lemma splitFrames_app a b :
  splitFrames (a ++ b) =
    ((splitFrames a).1 ++ (splitFrames ((splitFrames a).2 ++ b)).1,
     (splitFrames ((splitFrames a).2 ++ b)).2).
Proof.
  induction a as [| c | c d a IH1 IH2] using pairs_ind.
  - cbn. by destruct (splitFrames b).
  - rewrite splitFrames_one. cbn [fst snd app].
    by destruct (splitFrames (c :: b)).
  - change ((c :: d :: a) ++ b) with (c :: d :: (a ++ b)).
    rewrite !splitFrames_two.
    destruct ((c =? 10) && (d =? 10))%N eqn:Hsep.
    + rewrite IH1. reflexivity.
    + change (d :: a ++ b) with ((d :: a) ++ b). rewrite IH2.
      unfold keep at 2 3 4.
      destruct (splitFrames (d :: a)) as [[|line lines] rest] eqn:Hda;
        cbn [fst snd app].
      * pose proof (splitFrames_no_lines (d :: a)) as Hrest.
        rewrite Hda in Hrest. cbn in Hrest.
        assert (rest = d :: a) as -> by (apply Hrest; reflexivity).
        change (c :: (d :: a) ++ b) with (c :: d :: (a ++ b)).
        change ((d :: a) ++ b) with (d :: (a ++ b)).
        rewrite (splitFrames_two c), Hsep.
        destruct (splitFrames (d :: a ++ b)) as [lines' rest'].
        cbn [fst snd]. by destruct (keep c (lines', rest')).
      * unfold keep. cbn [fst snd app]. reflexivity.
Qed.

Section WithParser.

Variable JSON_parse : jsstring → option value.

Lemma handleLines_app lines lines' st :
  handleLines JSON_parse (lines ++ lines') st =
    let out := handleLines JSON_parse lines st in
    let out' := handleLines JSON_parse lines' out.1 in
    (out'.1, out.2 ++ out'.2).
Proof.
  revert st. induction lines as [|line lines IH]; intros st; cbn.
  - by destruct (handleLines JSON_parse lines' st).
  - destruct (handleLine JSON_parse line st) as [st1 e1].
    rewrite IH. cbn.
    destruct (handleLines JSON_parse lines st1) as [st2 e2]. cbn.
    destruct (handleLines JSON_parse lines' st2) as [st3 e3]. cbn.
    by rewrite app_assoc.
Qed.

Lemma feed_settled chunk rd : settled (feed JSON_parse chunk rd).1.
Proof.
  unfold settled, feed.
  pose proof (splitFrames_rest (buffer rd ++ chunk)) as H.
  destruct (splitFrames (buffer rd ++ chunk)) as [lines rest].
  destruct (handleLines JSON_parse lines (loop rd)). exact H.
Qed.

Lemma feed_nothing rd :
  settled rd → feed JSON_parse [] rd = (rd, []).
Proof.
  unfold settled, feed. intros H. rewrite app_nil_r, H. cbn.
  by destruct rd.
Qed.

Lemma feed_app chunk chunk' rd :
  feed JSON_parse (chunk ++ chunk') rd =
    let out := feed JSON_parse chunk rd in
    let out' := feed JSON_parse chunk' out.1 in
    (out'.1, out.2 ++ out'.2).
Proof.
  unfold feed. rewrite app_assoc, splitFrames_app.
  destruct (splitFrames (buffer rd ++ chunk)) as [lines rest].
  cbn [fst snd].
  rewrite handleLines_app. cbv zeta.
  destruct (handleLines JSON_parse lines (loop rd)) as [st1 e1].
  cbn [fst snd buffer loop].
  destruct (splitFrames (rest ++ chunk')) as [lines' rest'].
  cbn [fst snd].
  by destruct (handleLines JSON_parse lines' st1).
Qed.

Lemma feedAll_concat chunks rd :
  settled rd →
  feedAll JSON_parse chunks rd = feed JSON_parse (concat chunks) rd.
Proof.
  revert rd. induction chunks as [|chunk chunks IH]; intros rd Hrd.
  - cbn. by rewrite feed_nothing.
  - cbn [feedAll concat]. rewrite feed_app. cbv zeta.
    pose proof (feed_settled chunk rd) as Hnext.
    destruct (feed JSON_parse chunk rd) as [rd1 e1]. cbn [fst snd] in *.
    rewrite (IH rd1 Hnext).
    by destruct (feed JSON_parse (concat chunks) rd1).
Qed.

Lemma opened_settled : settled opened.
Proof. reflexivity. Qed.

(** X8: how the response is cut into chunks does not matter.  Reading a
    stream chunk by chunk leaves the loop with the variables, and its
    collaborators with the calls, of reading the whole text at once. *)
Theorem chunking_irrelevant chunks :
  feedAll JSON_parse chunks opened = feed JSON_parse (concat chunks) opened.
Proof. exact (feedAll_concat chunks opened opened_settled). Qed.

(** The whole run from the opening state, as one pass over the lines
    of the text. *)
Lemma feedAll_lines chunks :
  feedAll JSON_parse chunks opened =
    ({| buffer := (splitFrames (concat chunks)).2;
        loop := (handleLines JSON_parse
                   (splitFrames (concat chunks)).1 start).1 |},
     (handleLines JSON_parse (splitFrames (concat chunks)).1 start).2).
Proof.
  rewrite (feedAll_concat chunks opened opened_settled).
  unfold feed, opened. cbn [buffer loop app].
  destruct (splitFrames (concat chunks)) as [lines rest]. cbn [fst snd].
  by destruct (handleLines JSON_parse lines start).
Qed.

(** The lines that are no frames leave the variables alone, and add
    nothing but messages on the console. *)
Lemma handleLines_state lines st :
  (handleLines JSON_parse lines st).1 =
    (handleFrames JSON_parse (parsedFrames JSON_parse lines) st).1.
Proof.
  revert st. induction lines as [|line lines IH]; intros st; [reflexivity|].
  cbn [handleLines parsedFrames omap list_omap]. unfold handleLine.
  destruct (startsWith line (lit "data: ")).
  - destruct (JSON_parse (skipn 6 line)) as [data|].
    + cbn [handleFrames]. destruct (handleFrame JSON_parse data st) as [st1 e1].
      specialize (IH st1). fold (parsedFrames JSON_parse lines).
      destruct (handleLines JSON_parse lines st1),
        (handleFrames JSON_parse (parsedFrames JSON_parse lines) st1).
      exact IH.
    + specialize (IH st). fold (parsedFrames JSON_parse lines).
      destruct (handleLines JSON_parse lines st). exact IH.
  - specialize (IH st). fold (parsedFrames JSON_parse lines).
    destruct (handleLines JSON_parse lines st). exact IH.
Qed.

Lemma handleLines_effects lines st e :
  e ∈ (handleLines JSON_parse lines st).2 ↔
  e ∈ (handleFrames JSON_parse (parsedFrames JSON_parse lines) st).2
  ∨ e = ConsoleError (lit "SSE parse error:")
    ∧ Exists (λ line, startsWith line (lit "data: ") = true
                      ∧ JSON_parse (skipn 6 line) = None) lines.
Proof.
  revert st. induction lines as [|line lines IH]; intros st.
  - cbn. rewrite elem_of_nil, Exists_nil. tauto.
  - cbn [handleLines parsedFrames omap list_omap]. unfold handleLine.
    fold (parsedFrames JSON_parse lines). rewrite Exists_cons.
    destruct (startsWith line (lit "data: ")).
    + destruct (JSON_parse (skipn 6 line)) as [data|].
      * cbn [handleFrames].
        destruct (handleFrame JSON_parse data st) as [st1 e1].
        specialize (IH st1).
        destruct (handleLines JSON_parse lines st1),
          (handleFrames JSON_parse (parsedFrames JSON_parse lines) st1).
        cbn [snd] in *. rewrite !elem_of_app, IH.
        split; [|intros [[?|?]|[? [[_ ?]|?]]]]; [|tauto|tauto|discriminate|tauto].
        tauto.
      * specialize (IH st).
        destruct (handleLines JSON_parse lines st). cbn [snd app] in *.
        rewrite elem_of_cons, IH. tauto.
    + specialize (IH st).
      destruct (handleLines JSON_parse lines st). cbn [snd app] in *.
      rewrite IH. split; [tauto|].
      intros [?|[? [[? _]|?]]]; [tauto|discriminate|tauto].
Qed.

(** *** One frame *)

Lemma metadata_is_not_content data :
  isMetadataFrame data = true → contentOf data = [].
Proof.
  unfold isMetadataFrame, contentOf.
  destruct data; try reflexivity.
  destruct (get (VObject fields) (lit "type")); try discriminate.
  cbn. case_bool_decide; [subst; intros _; reflexivity | discriminate].
Qed.

Lemma onDone_state st : (onDone JSON_parse st).1 = st.
Proof.
  unfold onDone. destruct (matchBraces (aiContent st)); [|reflexivity].
  destruct (JSON_parse l) as [[]|]; reflexivity.
Qed.

Lemma frame_aiContent data st :
  aiContent (handleFrame JSON_parse data st).1 = aiContent st ++ contentOf data.
Proof.
  unfold handleFrame, onFrame.
  destruct data; try (cbn; by rewrite app_nil_r).
  destruct (isString (get (VObject fields) (lit "type")) (lit "metadata"))
    eqn:Hm.
  { rewrite (metadata_is_not_content (VObject fields) Hm), app_nil_r.
    destruct (get (VObject fields) (lit "data")); reflexivity. }
  unfold contentOf.
  destruct (isString (get (VObject fields) (lit "type")) (lit "content"));
    [reflexivity|].
  rewrite app_nil_r.
  destruct (isString (get (VObject fields) (lit "type")) (lit "error"));
    [reflexivity|].
  destruct (isString (get (VObject fields) (lit "type")) (lit "done"));
    [|reflexivity].
  cbn [fst]. by rewrite onDone_state.
Qed.

Lemma frame_currentResult data st :
  isMetadataFrame data = false →
  currentResult (handleFrame JSON_parse data st).1 = currentResult st.
Proof.
  unfold isMetadataFrame, handleFrame, onFrame. intros Hm.
  destruct data; try reflexivity. rewrite Hm.
  destruct (isString (get (VObject fields) (lit "type")) (lit "content"));
    [reflexivity|].
  destruct (isString (get (VObject fields) (lit "type")) (lit "error"));
    [reflexivity|].
  destruct (isString (get (VObject fields) (lit "type")) (lit "done"));
    [|reflexivity].
  cbn [fst]. by rewrite onDone_state.
Qed.

Lemma saveToCache_spec current result e :
  e ∈ saveToCache current result →
  e = StorageSet (fullNameOf current) result
        (get (VObject current) (lit "branch"))
  ∧ truthy (fullNameOf current) = true.
Proof.
  unfold saveToCache. fold (fullNameOf current).
  destruct (truthy (fullNameOf current)).
  - rewrite list_elem_of_singleton. by intros ->.
  - by rewrite elem_of_nil.
Qed.

(** What a [done] frame may do. *)
Lemma onDone_effects st e :
  e ∈ (onDone JSON_parse st).2 →
  e = completed ∨ e = ConsoleError (lit "Parse error:")
  ∨ (∃ result, e = UpdateResult result)
  ∨ ∃ result,
      e = StorageSet (fullNameOf (currentResult st)) result
            (get (VObject (currentResult st)) (lit "branch"))
      ∧ truthy (fullNameOf (currentResult st)) = true
      ∧ UpdateResult result ∈ (onDone JSON_parse st).2.
Proof.
  unfold onDone. cbv zeta.
  destruct (matchBraces (aiContent st)) as [text|];
    [|cbn [snd]; rewrite list_elem_of_singleton; tauto].
  assert (∀ result,
    e ∈ [UpdateResult result] ++ saveToCache (currentResult st) result
        ++ [completed] →
    e = completed ∨ e = ConsoleError (lit "Parse error:")
    ∨ (∃ result, e = UpdateResult result)
    ∨ ∃ result',
        e = StorageSet (fullNameOf (currentResult st)) result'
              (get (VObject (currentResult st)) (lit "branch"))
        ∧ truthy (fullNameOf (currentResult st)) = true
        ∧ result' = result) as Hsave.
  { intros result. rewrite !elem_of_app, !list_elem_of_singleton.
    intros [->|[Hin| ->]]; [eauto| |eauto].
    apply saveToCache_spec in Hin as [-> Ht]. eauto 10. }
  assert (∀ pre result,
    e ∈ pre ++ [UpdateResult result]
        ++ saveToCache (currentResult st) result ++ [completed] →
    (e ∈ pre → e = ConsoleError (lit "Parse error:")) →
    e = completed ∨ e = ConsoleError (lit "Parse error:")
    ∨ (∃ result, e = UpdateResult result)
    ∨ ∃ result',
        e = StorageSet (fullNameOf (currentResult st)) result'
              (get (VObject (currentResult st)) (lit "branch"))
        ∧ truthy (fullNameOf (currentResult st)) = true
        ∧ UpdateResult result'
            ∈ pre ++ [UpdateResult result]
              ++ saveToCache (currentResult st) result ++ [completed])
    as Hall.
  { intros pre result Hin Hpre. apply elem_of_app in Hin as [Hin|Hin];
      [auto|].
    destruct (Hsave result Hin) as [?|[?|[?|(r & -> & Ht & ->)]]];
      [tauto..|].
    right; right; right. exists result. split; [reflexivity|].
    split; [exact Ht|].
    rewrite !elem_of_app, list_elem_of_singleton. tauto. }
  destruct (JSON_parse text) as [analysisData|].
  - destruct analysisData; cbn [snd]; intros Hin;
      first [ apply (Hall [ConsoleError (lit "Parse error:")] _ Hin);
              by rewrite list_elem_of_singleton
            | apply (Hall [] _ Hin); by rewrite elem_of_nil ].
  - cbn [snd]. intros Hin.
    apply (Hall [ConsoleError (lit "Parse error:")] _ Hin).
    by rewrite list_elem_of_singleton.
Qed.

(** What one frame may do. *)
Lemma frame_effects data st e :
  e ∈ (handleFrame JSON_parse data st).2 →
  progressing e
  ∧ ∀ fullName result branch,
      e = StorageSet fullName result branch →
      fullName = fullNameOf (currentResult st)
      ∧ truthy fullName = true
      ∧ UpdateResult result ∈ (handleFrame JSON_parse data st).2.
Proof.
  assert (∀ message : jsstring,
    e ∈ [ConsoleError message] →
    progressing e
    ∧ ∀ fullName result branch,
        e = StorageSet fullName result branch →
        fullName = fullNameOf (currentResult st)
        ∧ truthy fullName = true
        ∧ UpdateResult result ∈ [ConsoleError message]) as Hlog.
  { intros message ->%list_elem_of_singleton.
    split; [exact I | discriminate]. }
  unfold handleFrame, onFrame.
  destruct data; try apply Hlog; try (cbn; by rewrite elem_of_nil).
  destruct (isString (get (VObject fields) (lit "type")) (lit "metadata")).
  { destruct (get (VObject fields) (lit "data")); try apply Hlog;
      cbn [snd]; rewrite !elem_of_cons, elem_of_nil;
      (intros [->|[->|[->|[]]]]; (split; [cbn; tauto | discriminate])). }
  destruct (isString (get (VObject fields) (lit "type")) (lit "content")).
  { cbn [snd]. intros ->%list_elem_of_singleton.
    split; [cbn; tauto | discriminate]. }
  destruct (isString (get (VObject fields) (lit "type")) (lit "error"));
    [apply Hlog|].
  destruct (isString (get (VObject fields) (lit "type")) (lit "done"));
    [|cbn; by rewrite elem_of_nil].
  intros Hin. cbn [snd] in *.
  destruct (onDone_effects st e Hin)
    as [->|[->|[[r ->]|(r & -> & Ht & Hshown)]]].
  - split; [cbn; tauto | discriminate].
  - split; [exact I | discriminate].
  - split; [exact I | discriminate].
  - split; [exact I|]. intros fullName result branch Heq.
    injection Heq as <- <- <-. done.
Qed.

(** *** A run of frames *)

Lemma frames_aiContent frames st :
  aiContent (handleFrames JSON_parse frames st).1 =
    aiContent st ++ concat (map contentOf frames).
Proof.
  revert st. induction frames as [|data frames IH]; intros st.
  - cbn. by rewrite app_nil_r.
  - cbn [handleFrames map concat].
    pose proof (frame_aiContent data st) as Hone.
    destruct (handleFrame JSON_parse data st) as [st1 e1].
    specialize (IH st1).
    destruct (handleFrames JSON_parse frames st1) as [st2 e2].
    cbn [fst] in *. by rewrite IH, Hone, app_assoc.
Qed.

Lemma frames_effects frames st e :
  e ∈ (handleFrames JSON_parse frames st).2 →
  progressing e
  ∧ ∀ fullName result branch,
      e = StorageSet fullName result branch →
      truthy fullName = true
      ∧ UpdateResult result ∈ (handleFrames JSON_parse frames st).2
      ∧ (truthy (fullNameOf (currentResult st)) = true
         ∨ Exists (λ data, isMetadataFrame data = true) frames).
Proof.
  revert st. induction frames as [|data frames IH]; intros st.
  - cbn. by rewrite elem_of_nil.
  - cbn [handleFrames].
    pose proof (frame_effects data st e) as Hone.
    pose proof (frame_currentResult data st) as Hkeep.
    destruct (handleFrame JSON_parse data st) as [st1 e1].
    specialize (IH st1).
    destruct (handleFrames JSON_parse frames st1) as [st2 e2].
    cbn [fst snd] in *. rewrite elem_of_app. intros [Hin|Hin].
    + destruct (Hone Hin) as [Hp Hset]. split; [exact Hp|].
      intros fullName result branch Heq.
      destruct (Hset _ _ _ Heq) as (-> & Ht & Hshown).
      split; [exact Ht|]. split; [|by left].
      rewrite elem_of_app. by left.
    + destruct (IH Hin) as [Hp Hset]. split; [exact Hp|].
      intros fullName result branch Heq.
      destruct (Hset _ _ _ Heq) as (Ht & Hshown & Hfrom).
      split; [exact Ht|]. split; [rewrite elem_of_app; by right|].
      rewrite Exists_cons.
      destruct (isMetadataFrame data) eqn:Hm; [right; by left|].
      destruct Hfrom as [Hfrom|Hfrom]; [|right; by right].
      left. by rewrite <- Hkeep.
Qed.

(** X9: the narrative is what the [content] frames carry, in the order
    of the stream.  The other frames, the lines [JSON.parse] refuses and
    the lines that do not start with ["data: "] add nothing to it. *)
Theorem narrative_accumulates chunks :
  aiContent (loop (feedAll JSON_parse chunks opened).1) =
    concat (map contentOf
              (parsedFrames JSON_parse (splitFrames (concat chunks)).1)).
Proof.
  rewrite feedAll_lines. cbn [fst loop].
  by rewrite handleLines_state, frames_aiContent.
Qed.

(** X10: the loop never sets the stage ["error"].  Whatever the stream
    holds, an [error] frame of the server included, the statuses it sets
    are ["analyzing"] and, with the step ["Analysis complete!"],
    ["complete"]. *)
Theorem statuses_never_error chunks :
  Forall progressing (feedAll JSON_parse chunks opened).2.
Proof.
  rewrite feedAll_lines. cbn [snd]. apply Forall_forall. intros e Hin.
  apply handleLines_effects in Hin as [Hin|[-> _]]; [|exact I].
  by apply frames_effects in Hin as [Hp _].
Qed.

(** X11: what is written to the cache.  A result that
    [analysisStorage.set] gets has been handed to the context by
    [updateResult], its key is truthy, and a metadata frame came with
    the stream. *)
Theorem cache_write_guarded chunks fullName result branch :
  StorageSet fullName result branch ∈ (feedAll JSON_parse chunks opened).2 →
  truthy fullName = true
  ∧ UpdateResult result ∈ (feedAll JSON_parse chunks opened).2
  ∧ Exists (λ data, isMetadataFrame data = true)
      (parsedFrames JSON_parse (splitFrames (concat chunks)).1).
Proof.
  rewrite feedAll_lines. cbn [snd]. intros Hin.
  apply handleLines_effects in Hin as [Hin|[Heq _]]; [|discriminate Heq].
  apply frames_effects in Hin as [_ Hset].
  destruct (Hset _ _ _ eq_refl) as (Ht & Hshown & [Hfrom|Hfrom]).
  - discriminate Hfrom.
  - split; [exact Ht|]. split; [|exact Hfrom].
    apply handleLines_effects. by left.
Qed.

End WithParser.

Lemma cache_write_guarded_witness :
  StorageSet (VString (lit "Devsethi3/Repo-Gist")) sampleResult
    (VString (lit "main"))
    ∈ (feedAll sampleParse sampleChunks opened).2
  ∧ truthy (VString (lit "Devsethi3/Repo-Gist")) = true
  ∧ UpdateResult sampleResult ∈ (feedAll sampleParse sampleChunks opened).2
  ∧ Exists (λ data, isMetadataFrame data = true)
      (parsedFrames sampleParse (splitFrames (concat sampleChunks)).1).
Proof.
  assert (StorageSet (VString (lit "Devsethi3/Repo-Gist")) sampleResult
            (VString (lit "main"))
          ∈ (feedAll sampleParse sampleChunks opened).2) as Hin.
  { vm_compute.
    repeat first [apply list_elem_of_here | apply list_elem_of_further]. }
  split; [exact Hin|].
  exact (cache_write_guarded sampleParse sampleChunks _ _ _ Hin).
Defined.

(** *** The result of the [done] frame *)








End ReaderFacts.

(** ** Request admission: metering and the order of the gates *)

Module RouteOrderFacts.
Import RateLimit RateLimitTraces Route RouteTraffic.

Section WithServer.

Variables WINDOW_MS MAX_REQUESTS : Z.
Variable JSON_parse : jsstring → option value.
Variable analysis : value → RateLimitResult → Response * list Step.

Local Abbreviation post :=
  (POST WINDOW_MS MAX_REQUESTS true JSON_parse analysis).
Local Abbreviation meter := (checkRateLimit WINDOW_MS MAX_REQUESTS).


(** A check that rejects leaves the map as it was. *)
Lemma rejecting_keeps_map (now : Z) (ip : jsstring) (st : Limiter) :
  allowed (meter now ip st).1 = false →
  rateLimitMap (meter now ip st).2 = rateLimitMap st.
Proof.
  unfold checkRateLimit. cbn.
  destruct (rateLimitMap st !! ip) as [r|]; cbn; [|discriminate].
  destruct (now >? resetTime r); cbn; [discriminate|].
  destruct (count r >=? MAX_REQUESTS); cbn; [reflexivity | discriminate].
Qed.

(** X6: a client over its quota is answered 429 with [Retry-After: 60];
    its body is not read, nothing is parsed or called, and the map of
    the rate limiter is as it was. *)
Theorem rate_limited_costs_nothing (now : Z) (request : Request)
    (st : Limiter) :
  allowed (meter now (getClientIP (headers request)) st).1 = false →
  post now request st =
    (Json 429 (lit "Too many requests. Please try again later.")
       [(lit "Retry-After", lit "60")],
     (meter now (getClientIP (headers request)) st).2, []) ∧
  rateLimitMap (post now request st).1.2 = rateLimitMap st.
Proof.
  intros Hrej.
  pose proof (rejecting_keeps_map now (getClientIP (headers request)) st
                Hrej) as Hmap.
  assert (post now request st =
            (Json 429 (lit "Too many requests. Please try again later.")
               [(lit "Retry-After", lit "60")],
             (meter now (getClientIP (headers request)) st).2, []))
    as Hpost.
  { unfold POST. cbn [negb].
    destruct (meter now (getClientIP (headers request)) st) as [res st'].
    cbn [fst snd] in *. by rewrite Hrej. }
  split; [exact Hpost|]. rewrite Hpost. exact Hmap.
Qed.

(** A request that is admitted, is not too large and whose body is no
    JSON is answered 400; the body has been read and parsed, and
    nothing has been called. *)
Lemma malformed_json_rejected (now : Z) (request : Request) (st : Limiter) :
  allowed (meter now (getClientIP (headers request)) st).1 = true →
  declaredTooLarge request = false → bodyTooLarge request = false →
  JSON_parse (body request) = None →
  (post now request st).1.1 = Json 400 (lit "Invalid JSON in request body") []
  ∧ (post now request st).2 = [ReadBody; ParseJson].
Proof.
  intros Hal Hd Hb Hp. unfold POST. cbn [negb].
  destruct (meter now (getClientIP (headers request)) st) as [res st'].
  cbn [fst snd] in *. by rewrite Hal, Hd, Hb, Hp.
Qed.

(** X7: nothing is parsed before the gates are passed.  A request
    whose body has been handed to [JSON.parse] came to a configured
    server, was admitted by the rate limiter, declared no length above
    the limit and had no body above it. *)
Theorem parsing_needs_admission (isConfigured : bool) (now : Z)
    (request : Request) (st : Limiter) :
  ParseJson ∈ (POST WINDOW_MS MAX_REQUESTS isConfigured JSON_parse analysis
                 now request st).2 →
  isConfigured = true
  ∧ allowed (meter now (getClientIP (headers request)) st).1 = true
  ∧ declaredTooLarge request = false
  ∧ bodyTooLarge request = false.
Proof.
  unfold POST. destruct isConfigured; cbn [negb];
    [|by intros ?%elem_of_nil].
  destruct (meter now (getClientIP (headers request)) st) as [res st'].
  cbn [fst]. destruct (allowed res); cbn [negb];
    [|by intros ?%elem_of_nil].
  destruct (declaredTooLarge request); [by intros ?%elem_of_nil|].
  destruct (bodyTooLarge request); [|done].
  cbn [snd]. by intros [=]%list_elem_of_singleton.
Qed.

(** What [POST] makes of the verdict of the rate limiter. *)
Lemma POST_gate (now : Z) (request : Request) (st : Limiter) :
  limited ((post now request st).1.1, (post now request st).2)
    = negb (allowed (meter now (getClientIP (headers request)) st).1)
  ∧ (post now request st).1.2
    = (meter now (getClientIP (headers request)) st).2.
Proof.
  unfold POST. cbn [negb].
  destruct (meter now (getClientIP (headers request)) st) as [res st'].
  cbn [fst snd]. destruct (allowed res); [|done]. cbn [negb].
  destruct (declaredTooLarge request); [done|].
  destruct (bodyTooLarge request); [done|].
  destruct (JSON_parse (body request)) as [parsed|]; [|done].
  by destruct (analysis parsed res) as [[] ?].
Qed.

(** The requests of one client, as the rate limiter sees them. *)
Lemma serve_as_run ip calls : ∀ st,
  Forall (λ c, getClientIP (headers c.2) = ip) calls →
  map limited
    (serve WINDOW_MS MAX_REQUESTS true JSON_parse analysis calls st).1
  = map (λ res, negb (allowed res))
      (answers ip
         (run WINDOW_MS MAX_REQUESTS (map (λ c, Check c.1 ip) calls) st).1).
Proof.
  induction calls as [|[now request] calls IH]; intros st Hip; [done|].
  apply Forall_cons in Hip as [Hnow Hip]. cbn [snd] in Hnow.
  cbn [serve map fst]. rewrite RateLimitFacts.run_check.
  destruct (POST_gate now request st) as [Hgate Hst]. rewrite Hnow in *.
  destruct (post now request st) as [[response st'] steps].
  cbn [fst snd] in *. subst st'.
  specialize (IH (meter now ip st).2 Hip).
  destruct (serve WINDOW_MS MAX_REQUESTS true JSON_parse analysis calls
              (meter now ip st).2) as [outs st''].
  cbn [fst snd map] in *.
  rewrite RateLimitTracesFacts.answers_cons, decide_True by done.
  cbn [map]. by rewrite Hgate, IH.
Qed.

Lemma checksOf_own ip (calls : list (Z * Request)) :
  checksOf ip (map (λ c, Check c.1 ip) calls) = length calls.
Proof.
  induction calls as [|c calls IH]; [done|]. cbn [map checksOf length].
  by rewrite decide_True, IH.
Qed.

(** X30: the quota at the door.  Of the requests that reach a
    configured server from one client in the window its first request
    opens, the first [MAX_REQUESTS] pass the rate limiter, whatever
    becomes of them afterwards, and every later one is answered 429
    with no step taken. *)
Theorem quota_at_the_door (ip : jsstring) (start : Z) (request : Request)
    (more : list (Z * Request)) (st : Limiter) :
  1 ≤ MAX_REQUESTS →
  noLiveRecord start ip st →
  Forall (λ c, getClientIP (headers c.2) = ip ∧ c.1 ≤ start + WINDOW_MS)
    ((start, request) :: more) →
  map limited
    (serve WINDOW_MS MAX_REQUESTS true JSON_parse analysis
       ((start, request) :: more) st).1
  = map (λ k, bool_decide (MAX_REQUESTS ≤ Z.of_nat k))
      (seq 0 (S (length more))).
Proof.
  intros Hmax Hfresh Hcalls.
  rewrite (serve_as_run ip)
    by (eapply Forall_impl; [exact Hcalls | by intros c [? _]]).
  cbn [map fst].
  rewrite (RateLimitTracesFacts.countdown_answers WINDOW_MS MAX_REQUESTS);
    [|done|done|].
  - rewrite checksOf_own, map_map. apply map_ext. intros k.
    unfold answerAfter. by case_bool_decide; case_bool_decide; try lia.
  - apply Forall_cons in Hcalls as [_ Hmore].
    apply Forall_fmap. eapply Forall_impl; [exact Hmore|].
    by intros c [_ ?].
Qed.

End WithServer.

Lemma rate_limited_costs_nothing_witness :
  POST 1000 2 true Consumer.rejectAll streaming 500 elevenKiB limiter_full =
    (Json 429 (lit "Too many requests. Please try again later.")
       [(lit "Retry-After", lit "60")],
     (checkRateLimit 1000 2 500 (getClientIP (headers elevenKiB))
        limiter_full).2, []) ∧
  rateLimitMap
    (POST 1000 2 true Consumer.rejectAll streaming 500 elevenKiB
       limiter_full).1.2
  = rateLimitMap limiter_full.
Proof.
  apply (rate_limited_costs_nothing 1000 2 Consumer.rejectAll streaming 500
           elevenKiB limiter_full).
  reflexivity.
Defined.

Lemma parsing_needs_admission_witness :
  ParseJson ∈ (POST 1000 2 true Consumer.rejectAll streaming 500 notJson
                 initial).2
  ∧ true = true
  ∧ allowed (checkRateLimit 1000 2 500 (getClientIP (headers notJson))
               initial).1 = true
  ∧ declaredTooLarge notJson = false
  ∧ bodyTooLarge notJson = false.
Proof.
  assert (ParseJson ∈ (POST 1000 2 true Consumer.rejectAll streaming 500
                         notJson initial).2) as Hin.
  { vm_compute. apply list_elem_of_further, list_elem_of_here. }
  split; [exact Hin|].
  exact (parsing_needs_admission 1000 2 Consumer.rejectAll streaming true
           500 notJson initial Hin).
Defined.

Lemma quota_at_the_door_witness :
  map limited
    (serve 1000 2 true Consumer.rejectAll streaming burst initial).1
  = [false; false; true].
Proof.
  apply (quota_at_the_door 1000 2 Consumer.rejectAll streaming
           (lit "10.0.0.1") 0 notJson [(10, elevenKiB); (20, notJson)]
           initial).
  - lia.
  - exact I.
  - repeat constructor; cbn; lia.
Defined.

End RouteOrderFacts.

(** ** Repository names *)

Module RepoNameFacts.
Import StringFacts RepoName.

(** *** Runs *)

Lemma span_run p run rest :
  forallb p run = true →
  match rest with [] => true | c :: _ => negb (p c) end = true →
  span p (run ++ rest) = (run, rest).
Proof.
  intros Hrun Hrest. induction run as [|c run IH].
  - destruct rest as [|c rest]; [reflexivity|]. cbn.
    by apply negb_true_iff in Hrest as ->.
  - cbn in *. apply andb_true_iff in Hrun as [-> Hrun]. by rewrite IH.
Qed.

Lemma span_spec p s :
  s = (span p s).1 ++ (span p s).2
  ∧ forallb p (span p s).1 = true
  ∧ match (span p s).2 with [] => True | c :: _ => p c = false end.
Proof.
  induction s as [|c s (IH1 & IH2 & IH3)]; [done|]. cbn.
  destruct (p c) eqn:Hc; [|done].
  destruct (span p s) as [run rest]. cbn in *. rewrite Hc. by subst.
Qed.

Lemma notSlash_false c : notSlash c = false → c = slash.
Proof. unfold notSlash. by intros ->%negb_false_iff%N.eqb_eq. Qed.

Lemma repoUnit_plain c : repoUnit c = true → plainUnit c = true.
Proof.
  unfold repoUnit, plainUnit.
  by intros [[-> _]%andb_true_iff _]%andb_true_iff.
Qed.

Lemma plainUnit_notSlash c : plainUnit c = true → notSlash c = true.
Proof. unfold plainUnit, notSlash. by intros [-> _]%andb_true_iff. Qed.

Lemma plainUnit_black c : plainUnit c = true → isWhiteSpace c = false.
Proof.
  unfold plainUnit. by intros [_ ->%negb_true_iff]%andb_true_iff.
Qed.

(** The group that [matchName] finds. *)
Lemma matchName_spec s name :
  matchName s = Some name →
  ∃ owner repo rest,
    name = fullName owner repo ∧ s = name ++ rest
    ∧ owner ≠ [] ∧ repo ≠ []
    ∧ forallb notSlash owner = true ∧ forallb repoUnit repo = true.
Proof.
  unfold matchName.
  pose proof (span_spec notSlash s) as (Hs & Howner & Hstop).
  destruct (span notSlash s) as [owner rest]. cbn [fst snd] in *.
  destruct owner as [|o owner]; [discriminate|].
  destruct rest as [|c rest]; [discriminate|].
  apply notSlash_false in Hstop as ->.
  pose proof (span_spec repoUnit rest) as (Hr & Hrepo & _).
  destruct (span repoUnit rest) as [repo rest']. cbn [fst snd] in *.
  destruct repo as [|r repo]; [discriminate|].
  intros [= <-]. exists (o :: owner), (r :: repo), rest'.
  split; [reflexivity|]. split; [|done].
  rewrite Hs, Hr at 1. unfold fullName. cbn [app].
  f_equal. by rewrite <- app_assoc.
Qed.

Lemma matchName_finds owner repo tail :
  owner ≠ [] → repo ≠ [] →
  forallb notSlash owner = true → forallb repoUnit repo = true →
  ends tail = true →
  matchName (fullName owner repo ++ tail) = Some (fullName owner repo).
Proof.
  intros Ho Hr Howner Hrepo Htail. unfold matchName, fullName.
  rewrite <- !app_assoc, (span_run notSlash owner) by done.
  destruct owner as [|o owner]; [done|]. cbn [app].
  rewrite (span_run repoUnit repo) by done.
  by destruct repo.
Qed.

(** *** The two expressions *)

Lemma skipOptional_app p s : skipOptional p (p ++ s) = s.
Proof. unfold skipOptional. by rewrite startsWith_app, skipn_app_length. Qed.

Lemma matchGithubAt_address address rest :
  address ∈ addresses →
  matchGithubAt (address ++ rest) = matchName rest.
Proof.
  set (host := lit "github.com/" ++ rest).
  assert ((if startsWith host (lit "github.com/")
           then matchName (skipn 11 host) else None) = matchName rest)
    as Hhost.
  { unfold host. rewrite startsWith_app.
    change 11%nat with (length (lit "github.com/")).
    by rewrite skipn_app_length. }
  assert (∀ s, s = host ∨ s = lit "www." ++ host →
               skipOptional (lit "www.") s = host) as Hwww.
  { intros s [->| ->]; [reflexivity | apply skipOptional_app]. }
  assert (∀ s, s = host ∨ s = lit "www." ++ host →
    matchGithubAt s = matchName rest
    ∧ matchGithubAt (lit "http://" ++ s) = matchName rest
    ∧ matchGithubAt (lit "https://" ++ s) = matchName rest) as Hall.
  { intros s Hs. unfold matchGithubAt. split; [|split].
    - replace (startsWith s (lit "https://")) with false
        by (by destruct Hs as [->| ->]).
      replace (skipOptional (lit "http://") s) with s
        by (by destruct Hs as [->| ->]).
      by rewrite (Hwww s Hs).
    - change (startsWith (lit "http://" ++ s) (lit "https://")) with false.
      cbv iota. rewrite !skipOptional_app. by rewrite (Hwww s Hs).
    - rewrite startsWith_app.
      change (skipn 8 (lit "https://" ++ s)) with s.
      by rewrite (Hwww s Hs). }
  unfold addresses. rewrite !elem_of_cons, elem_of_nil.
  intros [->|[->|[->|[->|[->|[->|[]]]]]]].
  - apply (Hall host). by left.
  - apply (Hall (lit "www." ++ host)). by right.
  - apply (Hall host). by left.
  - apply (Hall (lit "www." ++ host)). by right.
  - apply (Hall host). by left.
  - apply (Hall (lit "www." ++ host)). by right.
Qed.

Lemma slashes_app s t : slashes (s ++ t) = (slashes s + slashes t)%nat.
Proof. unfold slashes. by rewrite List.filter_app, length_app. Qed.

Lemma slashes_skipn n s : (slashes (skipn n s) ≤ slashes s)%nat.
Proof.
  rewrite <- (firstn_skipn n s) at 2. rewrite slashes_app. lia.
Qed.

Lemma slashes_none p s :
  (∀ c, p c = true → notSlash c = true) →
  forallb p s = true → slashes s = 0%nat.
Proof.
  intros Hp. induction s as [|c s IH]; [done|]. cbn [forallb].
  intros [Hc Hs]%andb_true_iff. unfold slashes in *. cbn [List.filter].
  apply Hp in Hc. unfold notSlash in Hc.
  apply negb_true_iff in Hc. rewrite N.eqb_sym in Hc. rewrite Hc. by apply IH.
Qed.

Lemma white_notSlash c : isWhiteSpace c = true → notSlash c = true.
Proof.
  unfold notSlash. destruct (c =? slash)%N eqn:Hc; [|done].
  by apply N.eqb_eq in Hc as ->.
Qed.

(** A match of [githubRegex] takes two slashes. *)
Lemma matchGithubAt_slashes s name :
  matchGithubAt s = Some name → (2 ≤ slashes s)%nat.
Proof.
  unfold matchGithubAt.
  set (s1 := if startsWith s (lit "https://") then skipn 8 s
             else skipOptional (lit "http://") s).
  set (s2 := skipOptional (lit "www.") s1).
  assert (slashes s2 ≤ slashes s)%nat as Hle.
  { transitivity (slashes s1).
    - unfold s2, skipOptional. destruct (startsWith s1 (lit "www."));
        [apply slashes_skipn | done].
    - unfold s1, skipOptional. destruct (startsWith s (lit "https://"));
        [apply slashes_skipn|].
      destruct (startsWith s (lit "http://")); [apply slashes_skipn | done]. }
  destruct (startsWith s2 (lit "github.com/")) eqn:Hg; [|discriminate].
  intros (owner & repo & rest & -> & Hs & _)%matchName_spec.
  apply startsWith_split in Hg.
  change (length (lit "github.com/")) with 11%nat in Hg. rewrite Hs in Hg.
  enough (2 ≤ slashes s2)%nat by lia.
  rewrite Hg. unfold fullName. rewrite !slashes_app.
  change (slashes (lit "github.com/")) with 1%nat.
  change (slashes [slash]) with 1%nat. lia.
Qed.

Lemma matchGithub_slashes s name :
  matchGithub s = Some name → (2 ≤ slashes s)%nat.
Proof.
  induction s as [|c s IH]; cbn [matchGithub].
  - destruct (matchGithubAt []) eqn:Hat; [|discriminate].
    intros _. by apply matchGithubAt_slashes in Hat.
  - destruct (matchGithubAt (c :: s)) eqn:Hat.
    + intros _. by apply matchGithubAt_slashes in Hat.
    + intros Hs%IH. change (c :: s) with ([c] ++ s).
      rewrite slashes_app. lia.
Qed.

Lemma matchGithub_few s : (slashes s < 2)%nat → matchGithub s = None.
Proof.
  intros Hs. destruct (matchGithub s) eqn:Hm; [|done].
  apply matchGithub_slashes in Hm. lia.
Qed.

Lemma matchGithub_spec s name :
  matchGithub s = Some name →
  ∃ owner repo,
    name = fullName owner repo ∧ owner ≠ [] ∧ repo ≠ []
    ∧ forallb notSlash owner = true ∧ forallb repoUnit repo = true.
Proof.
  assert (∀ s, matchGithubAt s = Some name →
    ∃ owner repo,
      name = fullName owner repo ∧ owner ≠ [] ∧ repo ≠ []
      ∧ forallb notSlash owner = true ∧ forallb repoUnit repo = true)
    as Hat.
  { clear s. intros s. unfold matchGithubAt.
    destruct (startsWith _ (lit "github.com/")); [|discriminate].
    intros (owner & repo & rest & ? & ? & ?)%matchName_spec. eauto. }
  induction s as [|c s IH]; cbn [matchGithub].
  - destruct (matchGithubAt []) eqn:H; [|discriminate].
    intros [= <-]. eauto.
  - destruct (matchGithubAt (c :: s)) eqn:H; [|exact IH].
    intros [= <-]. eauto.
Qed.

(** *** The ending [.git] *)

Lemma withoutGit_clone name : withoutGit (name ++ lit ".git") = name.
Proof.
  unfold withoutGit, endsWith. rewrite rev_app_distr, startsWith_app.
  rewrite length_app. cbn [length lit map list_ascii_of_string].
  replace (length name + 4 - 4)%nat with (length name) by lia.
  by rewrite firstn_app, Nat.sub_diag, firstn_all, app_nil_r.
Qed.

(** The ending lies in the name of the repository. *)
Lemma withoutGit_fullName owner repo :
  forallb notSlash repo = true →
  ∃ repo', withoutGit (fullName owner repo) = fullName owner repo'
           ∧ forallb notSlash repo' = true
           ∧ (∀ p, forallb p repo = true → forallb p repo' = true).
Proof.
  intros Hrepo. unfold withoutGit.
  destruct (endsWith (fullName owner repo) (lit ".git")) eqn:Hends;
    [|by exists repo].
  unfold endsWith, fullName in Hends.
  rewrite !rev_app_distr in Hends. cbn [rev app] in Hends.
  rewrite <- (forallb_rev notSlash) in Hrepo.
  assert (∃ repo', repo = repo' ++ lit ".git") as [repo' ->].
  { destruct (rev repo) as [|a [|b [|c [|d r]]]] eqn:Hrev; cbn in Hends, Hrepo;
      try (repeat (apply andb_true_iff in Hends as [? Hends]); discriminate).
    repeat (apply andb_true_iff in Hends as [?%N.eqb_eq Hends]). subst.
    exists (rev r). apply (f_equal (@rev N)) in Hrev.
    rewrite rev_involutive in Hrev. rewrite Hrev. cbn.
    by rewrite <- !app_assoc. }
  exists repo'.
  replace (fullName owner (repo' ++ lit ".git"))
    with (fullName owner repo' ++ lit ".git")
    by (unfold fullName; by rewrite <- !app_assoc).
  rewrite length_app. cbn [length lit map list_ascii_of_string].
  replace (length (fullName owner repo') + 4 - 4)%nat
    with (length (fullName owner repo')) by lia.
  rewrite firstn_app, Nat.sub_diag, firstn_all, app_nil_r.
  split; [reflexivity|].
  rewrite forallb_rev, forallb_app in Hrepo.
  apply andb_true_iff in Hrepo as [Hrepo _].
  split; [exact Hrepo|]. intros p. rewrite forallb_app.
  by intros [? _]%andb_true_iff.
Qed.

(** *** [extractRepoFullName] *)

Lemma matchGithub_here s name :
  matchGithubAt s = Some name → matchGithub s = Some name.
Proof. intros H. destruct s; cbn [matchGithub]; by rewrite H. Qed.

Lemma matchSimple_spec s name :
  matchSimple s = Some name →
  name = s
  ∧ ∃ owner repo,
      s = fullName owner repo ∧ owner ≠ [] ∧ repo ≠ []
      ∧ forallb plainUnit owner = true ∧ forallb plainUnit repo = true.
Proof.
  unfold matchSimple.
  pose proof (span_spec plainUnit s) as (Hs & Howner & _).
  destruct (span plainUnit s) as [owner rest]. cbn [fst snd] in *.
  destruct owner as [|o owner]; [discriminate|].
  destruct rest as [|c rest]; [discriminate|].
  destruct (c =? slash)%N eqn:Hc; [|discriminate].
  apply N.eqb_eq in Hc as ->.
  pose proof (span_spec plainUnit rest) as (Hr & Hrepo & _).
  destruct (span plainUnit rest) as [repo rest']. cbn [fst snd] in *.
  destruct repo as [|r repo]; [discriminate|].
  destruct rest'; [|discriminate]. intros [= <-]. split; [reflexivity|].
  exists (o :: owner), (r :: repo). rewrite app_nil_r in Hr.
  split; [by rewrite Hs, Hr|done].
Qed.

Lemma matchSimple_finds owner repo :
  owner ≠ [] → repo ≠ [] →
  forallb plainUnit owner = true → forallb plainUnit repo = true →
  matchSimple (fullName owner repo) = Some (fullName owner repo).
Proof.
  intros Ho Hr Howner Hrepo. unfold matchSimple. unfold fullName at 1.
  rewrite (span_run plainUnit owner) by done.
  destruct owner as [|o owner]; [done|]. cbn [app].
  rewrite N.eqb_refl.
  rewrite <- (app_nil_r repo) at 1. rewrite (span_run plainUnit repo) by done.
  by destruct repo.
Qed.

Lemma slashes_fullName owner repo :
  forallb notSlash owner = true → forallb notSlash repo = true →
  slashes (fullName owner repo) = 1%nat.
Proof.
  intros Ho Hr. unfold fullName. rewrite !slashes_app.
  rewrite (slashes_none notSlash owner), (slashes_none notSlash repo) by done.
  reflexivity.
Qed.

Lemma slashes_rev s : slashes (rev s) = slashes s.
Proof.
  induction s as [|c s IH]; [reflexivity|].
  cbn [rev]. rewrite slashes_app, IH.
  change (c :: s) with ([c] ++ s). rewrite slashes_app. lia.
Qed.

Lemma slashes_trimStart s : (slashes (trimStart s) ≤ slashes s)%nat.
Proof.
  induction s as [|c s IH]; [done|]. cbn [trimStart].
  destruct (isWhiteSpace c); [|done].
  change (c :: s) with ([c] ++ s). rewrite slashes_app. lia.
Qed.

Lemma slashes_trim s : (slashes (trim s) ≤ slashes s)%nat.
Proof.
  unfold trim, trimEnd. rewrite slashes_rev.
  etransitivity; [apply slashes_trimStart|].
  rewrite slashes_rev. apply slashes_trimStart.
Qed.

(** X13: the name [extractRepoFullName] returns has one slash, with an
    owner in front of it that is not empty, and no white space after
    it.  (The owner of a URL may hold white space, and the name of the
    repository is empty when the URL ends with [/.git].) *)
Theorem extracted_name_shape url name :
  extractRepoFullName url = Some name →
  ∃ owner repo,
    name = fullName owner repo ∧ owner ≠ []
    ∧ forallb notSlash owner = true ∧ forallb plainUnit repo = true.
Proof.
  unfold extractRepoFullName.
  destruct (matchGithub url) as [group|] eqn:Hgithub.
  - apply matchGithub_spec in Hgithub
      as (owner & repo & -> & Ho & _ & Howner & Hrepo).
    intros [= <-].
    destruct (withoutGit_fullName owner repo) as (repo' & -> & _ & Hsub).
    { apply (forallb_impl repoUnit); [|exact Hrepo].
      intros c Hc. by apply plainUnit_notSlash, repoUnit_plain. }
    exists owner, repo'. split; [reflexivity|]. split; [exact Ho|].
    split; [exact Howner|]. apply Hsub.
    by apply (forallb_impl repoUnit); [apply repoUnit_plain|].
  - intros (-> & owner & repo & -> & Ho & _ & Howner & Hrepo)%matchSimple_spec.
    exists owner, repo. split; [reflexivity|]. split; [exact Ho|].
    split; [|exact Hrepo].
    by apply (forallb_impl plainUnit); [apply plainUnit_notSlash|].
Qed.

Lemma github_url address owner repo tail :
  address ∈ addresses → owner ≠ [] → repo ≠ [] →
  forallb notSlash owner = true → forallb repoUnit repo = true →
  ends tail = true →
  extractRepoFullName (address ++ fullName owner repo ++ tail) =
    Some (withoutGit (fullName owner repo)).
Proof.
  intros Ha Ho Hr Howner Hrepo Htail. unfold extractRepoFullName.
  rewrite (matchGithub_here _ (fullName owner repo)); [reflexivity|].
  rewrite (matchGithubAt_address _ _ Ha). by apply matchName_finds.
Qed.

(** X14: a URL of a repository gives its name back.  After any of the
    six ways to write the address of GitHub, an owner without a slash
    and a repository name without a slash, white space, [?] or [#],
    followed by nothing or by a text that starts with one of these,
    give [owner/repo] with one ending [.git] taken off; and the URL to
    clone the repository gives [owner/repo]. *)
Theorem github_url_round_trip address owner repo tail :
  address ∈ addresses → owner ≠ [] → repo ≠ [] →
  forallb notSlash owner = true → forallb repoUnit repo = true →
  ends tail = true →
  extractRepoFullName (address ++ fullName owner repo ++ tail) =
    Some (withoutGit (fullName owner repo))
  ∧ extractRepoFullName
      (address ++ fullName owner (repo ++ lit ".git") ++ tail) =
      Some (fullName owner repo).
Proof.
  intros Ha Ho Hr Howner Hrepo Htail.
  split; [by apply github_url|].
  rewrite github_url; try done.
  - unfold fullName. rewrite !app_assoc, withoutGit_clone.
    by rewrite <- !app_assoc.
  - by destruct repo.
  - rewrite forallb_app, Hrepo. reflexivity.
Qed.

(** X15: the short form gives itself back.  An owner and a repository
    name without slash and white space, joined by a slash and with
    white space around them, give [owner/repo]. *)
Theorem short_form_round_trip before after owner repo :
  forallb isWhiteSpace before = true → forallb isWhiteSpace after = true →
  owner ≠ [] → repo ≠ [] →
  forallb plainUnit owner = true → forallb plainUnit repo = true →
  extractRepoFullName (before ++ fullName owner repo ++ after) =
    Some (fullName owner repo).
Proof.
  intros Hb Ha Ho Hr Howner Hrepo. unfold extractRepoFullName.
  assert (forallb notSlash owner = true) as Hno
    by (by apply (forallb_impl plainUnit); [apply plainUnit_notSlash|]).
  assert (forallb notSlash repo = true) as Hnr
    by (by apply (forallb_impl plainUnit); [apply plainUnit_notSlash|]).
  rewrite matchGithub_few.
  2:{ rewrite !slashes_app, (slashes_fullName _ _ Hno Hnr),
        (slashes_none _ before white_notSlash Hb),
        (slashes_none _ after white_notSlash Ha). lia. }
  replace (trim (before ++ fullName owner repo ++ after))
    with (fullName owner repo); [by apply matchSimple_finds|].
  destruct owner as [|c owner]; [done|].
  destruct repo as [|d repo _] using rev_ind; [done|].
  replace (fullName (c :: owner) (repo ++ [d]))
    with (c :: (owner ++ [slash] ++ repo) ++ [d])
    by (unfold fullName; cbn [app]; by rewrite <- !app_assoc).
  symmetry. apply trim_padded; try done.
  - cbn in Howner. apply andb_true_iff in Howner as [Hc _].
    by apply plainUnit_black.
  - rewrite forallb_app in Hrepo. cbn in Hrepo.
    apply andb_true_iff in Hrepo as [_ [Hd _]%andb_true_iff].
    by apply plainUnit_black.
Qed.

(** X16: a text without a slash is no name of a repository. *)
Theorem no_slash_refused url :
  slashes url = 0%nat → extractRepoFullName url = None.
Proof.
  intros Hnone. unfold extractRepoFullName.
  rewrite matchGithub_few by lia.
  destruct (matchSimple (trim url)) as [name|] eqn:Hsimple; [|reflexivity].
  apply matchSimple_spec in Hsimple
    as (_ & owner & repo & Htrim & _ & _ & Howner & Hrepo).
  pose proof (slashes_trim url) as Hle. rewrite Htrim in Hle.
  rewrite slashes_fullName in Hle; [lia| |];
    by apply (forallb_impl plainUnit); [apply plainUnit_notSlash|].
Qed.

Lemma extracted_name_shape_witness :
  extractRepoFullName (lit "https://github.com/Devsethi3/Repo-Gist.git")
    = Some (lit "Devsethi3/Repo-Gist")
  ∧ ∃ owner repo,
      lit "Devsethi3/Repo-Gist" = fullName owner repo ∧ owner ≠ []
      ∧ forallb notSlash owner = true ∧ forallb plainUnit repo = true.
Proof.
  split; [vm_compute; reflexivity|].
  apply (extracted_name_shape
           (lit "https://github.com/Devsethi3/Repo-Gist.git")).
  vm_compute. reflexivity.
Defined.

Lemma github_url_round_trip_witness :
  extractRepoFullName
    (lit "https://www.github.com/"
     ++ fullName (lit "Devsethi3") (lit "Repo-Gist") ++ lit "/tree/main") =
    Some (withoutGit (fullName (lit "Devsethi3") (lit "Repo-Gist")))
  ∧ extractRepoFullName
      (lit "https://www.github.com/"
       ++ fullName (lit "Devsethi3") (lit "Repo-Gist" ++ lit ".git")
       ++ lit "/tree/main") =
      Some (fullName (lit "Devsethi3") (lit "Repo-Gist")).
Proof.
  apply (github_url_round_trip (lit "https://www.github.com/")
           (lit "Devsethi3") (lit "Repo-Gist") (lit "/tree/main")).
  - unfold addresses. do 5 apply list_elem_of_further.
    apply list_elem_of_here.
  - discriminate.
  - discriminate.
  - vm_compute. reflexivity.
  - vm_compute. reflexivity.
  - vm_compute. reflexivity.
Defined.

Lemma short_form_round_trip_witness :
  extractRepoFullName
    (lit "  " ++ fullName (lit "Devsethi3") (lit "Repo-Gist") ++ [10%N]) =
    Some (fullName (lit "Devsethi3") (lit "Repo-Gist")).
Proof.
  apply (short_form_round_trip (lit "  ") [10%N]
           (lit "Devsethi3") (lit "Repo-Gist"));
    first [discriminate | vm_compute; reflexivity].
Defined.

Lemma no_slash_refused_witness :
  extractRepoFullName (lit "Repo-Gist") = None.
Proof. apply no_slash_refused. vm_compute. reflexivity. Defined.

End RepoNameFacts.

(** ** Diagram codec: labels, validation and edges *)

Module MermaidTextFacts.
Import MermaidFacts.
Import StringFacts Mermaid MermaidText.

(** *** [sanitizeLabel] *)

Lemma replaceAll_without c to cs s :
  without cs s = true → without (cs ++ [c]) to = true →
  without (cs ++ [c]) (replaceAll c to s) = true.
Proof.
  intros Hs Hto. unfold without, replaceAll in *.
  induction s as [|d s IH]; [done|]. cbn [flat_map forallb] in *.
  apply andb_true_iff in Hs as [Hd Hs]. rewrite forallb_app, (IH Hs).
  destruct (d =? c)%N eqn:Hdc; [by rewrite Hto|].
  cbn [forallb]. rewrite existsb_app. cbn [existsb].
  rewrite Hdc. apply negb_true_iff in Hd. by rewrite Hd.
Qed.

Lemma replaceAll_same c s : replaceAll c [c] s = s.
Proof.
  unfold replaceAll. induction s as [|d s IH]; [done|]. cbn.
  destruct (d =? c)%N eqn:Hdc; [|by rewrite IH].
  apply N.eqb_eq in Hdc as ->. by rewrite IH.
Qed.

Lemma collapseSpaces_without cs s :
  without cs [32%N] = true → without cs s = true →
  without cs (collapseSpaces s) = true.
Proof.
  unfold without. intros Hspace.
  induction s as [|c s IH]; [done|]. cbn [forallb collapseSpaces].
  intros [Hc Hs]%andb_true_iff. specialize (IH Hs).
  destruct (isWhiteSpace c).
  - destruct s as [|d s]; [exact Hspace|].
    destruct (isWhiteSpace d); [exact IH|].
    cbn [forallb] in *. apply andb_true_iff in Hspace as [-> _]. exact IH.
  - cbn [forallb]. by rewrite Hc, IH.
Qed.

Lemma collapseSpaces_length s : (length (collapseSpaces s) ≤ length s)%nat.
Proof.
  induction s as [|c s IH]; [done|]. cbn [collapseSpaces].
  destruct (isWhiteSpace c); [|cbn; lia].
  destruct s as [|d s]; [done|].
  destruct (isWhiteSpace d); cbn [length] in *; lia.
Qed.

(** X17: a label holds none of the code units that end or open a node,
    a quoted text or a line of a diagram, and it has 40 code units at
    most. *)
Theorem sanitizeLabel_safe text :
  without problematic (sanitizeLabel text) = true
  ∧ (length (sanitizeLabel text) ≤ 40)%nat.
Proof.
  unfold sanitizeLabel. destruct text as [|c text]; [split; [done|cbn; lia]|].
  split; [|apply firstn_le_length].
  cbv zeta. unfold slice0. apply forallb_firstn, forallb_trim.
  apply (collapseSpaces_without problematic); [reflexivity|].
  rewrite (replaceAll_same 91), (replaceAll_same 93).
  apply (replaceAll_without 13 [] [40; 41; 34; 60; 62; 124; 123; 125; 10]%N);
    [|reflexivity].
  apply (replaceAll_without 10 _ [40; 41; 34; 60; 62; 124; 123; 125]%N);
    [|reflexivity].
  apply (replaceAll_without 125 _ [40; 41; 34; 60; 62; 124; 123]%N);
    [|reflexivity].
  apply (replaceAll_without 123 _ [40; 41; 34; 60; 62; 124]%N);
    [|reflexivity].
  apply (replaceAll_without 124 _ [40; 41; 34; 60; 62]%N); [|reflexivity].
  apply (replaceAll_without 62 _ [40; 41; 34; 60]%N); [|reflexivity].
  apply (replaceAll_without 60 _ [40; 41; 34]%N); [|reflexivity].
  apply (replaceAll_without 34 _ [40; 41]%N); [|reflexivity].
  apply (replaceAll_without 41 _ [40]%N); [|reflexivity].
  apply (replaceAll_without 40 _ []); [|reflexivity].
  unfold without. by apply forallb_forall.
Qed.

(** *** The validation of what the codec generates *)

Lemma join_first sep first lines :
  ∃ rest, join sep (first :: lines) = first ++ rest.
Proof.
  destruct lines as [|l lines]; [exists []; by rewrite app_nil_r|].
  by exists (sep ++ join sep (l :: lines)).
Qed.

(** The trimmed text, in small letters, of a text that begins with a
    keyword line. *)
Lemma lowered_keyword_line (c : N) keyword (d : N) rest :
  isWhiteSpace c = false → isWhiteSpace d = false →
  ∃ rest',
    toLowerCase (trim ((c :: keyword ++ [d]) ++ rest)) =
      toLowerCase (c :: keyword ++ [d]) ++ rest'.
Proof.
  intros Hc Hd. unfold trim.
  replace ((c :: keyword ++ [d]) ++ rest)
    with ((c :: keyword) ++ d :: rest)
    by (cbn [app]; by rewrite <- app_assoc).
  cbn [app trimStart]. rewrite Hc.
  change (c :: keyword ++ d :: rest) with ((c :: keyword) ++ d :: rest).
  rewrite (trimEnd_app _ _ _ Hd). exists (toLowerCase (trimEnd rest)).
  unfold toLowerCase. cbn [app map]. rewrite !map_app, <- app_assoc.
  reflexivity.
Qed.

Lemma flowchart_valid direction rest :
  direction = lit "TD" ∨ direction = lit "LR" →
  validateMermaidSyntax
    (Some ((lit "flowchart " ++ direction) ++ rest)) = true.
Proof.
  intros Hd. rewrite validate_accepts.
  assert (∃ rest',
    toLowerCase (trim ((lit "flowchart " ++ direction) ++ rest)) =
      toLowerCase (lit "flowchart " ++ direction) ++ rest') as [rest' ->].
  { destruct Hd as [->| ->].
    - apply (lowered_keyword_line 102 (lit "lowchart T") 68); reflexivity.
    - apply (lowered_keyword_line 102 (lit "lowchart L") 82); reflexivity. }
  unfold lowerStarts. cbn [existsb].
  rewrite (startsWith_more _ (lit "flowchart")); [reflexivity|].
  by destruct Hd as [->| ->].
Qed.

Lemma sequence_invalid rest :
  validateMermaidSyntax (Some (lit "sequenceDiagram" ++ rest)) = false.
Proof.
  rewrite validate_accepts.
  destruct (lowered_keyword_line 115 (lit "equenceDiagra") 109 rest)
    as [rest' Hlow]; [reflexivity..|].
  change ((115%N :: lit "equenceDiagra" ++ [109%N]) ++ rest)
    with (lit "sequenceDiagram" ++ rest) in Hlow.
  rewrite Hlow. reflexivity.
Qed.

Lemma generateArchitectureDiagram_valid cs w :
  validateMermaidSyntax (Some (code (generateArchitectureDiagram cs w).1))
    = true.
Proof.
  destruct cs as [[|c cs]|];
    [exact (flowchart_valid (lit "TD") _ (or_introl eq_refl))|
    |exact (flowchart_valid (lit "TD") _ (or_introl eq_refl))].
  unfold generateArchitectureDiagram.
  pose proof (componentNodes_extends (c :: cs) [lit "flowchart TD"] [] w)
    as [more1 H1].
  destruct (componentNodes (c :: cs) [lit "flowchart TD"] [] w)
    as [[lines groups] w1].
  destruct (componentIds (c :: cs) ∅ w1) as [idMap w2].
  cbn [fst snd code] in *. subst lines.
  destruct (componentConnections_extends idMap (c :: cs)
              ([lit "flowchart TD"] ++ more1) ∅) as [more2 ->].
  cbn [app].
  destruct (join_first nl (lit "flowchart TD")
              (((more1 ++ more2) ++ architectureStyles)
               ++ classLines componentTypeName groups)) as [rest Hj].
  rewrite <- !app_assoc in *. cbn [app] in *. rewrite Hj.
  exact (flowchart_valid (lit "TD") rest (or_introl eq_refl)).
Qed.

Lemma generateDataFlowDiagram_valid ns es w :
  validateMermaidSyntax (Some (code (generateDataFlowDiagram ns es w).1))
    = true.
Proof.
  destruct ns as [[|n ns]|];
    [exact (flowchart_valid (lit "LR") _ (or_intror eq_refl))|
    |exact (flowchart_valid (lit "LR") _ (or_intror eq_refl))].
  unfold generateDataFlowDiagram.
  pose proof (flowNodes_extends (n :: ns) [lit "flowchart LR"] [] ∅ w)
    as [more1 H1].
  destruct (flowNodes (n :: ns) [lit "flowchart LR"] [] ∅ w)
    as [[[lines groups] idMap] w1].
  cbn [fst snd code] in *. subst lines.
  destruct (flowEdges_extends idMap es ([lit "flowchart LR"] ++ more1))
    as [more2 ->].
  destruct (join_first nl (lit "flowchart LR")
              (((more1 ++ more2) ++ dataFlowStyles)
               ++ classLines nodeTypeName groups)) as [rest Hj].
  rewrite <- !app_assoc in *. cbn [app] in *. rewrite Hj.
  exact (flowchart_valid (lit "LR") rest (or_intror eq_refl)).
Qed.

Lemma generateSequenceDiagram_invalid ns es w :
  validateMermaidSyntax (Some (code (generateSequenceDiagram ns es w).1))
    = false.
Proof.
  assert (validateMermaidSyntax (Some (code sequencePlaceholder)) = false)
    as Hplace by exact (sequence_invalid _).
  destruct ns as [[|n ns]|]; [exact Hplace| |exact Hplace].
  destruct es as [[|e es]|]; [exact Hplace| |exact Hplace].
  unfold generateSequenceDiagram.
  pose proof (participants_extends (n :: ns) [lit "sequenceDiagram"] ∅ w)
    as [more1 H1].
  destruct (participants (n :: ns) [lit "sequenceDiagram"] ∅ w)
    as [[lines idMap] w1].
  cbn [fst snd code] in *. subst lines.
  destruct (interactions_extends idMap (e :: es)
              (([lit "sequenceDiagram"] ++ more1) ++ [[]])) as [more2 ->].
  destruct (join_first nl (lit "sequenceDiagram")
              ((more1 ++ [[]]) ++ more2)) as [rest Hj].
  rewrite <- !app_assoc in *. cbn [app] in *. rewrite Hj.
  exact (sequence_invalid rest).
Qed.

(** X18: the validation of the diagrams of the model against the
    diagrams of the codec.  Whatever the structured data, the
    architecture diagram and the data flow diagram that the codec
    generates pass [validateMermaidSyntax], and the sequence diagram it
    generates does not. *)
Theorem codec_against_validation cs ns es es' w :
  validateMermaidSyntax (Some (code (generateArchitectureDiagram cs w).1))
    = true
  ∧ validateMermaidSyntax (Some (code (generateDataFlowDiagram ns es w).1))
    = true
  ∧ validateMermaidSyntax (Some (code (generateSequenceDiagram ns es' w).1))
    = false.
Proof.
  split; [apply generateArchitectureDiagram_valid|].
  split; [apply generateDataFlowDiagram_valid
         |apply generateSequenceDiagram_invalid].
Qed.

Lemma usable_validates d d' :
  usable d = Some d' → validateMermaidSyntax (Some (code d')) = true.
Proof.
  destruct d as [d|]; [|done]. cbn [usable].
  destruct (validateMermaidSyntax (Some (code d))) eqn:Hv; [|done].
  by intros [= <-].
Qed.

(** X19: the architecture diagram and the data flow diagram that
    [processDiagrams] returns pass the validation, be they the ones of
    the model or the ones the codec generated. *)
Theorem processDiagrams_flowcharts_valid ai arch flow w d :
  architecture (processDiagrams ai arch flow w).1 = Some d
  ∨ dataFlow (processDiagrams ai arch flow w).1 = Some d →
  validateMermaidSyntax (Some (code d)) = true.
Proof.
  intros [Hd|Hd].
  - rewrite architecture_slot in Hd.
    destruct (usable (ai ≫= architecture)) as [d0|] eqn:Hu.
    + apply usable_validates in Hu. congruence.
    + destruct arch as [[|c cs]|]; [discriminate Hd| |discriminate Hd].
      replace d with (generateArchitectureDiagram (Some (c :: cs)) w).1
        by congruence.
      apply generateArchitectureDiagram_valid.
  - destruct (dataFlow_slot ai arch flow w) as [w0 Hslot].
    rewrite Hslot in Hd. clear Hslot.
    destruct (usable (ai ≫= dataFlow)) as [d0|] eqn:Hu.
    + apply usable_validates in Hu. congruence.
    + destruct (flow ≫= nodes) as [[|n ns]|];
        [discriminate Hd| |discriminate Hd].
      replace d with
        (generateDataFlowDiagram (Some (n :: ns))
           (default [] (flow ≫= edges)) w0).1 by congruence.
      apply generateDataFlowDiagram_valid.
Qed.

Lemma processDiagrams_flowcharts_valid_witness :
  architecture
    (processDiagrams None (Some twoComponents) None (steady noon)).1
    = Some (generateArchitectureDiagram (Some twoComponents) (steady noon)).1
  ∧ validateMermaidSyntax
      (Some (code (generateArchitectureDiagram (Some twoComponents)
                     (steady noon)).1)) = true.
Proof.
  assert (architecture
            (processDiagrams None (Some twoComponents) None (steady noon)).1
          = Some (generateArchitectureDiagram (Some twoComponents)
                    (steady noon)).1) as Hd
    by (vm_compute; reflexivity).
  split; [exact Hd|].
  exact (processDiagrams_flowcharts_valid None (Some twoComponents) None
           (steady noon) _ (or_introl Hd)).
Defined.

(** *** Edges between nodes that are not there *)

(** The identifiers [flowNodes] has noted are those of the nodes. *)
Lemma flowNodes_idMap ns : ∀ lines groups idMap w k,
  is_Some ((flowNodes ns lines groups idMap w).1.2 !! k)
  ↔ is_Some (idMap !! k) ∨ k ∈ map node_id ns.
Proof.
  induction ns as [|n ns IH]; intros lines groups idMap w k.
  - cbn. rewrite elem_of_nil. tauto.
  - cbn [flowNodes map].
    destruct (sanitizeId (node_id n) w) as [safeId w1].
    rewrite IH, elem_of_cons.
    destruct (decide (node_id n = k)) as [->|Hk].
    + rewrite lookup_insert_eq. split; [intros _; right; by left|].
      intros _. left. by eexists.
    + rewrite lookup_insert_ne by done. split; [tauto|].
      intros [?|[?|?]]; [tauto|congruence|tauto].
Qed.

Lemma flowEdges_known (known : DataFlowEdge → bool) idMap es : ∀ lines,
  (∀ edge, known edge = false → edgeEnds idMap edge = None) →
  flowEdges idMap (List.filter known es) lines = flowEdges idMap es lines.
Proof.
  intros lines Hknown. revert lines.
  induction es as [|edge es IH]; intros lines; [done|].
  cbn [List.filter flowEdges].
  destruct (known edge) eqn:Hk.
  - cbn [flowEdges]. destruct (edgeEnds idMap edge) as [[fromId toId]|];
      [|apply IH].
    destruct (label edge) as [[|c l]|]; apply IH.
  - rewrite (Hknown edge Hk). apply IH.
Qed.

(** X20: an edge of the data flow with an end that is no identifier of
    a node leaves no trace in the diagram. *)
Theorem dangling_edges_dropped ns es w :
  generateDataFlowDiagram (Some ns) es w =
    generateDataFlowDiagram (Some ns) (List.filter (knownEdge ns) es) w.
Proof.
  destruct ns as [|n ns]; [reflexivity|].
  unfold generateDataFlowDiagram.
  pose proof (flowNodes_idMap (n :: ns) [lit "flowchart LR"] [] ∅ w)
    as Hdom.
  destruct (flowNodes (n :: ns) [lit "flowchart LR"] [] ∅ w)
    as [[[lines groups] idMap] w1]. cbn [fst snd] in Hdom.
  rewrite (flowEdges_known (knownEdge (n :: ns))); [reflexivity|].
  intros edge Hk. unfold edgeEnds.
  assert (∀ k, k ∉ map node_id (n :: ns) → idMap !! k = None) as Hnone.
  { intros k Hk'. apply eq_None_not_Some. rewrite Hdom.
    rewrite lookup_empty. intros [[? [=]]|?]. done. }
  unfold knownEdge in Hk. apply andb_false_iff in Hk as [Hk|Hk];
    apply bool_decide_eq_false in Hk; rewrite (Hnone _ Hk);
    [reflexivity|].
  by destruct (idMap !! edge_from edge) as [[|c f]|].
Qed.

Example dangling_edges_example :
  List.filter (knownEdge twoNodes) threeEdges
    = [ {| edge_from := lit "user"; edge_to := lit "api";
           label := Some (lit "POST /api/analyze"); dataType := None |};
        {| edge_from := lit "api"; edge_to := lit "user";
           label := None; dataType := None |} ].
Proof. vm_compute. reflexivity. Qed.

End MermaidTextFacts.

(** ** Scoring engine: better and worse repositories *)

Module ScoringOrderFacts.
Import Scoring ScoringOrder.

(** [overall] in integers. *)
Lemma overall_formula m :
  let s := calculateScores m in
  overall s =
    roundHundredths
      (20 * codeQuality s + 15 * documentation s + 20 * security s
       + 20 * maintainability s + 15 * testCoverage s + 10 * dependencies s).
Proof.
  cbv zeta.
  pose proof (ScoringFacts.agrees_on_values _ _ _ _ _ _
    (ScoringFacts.codeQuality_values m)
    (ScoringFacts.documentation_values m)
    (ScoringFacts.security_values m)
    (ScoringFacts.maintainability_values m)
    (ScoringFacts.testCoverage_values m)
    (ScoringFacts.dependencies_values m)) as Hag.
  unfold agrees in Hag. cbv zeta in Hag.
  apply andb_prop in Hag as [Hag _]. apply andb_prop in Hag as [Hag _].
  apply andb_prop in Hag as [_ Heq]. apply Z.eqb_eq in Heq. exact Heq.
Qed.

Lemma roundHundredths_mono n n' :
  n ≤ n' → roundHundredths n ≤ roundHundredths n'.
Proof. intros H. unfold roundHundredths. apply Z.div_le_mono; lia. Qed.

(** A bonus that [m'] has when [m] has it, a malus that [m] has when
    [m'] has it. *)
Lemma adjust_bonus c c' d msg msg' acc acc' :
  0 ≤ d → implb c c' = true → acc.1 ≤ acc'.1 →
  (adjust c d msg acc).1 ≤ (adjust c' d msg' acc').1.
Proof. unfold adjust. destruct c, c'; cbn; try done; lia. Qed.

Lemma adjust_malus c c' d msg msg' acc acc' :
  d ≤ 0 → implb c' c = true → acc.1 ≤ acc'.1 →
  (adjust c d msg acc).1 ≤ (adjust c' d msg' acc').1.
Proof. unfold adjust. destruct c, c'; cbn; try done; lia. Qed.

Lemma rmScore_mono q q' :
  readmeRank q ≤ readmeRank q' → rmScore q ≤ rmScore q'.
Proof. destruct q, q'; cbn; lia. Qed.

Section Monotone.

Variables m m' : CodeMetrics.
Hypothesis Hbetter : noWorse m m' = true.

Lemma noWorse_parts :
  implb (hasTypeScript m) (hasTypeScript m') = true
  ∧ implb (strictMode m) (strictMode m') = true
  ∧ implb (hasLinting m) (hasLinting m') = true
  ∧ implb (hasPrettier m) (hasPrettier m') = true
  ∧ implb (hasErrorHandling (codePatterns m))
      (hasErrorHandling (codePatterns m')) = true
  ∧ readmeRank (readmeQuality m) ≤ readmeRank (readmeQuality m')
  ∧ implb (hasChangelog m) (hasChangelog m') = true
  ∧ implb (hasLicense m) (hasLicense m') = true
  ∧ implb (hasSecurityConfig m) (hasSecurityConfig m') = true
  ∧ implb (nonEmpty (exposedSecrets m')) (nonEmpty (exposedSecrets m)) = true
  ∧ implb (nonEmpty (vulnerablePatterns m'))
      (nonEmpty (vulnerablePatterns m)) = true
  ∧ implb (hasCI m) (hasCI m') = true
  ∧ implb (hasTests m) (hasTests m') = true
  ∧ implb (50 <? dependencyCount m') (50 <? dependencyCount m) = true.
Proof.
  unfold noWorse in Hbetter.
  repeat (apply andb_true_iff in Hbetter as [Hbetter ?]).
  rewrite Z.leb_le in *. done.
Qed.

Lemma codeQuality_mono :
  score (codeQualityOf m) ≤ score (codeQualityOf m').
Proof.
  destruct noWorse_parts as (? & ? & ? & ? & ? & _).
  unfold codeQualityOf. cbn [score]. apply Z.min_le_compat_l.
  repeat (apply adjust_bonus; [lia|done|]). reflexivity.
Qed.

Lemma documentation_mono :
  score (documentationOf m) ≤ score (documentationOf m').
Proof.
  destruct noWorse_parts as (_ & _ & _ & _ & _ & Hr & ? & Hl & _).
  unfold documentationOf. cbn [score].
  apply Z.max_le_compat_l, Z.min_le_compat_l.
  apply adjust_malus; [lia|by destruct (hasLicense m), (hasLicense m')|].
  apply adjust_bonus; [lia|done|]. cbn [fst].
  apply rmScore_mono in Hr. lia.
Qed.

Lemma security_mono : score (securityOf m) ≤ score (securityOf m').
Proof.
  destruct noWorse_parts as (_ & _ & _ & _ & _ & _ & _ & _ & ? & ? & ? & _).
  unfold securityOf. cbn [score].
  apply Z.max_le_compat_l, Z.min_le_compat_l.
  do 2 (apply adjust_malus; [lia|done|]).
  apply adjust_bonus; [lia|done|]. reflexivity.
Qed.

Lemma maintainability_mono :
  score (maintainabilityOf m) ≤ score (maintainabilityOf m').
Proof.
  destruct noWorse_parts
    as (? & _ & ? & _ & _ & _ & _ & _ & _ & _ & _ & ? & _).
  unfold maintainabilityOf. cbn [score]. apply Z.min_le_compat_l.
  repeat (apply adjust_bonus; [lia|done|]). reflexivity.
Qed.

Lemma testCoverage_mono :
  score (testCoverageOf m) ≤ score (testCoverageOf m').
Proof.
  destruct noWorse_parts
    as (_ & _ & _ & _ & _ & _ & _ & _ & _ & _ & _ & ? & ? & _).
  unfold testCoverageOf. cbn [score]. apply Z.min_le_compat_l.
  repeat (apply adjust_bonus; [lia|done|]). reflexivity.
Qed.

Lemma dependencies_mono :
  score (dependenciesOf m) ≤ score (dependenciesOf m').
Proof.
  destruct noWorse_parts
    as (_ & _ & _ & _ & _ & _ & _ & _ & _ & _ & ? & _ & _ & ?).
  unfold dependenciesOf. cbn [score]. apply Z.max_le_compat_l.
  repeat (apply adjust_malus; [lia|done|]). reflexivity.
Qed.

End Monotone.

(** X21: repairing a repository lowers none of its scores.  When [m']
    has every asset that [m] has, and [m] has every fault that [m']
    has, each of the six category scores of [m'] and its overall score
    are at least those of [m]. *)
Theorem scores_monotone m m' :
  noWorse m m' = true →
  let s := calculateScores m in
  let s' := calculateScores m' in
  codeQuality s ≤ codeQuality s' ∧ documentation s ≤ documentation s'
  ∧ security s ≤ security s' ∧ maintainability s ≤ maintainability s'
  ∧ testCoverage s ≤ testCoverage s' ∧ dependencies s ≤ dependencies s'
  ∧ overall s ≤ overall s'.
Proof.
  intros Hbetter s s'.
  pose proof (codeQuality_mono m m' Hbetter) as H1.
  pose proof (documentation_mono m m' Hbetter) as H2.
  pose proof (security_mono m m' Hbetter) as H3.
  pose proof (maintainability_mono m m' Hbetter) as H4.
  pose proof (testCoverage_mono m m' Hbetter) as H5.
  pose proof (dependencies_mono m m' Hbetter) as H6.
  split; [exact H1|]. split; [exact H2|]. split; [exact H3|].
  split; [exact H4|]. split; [exact H5|]. split; [exact H6|].
  unfold s, s'. rewrite (overall_formula m), (overall_formula m').
  apply roundHundredths_mono. cbn [calculateScores codeQuality documentation
    security maintainability testCoverage dependencies bd_codeQuality
    bd_documentation bd_security bd_maintainability bd_testCoverage
    bd_dependencies]. lia.
Qed.

Lemma scores_monotone_witness :
  noWorse typescriptOnly typescriptLinted = true
  ∧ codeQuality (calculateScores typescriptOnly)
    ≤ codeQuality (calculateScores typescriptLinted)
  ∧ overall (calculateScores typescriptOnly)
    ≤ overall (calculateScores typescriptLinted).
Proof.
  assert (noWorse typescriptOnly typescriptLinted = true) as Hbetter
    by reflexivity.
  split; [exact Hbetter|].
  pose proof (scores_monotone typescriptOnly typescriptLinted Hbetter) as H.
  cbv zeta in H. split; [apply H|]. apply H.
Defined.

(** X22: the overall score lies between 35 and 91, and both are
    reached. *)
Theorem overall_bounds m :
  35 ≤ overall (calculateScores m) ≤ 91
  ∧ overall (calculateScores worst) = 35
  ∧ overall (calculateScores exemplary) = 91.
Proof.
  split; [|split; vm_compute; reflexivity].
  rewrite (overall_formula m). unfold roundHundredths.
  assert (50 ≤ codeQuality (calculateScores m) ≤ 100) as H1.
  { change (codeQuality (calculateScores m)) with (score (codeQualityOf m)).
    pose proof (ScoringFacts.codeQuality_values m) as H.
    unfold codeQualityValues in H. cbn [In] in H. lia. }
  assert (15 ≤ documentation (calculateScores m) ≤ 90) as H2.
  { change (documentation (calculateScores m)) with (score (documentationOf m)).
    pose proof (ScoringFacts.documentation_values m) as H.
    unfold documentationValues in H. cbn [In] in H. lia. }
  assert (25 ≤ security (calculateScores m) ≤ 85) as H3.
  { change (security (calculateScores m)) with (score (securityOf m)).
    pose proof (ScoringFacts.security_values m) as H.
    unfold securityValues in H. cbn [In] in H. lia. }
  assert (50 ≤ maintainability (calculateScores m) ≤ 100) as H4.
  { change (maintainability (calculateScores m)) with (score (maintainabilityOf m)).
    pose proof (ScoringFacts.maintainability_values m) as H.
    unfold maintainabilityValues in H. cbn [In] in H. lia. }
  assert (20 ≤ testCoverage (calculateScores m) ≤ 80) as H5.
  { change (testCoverage (calculateScores m)) with (score (testCoverageOf m)).
    pose proof (ScoringFacts.testCoverage_values m) as H.
    unfold testCoverageValues in H. cbn [In] in H. lia. }
  assert (50 ≤ dependencies (calculateScores m) ≤ 80) as H6.
  { change (dependencies (calculateScores m)) with (score (dependenciesOf m)).
    pose proof (ScoringFacts.dependencies_values m) as H.
    unfold dependenciesValues in H. cbn [In] in H. lia. }
  split.
  - apply Z.div_le_lower_bound; lia.
  - apply Z.div_le_upper_bound; lia.
Qed.

End ScoringOrderFacts.

(** ** Suggestions *)

Module GeneratorsFacts.
Import Scoring ScoringOrder Generators.

Lemma numbered_next prefix n :
  numbered prefix (S n) =
    numbered prefix n ++ [lit prefix ++ decimal (Z.of_nat n + 1)].
Proof.
  unfold numbered. rewrite seq_S, map_app. cbn [map].
  by replace (Z.of_nat (1 + n)) with (Z.of_nat n + 1) by lia.
Qed.

Lemma numbered_firstn prefix k n :
  firstn k (numbered prefix n) = numbered prefix (Nat.min k n).
Proof. unfold numbered. by rewrite firstn_map, take_seq. Qed.

Section PushIf.

Context {A : Type} (idOf : A → jsstring) (prefix : string).

(** The list is numbered without a gap, and the counter is the next
    number. *)
Lemma pushIf_numbered c (make : jsstring → A) acc :
  (∀ id, idOf (make id) = id) →
  map idOf acc.1 = numbered prefix (length acc.1)
  ∧ acc.2 = Z.of_nat (length acc.1) + 1 →
  map idOf (pushIf c prefix make acc).1
    = numbered prefix (length (pushIf c prefix make acc).1)
  ∧ (pushIf c prefix make acc).2
    = Z.of_nat (length (pushIf c prefix make acc).1) + 1.
Proof.
  intros Hid [Hids Hnext]. unfold pushIf. destruct c; [|done]. cbn [fst snd].
  rewrite length_app, map_app, Hids. cbn [length map].
  rewrite Nat.add_1_r, numbered_next, Hid, Hnext. split; [done|lia].
Qed.

Lemma pushIf_length c (make : jsstring → A) acc :
  length (pushIf c prefix make acc).1
  = (length acc.1 + if c then 1 else 0)%nat.
Proof. unfold pushIf. destruct c; cbn; [by rewrite length_app|lia]. Qed.

Lemma pushIf_Forall (P : A → Prop) c (make : jsstring → A) acc :
  (∀ id, P (make id)) → Forall P acc.1 →
  Forall P (pushIf c prefix make acc).1.
Proof.
  intros Hmake Hacc. unfold pushIf. destruct c; [|done]. cbn.
  apply Forall_app. split; [done|]. by apply Forall_singleton.
Qed.

Lemma firstn_numbered k (l : list A) :
  map idOf l = numbered prefix (length l) →
  map idOf (firstn k l) = numbered prefix (length (firstn k l)).
Proof.
  intros Hl. by rewrite <- firstn_map, Hl, numbered_firstn, length_firstn.
Qed.

End PushIf.

Lemma automationsFound_numbered m :
  map auto_id (automationsFound m).1
    = numbered "auto-" (length (automationsFound m).1)
  ∧ (automationsFound m).2 = Z.of_nat (length (automationsFound m).1) + 1.
Proof.
  unfold automationsFound. cbv zeta.
  repeat (apply pushIf_numbered; [reflexivity|]). done.
Qed.

Lemma automationsFound_length m :
  length (automationsFound m).1 =
    ((if negb (hasCI m) then 1 else 0)
     + (if nonEmpty (exposedSecrets m) then 1 else 0)
     + (if negb (hasSecurityConfig m) then 1 else 0)
     + (if negb (hasTests m) then 1 else 0)
     + (if negb (hasEnvExample m) then 1 else 0))%nat.
Proof.
  unfold automationsFound. cbv zeta. by rewrite !pushIf_length.
Qed.

(** X23: [generateAutomations] cuts nothing.  Its five findings all fit
    under the limit of five, so the list has one entry for each finding,
    numbered [auto-1], [auto-2], ... without a gap, and it is empty
    for the repository that has a CI, a security configuration, tests,
    an [.env.example] and no exposed secret, and for no other. *)
Theorem generateAutomations_complete m :
  generateAutomations m = (automationsFound m).1
  ∧ map auto_id (generateAutomations m)
    = numbered "auto-" (length (generateAutomations m))
  ∧ (generateAutomations m = [] ↔
     hasCI m && negb (nonEmpty (exposedSecrets m)) && hasSecurityConfig m
     && hasTests m && hasEnvExample m = true).
Proof.
  assert (generateAutomations m = (automationsFound m).1) as Hall.
  { unfold generateAutomations. apply firstn_all2.
    rewrite automationsFound_length.
    destruct (hasCI m), (nonEmpty (exposedSecrets m)),
      (hasSecurityConfig m), (hasTests m), (hasEnvExample m); cbn; lia. }
  split; [exact Hall|]. rewrite Hall.
  split; [apply automationsFound_numbered|].
  rewrite <- length_zero_iff_nil, automationsFound_length.
  destruct (hasCI m), (nonEmpty (exposedSecrets m)),
    (hasSecurityConfig m), (hasTests m), (hasEnvExample m); cbn;
    split; first [done | lia].
Qed.

Lemma fiveRefactors_numbered m :
  map ref_id (fiveRefactors m).1
    = numbered "ref-" (length (fiveRefactors m).1)
  ∧ (fiveRefactors m).2 = Z.of_nat (length (fiveRefactors m).1) + 1.
Proof.
  unfold fiveRefactors. cbv zeta.
  repeat (apply pushIf_numbered; [reflexivity|]). done.
Qed.

Lemma fiveRefactors_length m :
  length (fiveRefactors m).1 =
    ((if hasTypeScript m && negb (strictMode m) then 1 else 0)
     + (if negb (hasLinting m) then 1 else 0)
     + (if negb (hasTests m) then 1 else 0)
     + (if negb (hasErrorHandling (codePatterns m)) then 1 else 0)
     + (if negb (hasValidation (codePatterns m)) then 1 else 0))%nat.
Proof. unfold fiveRefactors. cbv zeta. by rewrite !pushIf_length. Qed.

Lemma fiveRefactors_full m :
  (length (fiveRefactors m).1 ≤ 5)%nat
  ∧ (length (fiveRefactors m).1 = 5%nat ↔ fiveFindings m = true).
Proof.
  rewrite fiveRefactors_length. unfold fiveFindings.
  destruct (hasTypeScript m && negb (strictMode m)), (hasLinting m),
    (hasTests m), (hasErrorHandling (codePatterns m)),
    (hasValidation (codePatterns m)); cbn; split; try lia;
    split; first [done | lia].
Qed.

Lemma fiveRefactors_titles m :
  Forall (λ r, ref_title r ≠ lit "Split large files") (fiveRefactors m).1.
Proof.
  unfold fiveRefactors. cbv zeta.
  repeat (apply pushIf_Forall; [intros id; cbn [ref_title]; discriminate|]).
  apply Forall_nil_2.
Qed.

(** X24: [generateRefactors] cuts its last finding.  The list has five
    entries at most, numbered [ref-1], [ref-2], ... without a gap; it
    is the list of the findings unless all six are made, and then the
    advice to split the large files is the one that is left out. *)
Theorem generateRefactors_cut m :
  (length (generateRefactors m) ≤ 5)%nat
  ∧ map ref_id (generateRefactors m)
    = numbered "ref-" (length (generateRefactors m))
  ∧ (nonEmpty (largeFiles m) && fiveFindings m = false →
     generateRefactors m = (refactorsFound m).1)
  ∧ (lit "Split large files" ∈ map ref_title (generateRefactors m) ↔
     nonEmpty (largeFiles m) && negb (fiveFindings m) = true).
Proof.
  destruct (fiveRefactors_full m) as [Hle Hfull].
  assert (nonEmpty (largeFiles m) && fiveFindings m = false →
          generateRefactors m = (refactorsFound m).1) as Hkept.
  { intros Hnot. unfold generateRefactors. apply firstn_all2.
    unfold refactorsFound. rewrite pushIf_length.
    destruct (nonEmpty (largeFiles m)); [|lia].
    destruct (fiveFindings m); [discriminate Hnot|].
    assert (length (fiveRefactors m).1 ≠ 5%nat) by (rewrite Hfull; done).
    lia. }
  split; [apply firstn_le_length|].
  split; [|split; [exact Hkept|]].
  - apply firstn_numbered. unfold refactorsFound.
    apply pushIf_numbered; [reflexivity | apply fiveRefactors_numbered].
  - pose proof (fiveRefactors_titles m) as Htitles.
    assert (lit "Split large files" ∉ map ref_title (fiveRefactors m).1)
      as Hfive.
    { rewrite list_elem_of_In, in_map_iff. intros (r & Hr & Hin).
      apply list_elem_of_In in Hin.
      rewrite Forall_forall in Htitles. by apply (Htitles r Hin). }
    destruct (nonEmpty (largeFiles m)) eqn:Hlarge; cbn [andb].
    + destruct (fiveFindings m) eqn:Hfind; cbn [negb].
      * unfold generateRefactors, refactorsFound, pushIf. rewrite Hlarge.
        cbn [fst]. rewrite firstn_app.
        assert (length (fiveRefactors m).1 = 5%nat) as Hfive'
          by (by apply Hfull).
        replace (5 - length (fiveRefactors m).1)%nat with 0%nat by lia.
        rewrite firstn_all2 by lia. cbn [firstn]. rewrite app_nil_r.
        split; [done|discriminate].
      * rewrite (Hkept eq_refl). unfold refactorsFound, pushIf.
        rewrite Hlarge. cbn [fst]. rewrite map_app, elem_of_app.
        split; [done|]. intros _. right. cbn. apply list_elem_of_here.
    + rewrite (Hkept eq_refl). unfold refactorsFound, pushIf.
      rewrite Hlarge. split; [done|discriminate].
Qed.

Example generateRefactors_neglected :
  map ref_title (generateRefactors neglected)
  = [ lit "Enable TypeScript strict mode"; lit "Add ESLint";
      lit "Add testing"; lit "Add error handling";
      lit "Add input validation" ]
  ∧ length (refactorsFound neglected).1 = 6%nat.
Proof. vm_compute. done. Qed.

End GeneratorsFacts.

(** ** README assessment *)

Module ReadmeFacts.
Import StringFacts Scoring ScoringOrder Readme.

Lemma includes_here s sub more :
  startsWith s sub = true → includes (s ++ more) sub = true.
Proof.
  intros H.
  assert (includes (s ++ more) sub
          = startsWith (s ++ more) sub
            || match s ++ more with
               | [] => false
               | _ :: s' => includes s' sub
               end) as -> by (by destruct (s ++ more)).
  by rewrite (startsWith_more s sub more H).
Qed.

(** A text that has a word keeps it when more text is put around it. *)
Lemma includes_around before s after sub :
  includes s sub = true → includes (before ++ s ++ after) sub = true.
Proof.
  intros Hs.
  assert (includes (s ++ after) sub = true) as Hafter.
  { clear before. induction s as [|c s IH].
    - cbn in Hs. rewrite orb_false_r in Hs. by apply (includes_here []).
    - cbn [includes] in Hs. apply orb_true_iff in Hs as [Hs|Hs].
      + by apply (includes_here (c :: s)).
      + cbn [app includes]. rewrite (IH Hs). apply orb_true_r. }
  induction before as [|c before IH]; [exact Hafter|].
  cbn [app includes]. rewrite IH. apply orb_true_r.
Qed.

Lemma mentions_around before text after word :
  mentions text word = true →
  mentions (before ++ text ++ after) word = true.
Proof.
  unfold mentions, foldCase. rewrite !map_app. apply includes_around.
Qed.

Lemma point_mono b b' : implb b b' = true → point b ≤ point b'.
Proof. destruct b, b'; cbn; intros H; first [lia | discriminate H]. Qed.

Lemma either_around before text after word word' :
  implb (mentions text word || mentions text word')
    (mentions (before ++ text ++ after) word
     || mentions (before ++ text ++ after) word') = true.
Proof.
  pose proof (mentions_around before text after word) as H1.
  pose proof (mentions_around before text after word') as H2.
  destruct (mentions text word); [by rewrite H1|].
  destruct (mentions text word'); [|done]. rewrite H2 by done.
  by rewrite !orb_true_r.
Qed.

(** X25: text that is added to a README, in front of it or after it,
    does not lower its assessment. *)
Theorem assessReadme_grows before readme after :
  readmeRank (assessReadme readme)
  ≤ readmeRank (assessReadme (before ++ readme ++ after)).
Proof.
  unfold assessReadme. rewrite !length_app.
  pose proof (point_mono _ _ (either_around before readme after
                                "install" "setup")) as H1.
  pose proof (point_mono _ _ (either_around before readme after
                                "usage" "example")) as H2.
  assert (point (includes readme (lit "```"))
          ≤ point (includes (before ++ readme ++ after) (lit "```"))) as H3.
  { apply point_mono.
    pose proof (includes_around before readme after (lit "```")) as H.
    destruct (includes readme (lit "```")); [by rewrite H|done]. }
  set (p1 := point (mentions readme "install" || mentions readme "setup"))
    in *.
  set (p2 := point (mentions readme "usage" || mentions readme "example"))
    in *.
  set (p3 := point (includes readme (lit "```"))) in *.
  set (q1 := point (mentions (before ++ readme ++ after) "install"
                    || mentions (before ++ readme ++ after) "setup")) in *.
  set (q2 := point (mentions (before ++ readme ++ after) "usage"
                    || mentions (before ++ readme ++ after) "example")) in *.
  set (q3 := point (includes (before ++ readme ++ after) (lit "```"))) in *.
  assert (0 ≤ p1 ∧ 0 ≤ p2 ∧ 0 ≤ p3) as (? & ? & ?).
  { unfold p1, p2, p3, point. repeat case_match; lia. }
  clearbody p1 p2 p3 q1 q2 q3. cbv zeta.
  repeat match goal with
         | |- context [(?a <? ?b)%nat] => destruct (Nat.ltb_spec a b)
         | |- context [?a >=? ?b] => destruct (Z.geb_spec a b)
         end; cbn; lia.
Qed.

End ReadmeFacts.

(** ** The walk over the file tree *)

Module FileTreeFacts.
Import StringFacts Readme FileTree.

Lemma lastFirst_unfold n :
  lastFirst n =
    path n :: match children n with
              | Some nodes => concat (rev (map lastFirst nodes))
              | None => []
              end.
Proof. by destruct n as [? ? ? ? [nodes|]]. Qed.

Lemma nodeCount_unfold n :
  nodeCount n =
    S match children n with
      | Some nodes => list_sum (map nodeCount nodes)
      | None => 0
      end.
Proof. by destruct n as [? ? ? ? [nodes|]]. Qed.

Lemma list_sum_rev l : list_sum (rev l) = list_sum l.
Proof.
  induction l as [|x l IH]; [done|]. cbn [rev].
  rewrite list_sum_app, IH, !list_sum_cons. cbn. lia.
Qed.

(** The loop, with fuel for every node on the stack and below it. *)
Lemma flattenLoop_visits fuel : ∀ stack paths,
  (list_sum (map nodeCount stack) ≤ fuel)%nat →
  flattenLoop fuel stack paths
  = Some (paths ++ concat (map lastFirst stack)).
Proof.
  induction fuel as [|fuel IH]; intros stack paths Hfuel.
  - destruct stack as [|node stack]; [by rewrite app_nil_r|].
    cbn [map] in Hfuel. rewrite list_sum_cons, nodeCount_unfold in Hfuel. lia.
  - destruct stack as [|node stack]; [by rewrite app_nil_r|].
    cbn [flattenLoop map concat]. cbn [map] in Hfuel.
    rewrite list_sum_cons, nodeCount_unfold in Hfuel.
    rewrite lastFirst_unfold.
    destruct (children node) as [nodes|].
    + rewrite IH.
      * rewrite map_app, concat_app, map_rev, <- !app_assoc. reflexivity.
      * rewrite map_app, list_sum_app, map_rev, list_sum_rev. lia.
    + rewrite IH by lia. by rewrite <- app_assoc.
Qed.

(** X26: [flattenPaths] comes to an end and lists every node.  With a
    turn for each node of the tree its loop stops, and the paths it has
    collected are those of the trees from the last to the first, each
    node before the nodes below it: every node once. *)
Theorem flattenPaths_visits fuel tree :
  (list_sum (map nodeCount tree) ≤ fuel)%nat →
  flattenPaths fuel tree = Some (concat (rev (map lastFirst tree)))
  ∧ length (concat (rev (map lastFirst tree)))
    = list_sum (map nodeCount tree).
Proof.
  intros Hfuel. split.
  - unfold flattenPaths. rewrite flattenLoop_visits.
    + by rewrite map_rev.
    + by rewrite map_rev, list_sum_rev.
  - clear Hfuel.
    assert (∀ n, length (lastFirst n) = nodeCount n) as Hnode.
    { fix IH 1. intros [? ? ? ? [nodes|]]; [|reflexivity].
      cbn [lastFirst nodeCount length]. f_equal.
      induction nodes as [|n nodes IHnodes]; [reflexivity|].
      cbn [map rev]. rewrite list_sum_cons, concat_app, length_app.
      cbn [concat]. rewrite app_nil_r, IH, IHnodes. lia. }
    induction tree as [|n tree IH]; [reflexivity|].
    cbn [map rev]. rewrite list_sum_cons, concat_app, length_app.
    cbn [concat]. rewrite app_nil_r, Hnode, IH. lia.
Qed.

Lemma lowerUnit_twice c : lowerUnit (lowerUnit c) = lowerUnit c.
Proof.
  assert (∀ d, (97 ≤ d ≤ 122 ∨ 224 ≤ d ≤ 254)%N → lowerUnit d = d)
    as Hsmall.
  { intros d Hd. unfold lowerUnit.
    destruct (N.leb_spec 65 d), (N.leb_spec d 90), (N.leb_spec 192 d),
      (N.leb_spec d 222), (N.eqb_spec d 215); cbn [andb negb];
      first [reflexivity | lia]. }
  assert (lowerUnit c = c
          ∨ (97 ≤ lowerUnit c ≤ 122 ∨ 224 ≤ lowerUnit c ≤ 254)%N) as Hc.
  { unfold lowerUnit.
    destruct (N.leb_spec 65 c), (N.leb_spec c 90), (N.leb_spec 192 c),
      (N.leb_spec c 222), (N.eqb_spec c 215); cbn [andb negb];
      first [left; reflexivity | right; lia]. }
  destruct Hc as [Hc|Hc]; [by rewrite !Hc | by apply Hsmall].
Qed.

Lemma toLowerCase_twice s : toLowerCase (toLowerCase s) = toLowerCase s.
Proof.
  unfold toLowerCase. rewrite map_map. apply map_ext. intros c.
  apply lowerUnit_twice.
Qed.

Lemma existsb_concat {A} (p : A → bool) ls :
  existsb p (concat ls) = existsb (existsb p) ls.
Proof.
  induction ls as [|l ls IH]; [reflexivity|].
  cbn [concat existsb]. by rewrite existsb_app, IH.
Qed.

Lemma existsb_same {A} (p p' : A → bool) l :
  (∀ x, p x = p' x) → existsb p l = existsb p' l.
Proof.
  intros Hp. induction l as [|x l IH]; [reflexivity|].
  cbn. by rewrite Hp, IH.
Qed.

Lemma toLowerCase_text s : s ≠ [] → toLowerCase s ≠ [].
Proof. by destruct s. Qed.

Lemma below_unfold node :
  below node =
    node :: match children node with
            | Some nodes => concat (map below nodes)
            | None => []
            end.
Proof. by destruct node as [? ? ? ? [nodes|]]. Qed.

Section WithCaseTables.

(** [String.prototype.toLowerCase], of which two things are used: a
    text in small letters is left as it is, and only the empty text
    becomes empty. *)
Variable lower : jsstring → jsstring.
Hypothesis lower_twice : ∀ s, lower (lower s) = lower s.
Hypothesis lower_text : ∀ s, s ≠ [] → lower s ≠ [].

Lemma nodeMatchesSearch_unfold node c q :
  nodeMatchesSearch lower node (c :: q) =
    includes (lower (name node)) (lower (c :: q))
    || match children node with
       | Some nodes =>
           existsb (λ child, nodeMatchesSearch lower child (lower (c :: q)))
             nodes
       | None => false
       end.
Proof.
  destruct node as [? ? ? ? [nodes|]]; cbn [nodeMatchesSearch name children];
    by destruct (includes _ _).
Qed.

Lemma nodeMatchesSearch_names : ∀ node c q,
  nodeMatchesSearch lower node (c :: q)
  = existsb (λ n, nameMatchesSearch lower (name n) (c :: q)) (below node).
Proof.
  fix IH 1. intros node c q.
  rewrite nodeMatchesSearch_unfold, below_unfold. cbn [existsb].
  f_equal. destruct node as [? ? ? ? [nodes|]]; [|reflexivity].
  cbn [children]. rewrite existsb_concat.
  induction nodes as [|n nodes IHnodes]; [reflexivity|].
  cbn [map existsb]. rewrite IHnodes. f_equal.
  pose proof (lower_text (c :: q) ltac:(discriminate)) as Htext.
  pose proof (lower_twice (c :: q)) as Htwice.
  destruct (lower (c :: q)) as [|c' q'] eqn:Hlower; [done|].
  rewrite IH. apply existsb_same. intros n'.
  unfold nameMatchesSearch. by rewrite Htwice, Hlower.
Qed.

(** X27: what the search of the file tree shows, for the case tables
    of [toLowerCase] taken as they come.  With an empty query every
    node matches; with another one a node matches exactly when the name
    of the node or of a node below it does, as [nameMatchesSearch]
    tells. *)
Theorem nodeMatchesSearch_shows node :
  nodeMatchesSearch lower node [] = true
  ∧ ∀ c q,
      nodeMatchesSearch lower node (c :: q)
      = existsb (λ n, nameMatchesSearch lower (name n) (c :: q)) (below node).
Proof.
  split; [by destruct node|]. apply nodeMatchesSearch_names.
Qed.

End WithCaseTables.

Lemma nodeMatchesSearch_shows_witness :
  let query := lit "PAGE" in
  let found n := nameMatchesSearch toLowerCase (name n) query in
  Forall (λ node, nodeMatchesSearch toLowerCase node [] = true) sampleTree
  ∧ map (λ node, nodeMatchesSearch toLowerCase node query) sampleTree
    = map (λ node, existsb found (below node)) sampleTree
  ∧ map (λ node, nodeMatchesSearch toLowerCase node query) sampleTree
    = [true; false].
Proof.
  intros query found. split_and!.
  - apply Forall_forall. intros node _.
    apply (nodeMatchesSearch_shows toLowerCase toLowerCase_twice
             toLowerCase_text node).
  - apply map_ext. intros node.
    apply (nodeMatchesSearch_shows toLowerCase toLowerCase_twice
             toLowerCase_text node).
  - reflexivity.
Defined.

Lemma flattenPaths_visits_witness :
  flattenPaths 5 sampleTree
    = Some (concat (rev (map lastFirst sampleTree)))
  ∧ length (concat (rev (map lastFirst sampleTree)))
    = list_sum (map nodeCount sampleTree).
Proof. apply (flattenPaths_visits 5 sampleTree). vm_compute. lia. Defined.

End FileTreeFacts.

(** ** Texts with a limit *)

Module TextsFacts.
Import StringFacts Texts.

Lemma length_trim s : (length (trim s) ≤ length s)%nat.
Proof.
  unfold trim, trimEnd. rewrite length_rev.
  etransitivity; [apply length_trimStart|]. rewrite length_rev.
  apply length_trimStart.
Qed.

(** X28: a description is cut to its limit.  For a limit of three or
    more, [truncateDescription] returns a text within the limit: the
    text itself when it fits, and else a beginning of it without white
    space at its end, followed by three dots. *)
Theorem truncateDescription_fits text maxLength :
  3 ≤ maxLength →
  Z.of_nat (length (truncateDescription text maxLength)) ≤ maxLength
  ∧ (Z.of_nat (length text) ≤ maxLength →
     truncateDescription text maxLength = text)
  ∧ (maxLength < Z.of_nat (length text) →
     truncateDescription text maxLength
     = trim (firstn (Z.to_nat (maxLength - 3)) text) ++ lit "...").
Proof.
  intros Hmax. unfold truncateDescription, sliceTo.
  destruct (Z.leb_spec (Z.of_nat (length text)) maxLength) as [Hfit|Hlong].
  - split; [done|]. split; [done|lia].
  - destruct (Z.ltb_spec (maxLength - 3) 0) as [?|_]; [lia|].
    split; [|split; [lia|done]].
    rewrite length_app. cbn [length lit map list_ascii_of_string].
    pose proof (length_trim (firstn (Z.to_nat (maxLength - 3)) text)) as Ht.
    pose proof (firstn_le_length (Z.to_nat (maxLength - 3)) text) as Hf.
    lia.
Qed.

Lemma truncateDescription_fits_witness :
  truncateDescription (lit "hello world, this is") 10 = lit "hello w..."
  ∧ Z.of_nat (length (truncateDescription (lit "hello world, this is") 10))
    ≤ 10.
Proof.
  split; [vm_compute; reflexivity|].
  apply (truncateDescription_fits (lit "hello world, this is") 10). lia.
Defined.

Lemma length_join sep lines :
  (length (join sep lines)
   ≤ list_sum (map (λ l, length l + length sep) lines))%nat.
Proof.
  induction lines as [|l [|l' lines] IH]; [done| |].
  - cbn [join map]. rewrite list_sum_cons. lia.
  - change (join sep (l :: l' :: lines))
      with (l ++ sep ++ join sep (l' :: lines)).
    rewrite !length_app.
    change (map ?f (l :: ?rest)) with (f l :: map f rest).
    rewrite list_sum_cons. cbn beta. lia.
Qed.

(** X29: the files that go into the prompt have a bound.  With names
    of [nameLength] code units at most, [prepareFilesContent] returns
    at most [maxFiles] blocks of [nameLength + maxContentLength + 15]
    code units. *)
Theorem prepareFilesContent_bounded importantFiles maxFiles maxContentLength
    nameLength :
  Forall (λ entry, (length entry.1 ≤ nameLength)%nat) importantFiles →
  (length (prepareFilesContent importantFiles maxFiles maxContentLength)
   ≤ maxFiles * (nameLength + maxContentLength + 15))%nat.
Proof.
  intros Hnames. unfold prepareFilesContent.
  pose proof (length_join [10; 10]%N
                (map (fileBlock maxContentLength)
                   (firstn maxFiles importantFiles))) as Hjoin.
  cbn [length] in Hjoin.
  etransitivity; [exact Hjoin|]. clear Hjoin.
  enough (list_sum
            (map (λ l, length l + 2)
               (map (fileBlock maxContentLength)
                  (firstn maxFiles importantFiles)))
          ≤ maxFiles * (nameLength + maxContentLength + 15))%nat by lia.
  revert maxFiles.
  induction Hnames as [|[file content] files Hname _ IH]; intros [|maxFiles];
    try (cbn; lia).
  cbn [firstn map]. rewrite list_sum_cons. specialize (IH maxFiles).
  assert (length (fileBlock maxContentLength (file, content)) + 2
          ≤ nameLength + maxContentLength + 15)%nat as Hblock.
  { unfold fileBlock, slice0, fence. rewrite !length_app.
    cbn [length lit map list_ascii_of_string fst snd] in *.
    pose proof (firstn_le_length maxContentLength content). lia. }
  lia.
Qed.

Lemma prepareFilesContent_bounded_witness :
  (length (prepareFilesContent sampleFiles 6 2500)
   ≤ 6 * (12 + 2500 + 15))%nat.
Proof.
  apply (prepareFilesContent_bounded sampleFiles 6 2500 12).
  repeat constructor.
Defined.

End TextsFacts.
